(** * Muzic-Rocks: the pitch detector of [src/audio/pitch-detector.js]

    A shallow embedding of the class [PitchDetector]: the ACF2+ estimator
    [autoCorrelate] and the smoothing layer [detectPitch], [reset] and
    [setSensitivity].

    JavaScript numbers are IEEE-754 binary64 values, and so are Rocq's
    primitive floats: [+], [-], [*], [/], [Math.sqrt], [Math.abs], [<]
    and [>] are the operations of [PrimFloat], bit for bit (there is a single
    NaN, as far as the program can observe).  A [Float32Array] is a list of
    floats: every sample it can hold, infinities and NaN included, is a
    binary64 value.  Array lengths, indices and [historySize] are integers
    and are kept in [Z]; [null] is [None], and [-1] is the number -1. *)

From Stdlib Require Import ZArith List Lia Bool.
From Stdlib Require Import Floats.
From Stdlib Require Uint63.
From Stdlib Require String DecimalString.
Import ListNotations.

Set Warnings "-inexact-float".
Open Scope Z_scope.

(** ** JavaScript values and arrays *)

Module JS.

(** The number with the value of an integer: exact below 2^53, which
    covers every array length and index (correctly rounded below 2^63). *)
Definition of_Z (z : Z) : float :=
  match z with
  | Z0 => 0%float
  | Zpos _ => of_uint63 (Uint63.of_Z z)
  | Zneg p => (- of_uint63 (Uint63.of_Z (Zpos p)))%float
  end.

(** [a[i]]: reading outside the array gives [undefined], here [None]. *)
Definition get (a : list float) (i : Z) : option float :=
  if i <? 0 then None else nth_error a (Z.to_nat i).

(** [undefined] in arithmetic and in comparisons is NaN. *)
Definition ToNumber (v : option float) : float :=
  match v with
  | Some x => x
  | None => nan
  end.

(** [if (a)] on a number: 0, -0 and NaN are falsy. *)
Definition truthy (a : float) : bool :=
  negb (is_nan a || is_zero a).

(** [x > y]. *)
Definition gt (x y : float) : bool := (y <? x)%float.

(** The values [lo, lo+1, ..., hi-1] of a counting loop. *)
Definition range (lo hi : Z) : list Z :=
  map (fun k => lo + Z.of_nat k) (seq 0 (Z.to_nat (hi - lo))).

(** [a.slice(start, end)], with the relative (negative) indices of
    Array.prototype.slice. *)
Definition slice (a : list float) (start end_ : Z) : list float :=
  let len := Z.of_nat (length a) in
  let k := if start <? 0 then Z.max (len + start) 0 else Z.min start len in
  let final := if end_ <? 0 then Z.max (len + end_) 0 else Z.min end_ len in
  firstn (Z.to_nat (final - k)) (skipn (Z.to_nat k) a).

End JS.

(** ** Completions

    A call returns a value, throws the TypeError of [reduce] on an empty
    array, or is cut off by the fuel of a [while] loop. *)

Inductive result (A : Type) : Type :=
| Ok (a : A)
| TypeError
| OutOfFuel.

Arguments Ok {A} a.
Arguments TypeError {A}.
Arguments OutOfFuel {A}.

Definition bind {A B : Type} (r : result A) (k : A -> result B) : result B :=
  match r with
  | Ok a => k a
  | TypeError => TypeError
  | OutOfFuel => OutOfFuel
  end.

Notation "x <- r ;; k" := (bind r (fun x => k))
  (at level 61, r at next level, right associativity).

(** ** The estimator: [autoCorrelate] *)

Section AutoCorrelate.

Import JS.

Definition thres : float := 0.2%float.

(** [for (let i = start; i < SIZE / 2; i++) if (hit i) { r = i; break; }]:
    the index at which the loop breaks, if it does.  The loop test
    [i < SIZE / 2] on integers is [2 * i < SIZE]. *)
Fixpoint scan_half (fuel : nat) (SIZE : Z) (hit : Z -> bool) (i : Z) : option Z :=
  match fuel with
  | O => None
  | S fuel' =>
      if 2 * i <? SIZE
      then if hit i then Some i else scan_half fuel' SIZE hit (i + 1)
      else None
  end.

(** Lines 38-47: [r1]. *)
Definition find_r1 (buffer : list float) : Z :=
  let SIZE := Z.of_nat (length buffer) in
  match scan_half (length buffer) SIZE
          (fun i => (abs (ToNumber (get buffer i)) <? thres)%float) 0 with
  | Some i => i
  | None => 0
  end.

(** Lines 38 and 49-55: [r2]. *)
Definition find_r2 (buffer : list float) : Z :=
  let SIZE := Z.of_nat (length buffer) in
  match scan_half (length buffer) SIZE
          (fun i => (abs (ToNumber (get buffer (SIZE - i))) <? thres)%float) 1 with
  | Some i => SIZE - i
  | None => SIZE - 1
  end.

(** Lines 57-58: the trimmed buffer. *)
Definition trim (buffer : list float) : list float :=
  slice buffer (find_r1 buffer) (find_r2 buffer).

(** Lines 24-31. *)
Definition rms_of (buffer : list float) : float :=
  let SIZE := Z.of_nat (length buffer) in
  let rms := fold_left (fun rms val => (rms + val * val)%float) buffer 0%float in
  sqrt (rms / of_Z SIZE).

(** Lines 62-67: [c[i]] is the sum over [j < SIZE - i] of
    [buffer[j] * buffer[j + i]], accumulated from 0 in that order. *)
Definition autocorrelation (buffer : list float) : list float :=
  let SIZE := Z.of_nat (length buffer) in
  map (fun i =>
         fold_left
           (fun ci j =>
              (ci + ToNumber (get buffer j) * ToNumber (get buffer (j + i)))%float)
           (range 0 (SIZE - i)) 0%float)
      (range 0 SIZE).

(** Lines 71-72: [let d = 0; while (c[d] > c[d + 1]) d++;]. *)
Fixpoint skip_slope (fuel : nat) (c : list float) (d : Z) : result Z :=
  match fuel with
  | O => OutOfFuel
  | S fuel' =>
      if gt (ToNumber (get c d)) (ToNumber (get c (d + 1)))
      then skip_slope fuel' c (d + 1)
      else Ok d
  end.

(** Lines 75-82: the first maximum of [c] from [d] on, as
    [(maxval, maxpos)]. *)
Definition peak (c : list float) (d : Z) : float * Z :=
  fold_left
    (fun '(maxval, maxpos) i =>
       if gt (ToNumber (get c i)) maxval then (ToNumber (get c i), i)
       else (maxval, maxpos))
    (range d (Z.of_nat (length c))) ((-1)%float, -1).

(** Lines 84-98: parabolic interpolation around [T0] and the result. *)
Definition refine (c : list float) (sampleRate : float) (maxpos : Z) : float :=
  let T0 := maxpos in
  let x1 := ToNumber (get c (T0 - 1)) in
  let x2 := ToNumber (get c T0) in
  let x3 := ToNumber (get c (T0 + 1)) in
  let a := ((x1 + x3 - 2 * x2) / 2)%float in
  let b := ((x3 - x1) / 2)%float in
  let T0 := if truthy a then (of_Z T0 - b / (2 * a))%float else of_Z T0 in
  (sampleRate / T0)%float.

Definition autoCorrelate (buffer : list float) (sampleRate : float) : result float :=
  if (rms_of buffer <? 0.01)%float then Ok (-1)%float
  else
    let buffer := trim buffer in
    let c := autocorrelation buffer in
    d <- skip_slope (S (length c)) c 0 ;;
    Ok (refine c sampleRate (snd (peak c d))).

End AutoCorrelate.

(** ** The tracker: [detectPitch], [reset], [setSensitivity] *)

Record PitchDetector : Type := mkPitchDetector {
  sampleRate : float;
  pitchHistory : list float;
  historySize : Z;
  pitchTolerance : float
}.

(** The constructor (lines 6-14); the audio context is not used by the
    methods below. *)
Definition new_PitchDetector (sampleRate : float) : PitchDetector :=
  {| sampleRate := sampleRate;
     pitchHistory := [];
     historySize := 3;
     pitchTolerance := 15%float |}.

Definition set_pitchHistory (this : PitchDetector) (h : list float) : PitchDetector :=
  {| sampleRate := sampleRate this;
     pitchHistory := h;
     historySize := historySize this;
     pitchTolerance := pitchTolerance this |}.

(** Lines 109-132: [detectPitch] from the raw estimate [frequency] on.
    [null] is [None]. *)
Definition track (this : PitchDetector) (frequency : float)
  : PitchDetector * result (option float) :=
  if (frequency <? 60)%float || (1000 <? frequency)%float
  then (set_pitchHistory this [], Ok None)
  else
    let h := pitchHistory this ++ [frequency] in
    let h := if historySize this <? Z.of_nat (length h) then tl h else h in
    let this := set_pitchHistory this h in
    if Z.of_nat (length h) <? historySize this then (this, Ok None)
    else
      match h with
      | [] => (this, TypeError)
      | x :: xs =>
          let avgFreq := (fold_left add xs x / JS.of_Z (historySize this))%float in
          let isConsistent :=
            forallb (fun freq => (abs (freq - avgFreq) <? pitchTolerance this)%float) h in
          (this, Ok (if isConsistent then Some avgFreq else None))
      end.

Definition detectPitch (this : PitchDetector) (dataArray : list float)
  : PitchDetector * result (option float) :=
  match autoCorrelate dataArray (sampleRate this) with
  | Ok frequency => track this frequency
  | TypeError => (this, TypeError)
  | OutOfFuel => (this, OutOfFuel)
  end.

Definition reset (this : PitchDetector) : PitchDetector :=
  set_pitchHistory this [].

(** The argument of [setSensitivity]: a property that is [undefined] (or
    missing) is [None]. *)
Record settings : Type := mkSettings {
  s_historySize : option Z;
  s_pitchTolerance : option float
}.

Definition setSensitivity (this : PitchDetector) (s : settings) : PitchDetector :=
  let this :=
    match s_historySize s with
    | Some n =>
        {| sampleRate := sampleRate this;
           pitchHistory := pitchHistory this;
           historySize := n;
           pitchTolerance := pitchTolerance this |}
    | None => this
    end in
  let this :=
    match s_pitchTolerance s with
    | Some t =>
        {| sampleRate := sampleRate this;
           pitchHistory := pitchHistory this;
           historySize := historySize this;
           pitchTolerance := t |}
    | None => this
    end in
  reset this.

(** A run of [detectPitch] calls on one detector: the final detector and
    the value of every call, in order. *)
Fixpoint detectPitch_all (this : PitchDetector) (inputs : list (list float))
  : PitchDetector * list (result (option float)) :=
  match inputs with
  | [] => (this, [])
  | dataArray :: rest =>
      let '(this', r) := detectPitch this dataArray in
      let '(this'', rs) := detectPitch_all this' rest in
      (this'', r :: rs)
  end.

(** ** Notions the statements use *)

(** *** The estimator *)

(** The correlation array of a buffer that passed the silence gate. *)
Definition correlation (buffer : list float) : list float :=
  autocorrelation (trim buffer).

(** The lag [T0] that the peak search (lines 71-84) leaves. *)
Definition T0_of (buffer : list float) : result Z :=
  let c := correlation buffer in
  d <- skip_slope (S (length c)) c 0 ;;
  Ok (snd (peak c d)).

(** The claim C1 as the specification words it: whenever the peak search
    ends at a boundary of the correlation array, or at a non-positive lag,
    the estimator answers -1. *)
Definition boundary_guarded : Prop :=
  forall (buffer : list float) (sampleRate : float) (T0 : Z),
    T0_of buffer = Ok T0 ->
    T0 <= 0 \/ JS.get (correlation buffer) (T0 - 1) = None
            \/ JS.get (correlation buffer) (T0 + 1) = None ->
    autoCorrelate buffer sampleRate = Ok (-1)%float.

(** [|buffer[i]| < 0.2]. *)
Definition below (buffer : list float) (i : Z) : bool :=
  (abs (JS.ToNumber (JS.get buffer i)) <? thres)%float.

(** The specification's trimming, in its words: [left] is the first index
    from the start whose sample is below the threshold (0 when there is
    none), [right] the first such index from the end inward (the buffer
    length when there is none), both searched over the whole buffer. *)
Definition spec_left (buffer : list float) : Z :=
  match find (below buffer) (JS.range 0 (Z.of_nat (length buffer))) with
  | Some i => i
  | None => 0
  end.

Definition spec_right (buffer : list float) : Z :=
  match find (below buffer) (rev (JS.range 0 (Z.of_nat (length buffer)))) with
  | Some i => i
  | None => Z.of_nat (length buffer)
  end.

Definition trims_as_specified : Prop :=
  forall buffer : list float,
    (rms_of buffer <? 0.01)%float = false ->
    find_r1 buffer = spec_left buffer /\
    find_r2 buffer = spec_right buffer /\
    trim buffer = JS.slice buffer (spec_left buffer) (spec_right buffer).

(** A buffer of period 4: at 880 samples per second its estimate is 220. *)
Definition tone : list float :=
  [1; 0.5; -1; -0.5; 1; 0.5; -1; -0.5; 1; 0.5; -1; -0.5;
   1; 0.5; -1; -0.5; 1; 0.5; -1; -0.5]%float.

(** *** The tracker *)

(** The range gate of line 110. *)
Definition gate (frequency : float) : bool :=
  (frequency <? 60)%float || (1000 <? frequency)%float.

(** Lines 116-119: [push], then [shift] when the history is too long. *)
Definition push_shift (n : Z) (h : list float) (frequency : float) : list float :=
  let h := h ++ [frequency] in
  if n <? Z.of_nat (length h) then tl h else h.

(** The mean of the specification: the sum of the entries, added in order,
    over their number. *)
Definition arithmetic_mean (h : list float) : float :=
  match h with
  | [] => nan
  | x :: xs => (fold_left add xs x / JS.of_Z (Z.of_nat (length h)))%float
  end.

(** Every entry is within [tolerance] of [avg], strictly. *)
Definition consistent (tolerance avg : float) (h : list float) : bool :=
  forallb (fun freq => (abs (freq - avg) <? tolerance)%float) h.

(** The run of the tracker on raw estimates. *)
Fixpoint track_all (this : PitchDetector) (raws : list float)
  : PitchDetector * list (result (option float)) :=
  match raws with
  | [] => (this, [])
  | frequency :: rest =>
      let '(this', r) := track this frequency in
      let '(this'', rs) := track_all this' rest in
      (this'', r :: rs)
  end.

(** [raws] are the estimates [autoCorrelate] gives for [inputs]. *)
Definition estimates (this : PitchDetector) (inputs : list (list float))
  (raws : list float) : Prop :=
  Forall2 (fun dataArray frequency =>
             autoCorrelate dataArray (sampleRate this) = Ok frequency)
          inputs raws.

(** Within the musical range, bounds included. *)
Definition in_range (f : float) : bool := (60 <=? f)%float && (f <=? 1000)%float.

(** What the tracker keeps true of its history as long as [historySize] is
    not changed under it: at most [historySize] entries, each let through
    by the range gate. *)
Definition hist_ok (this : PitchDetector) : Prop :=
  Z.of_nat (length (pitchHistory this)) <= Z.max (historySize this) 0 /\
  Forall (fun f => gate f = false) (pitchHistory this).

(** [historySize] counts array entries: a setting is a positive integer
    within the length of an array. *)
Definition max_array_length : Z := 4294967295.

(** The settings a caller may pass. *)
Definition valid_settings (s : settings) : Prop :=
  match s_historySize s with
  | Some n => 1 <= n <= max_array_length
  | None => True
  end.

(** The detectors a program can build: from the constructor, by any
    sequence of the three methods. *)
Inductive reachable : PitchDetector -> Prop :=
| reach_new (sampleRate : float) :
    reachable (new_PitchDetector sampleRate)
| reach_detectPitch (this : PitchDetector) (dataArray : list float) :
    reachable this -> reachable (fst (detectPitch this dataArray))
| reach_reset (this : PitchDetector) :
    reachable this -> reachable (reset this)
| reach_setSensitivity (this : PitchDetector) (s : settings) :
    reachable this -> valid_settings s -> reachable (setSensitivity this s).

(** *** Binary64 values

    A positive number [m * 2^e] is kept as an integer, scaled by [2^1074]:
    the smallest exponent of the format is -1074. *)

Module Binary64.

(** [2^e] scaled by [2^1074], an integer for every exponent of the format. *)
Definition pw (e : Z) : Z := 2 ^ (e + 1074).

(** The unit: the scaled value of 1. *)
Definition U : Z := pw 0.

(** Scaled value of the positive number [m * 2^e]. *)
Definition V (m : positive) (e : Z) : Z := Zpos m * pw e.

(** Nothing was lost by the shifts so far: the round and sticky bits are
    clear. *)
Definition exact (r : shr_record) : Prop := shr_r r = false /\ shr_s r = false.

End Binary64.

(** [x] is a positive number with [a <= x <= b]. *)
Definition between (a b : Z) (x : float) : Prop :=
  exists m e,
    Prim2SF x = S754_finite false m e /\
    a * Binary64.U <= Binary64.V m e <= b * Binary64.U.

(** ** Numbers of bounded magnitude *)

Module Magnitude.

(** A zero, or a number of scaled magnitude at most [B]: not an infinity,
    not NaN. *)
Definition small_SF (B : Z) (x : spec_float) : Prop :=
  match x with
  | S754_zero _ => True
  | S754_finite _ m e => Binary64.V m e <= B
  | _ => False
  end.

(** The sign bit. *)
Definition sign_SF (x : spec_float) : bool :=
  match x with
  | S754_zero s | S754_infinity s | S754_finite s _ _ => s
  | S754_nan => false
  end.

End Magnitude.

(** ** The data of an analyser *)

(** A zero or a number of magnitude at most [B] (scaled). *)
Definition small (B : Z) (x : float) : Prop := Magnitude.small_SF B (Prim2SF x).

(** The sign bit is clear. *)
Definition nonneg (x : float) : Prop := Magnitude.sign_SF (Prim2SF x) = false.

(** The range of the numbers in a [Float32Array]: zero, or of magnitude
    between 2^-149, the least binary32 number, and the largest one.
    Every binary32 number is in it; of the values an element can take
    only the infinities and NaN are not. *)
Definition float32_range (x : float) : bool :=
  is_zero x || ((0x1p-149 <=? abs x) && (abs x <=? 0x1.fffffep+127))%float.

(** The sample rate of an audio context: a positive number. *)
Definition audio_rate (sampleRate : float) : bool :=
  ((0 <? sampleRate) && (sampleRate <? infinity))%float.

(** The time-domain data of an analyser: a [Float32Array] of numbers. *)
Definition audio_data (dataArray : list float) : Prop :=
  Forall (fun x => float32_range x = true) dataArray /\
  Z.of_nat (length dataArray) <= max_array_length.

(** The detectors of a program that listens: built for the sample rate of
    an audio context and fed the data of an analyser. *)
Inductive listening : PitchDetector -> Prop :=
| listen_new (sampleRate : float) :
    audio_rate sampleRate = true -> listening (new_PitchDetector sampleRate)
| listen_detectPitch (this : PitchDetector) (dataArray : list float) :
    listening this -> audio_data dataArray ->
    listening (fst (detectPitch this dataArray))
| listen_reset (this : PitchDetector) :
    listening this -> listening (reset this)
| listen_setSensitivity (this : PitchDetector) (s : settings) :
    listening this -> valid_settings s -> listening (setSensitivity this s).

(** A click at either end of [n] samples of silence. *)
Definition clicks (n : nat) : list float :=
  1%float :: repeat 0%float n ++ [1%float].

(** [test] holds of [k], [k + 1], ..., for [fuel] numbers. *)
Fixpoint holds_from (test : Z -> bool) (fuel : nat) (k : Z) : bool :=
  match fuel with
  | O => true
  | S fuel' => test k && holds_from test fuel' (k + 1)
  end.

(** ** The root mean square in exact arithmetic *)

(** The magnitude of a number, scaled by [2^1074]: a whole number. *)
Definition magnitude (x : float) : Z :=
  match Prim2SF x with
  | S754_finite _ m e => Binary64.V m e
  | _ => 0
  end.

(** The sum of the squares of the samples, in exact arithmetic (scaled by
    [2^2148]). *)
Definition energy (buffer : list float) : Z :=
  fold_right (fun x acc => magnitude x * magnitude x + acc) 0 buffer.

(** The root mean square of the samples, in exact arithmetic, is at most
    (is below) the fraction [p / q]: the mean of the squares is at most
    (is below) [p^2 / q^2]. *)
Definition rms_at_most (p q : Z) (buffer : list float) : Prop :=
  q * q * energy buffer
  <= p * p * Z.of_nat (length buffer) * (Binary64.U * Binary64.U).

Definition rms_below (p q : Z) (buffer : list float) : Prop :=
  q * q * energy buffer
  < p * p * Z.of_nat (length buffer) * (Binary64.U * Binary64.U).

(** The largest [fftSize] of an analyser. *)
Definition max_fftSize : Z := 32768.

(** The claim C6 in the words of the specification: a buffer whose root
    mean square is below 0.01 has no pitch.  It is stated for the numbers
    of a [Float32Array] only, which asks less of the code. *)
Definition silence_gated : Prop :=
  forall (buffer : list float) (sampleRate : float),
    Forall (fun x => float32_range x = true) buffer ->
    rms_below 1 100 buffer ->
    autoCorrelate buffer sampleRate = Ok (-1)%float.

(** Four binary32 numbers (24 significant bits each) whose root mean
    square is below 0.01 by less than the rounding of lines 27-31. *)
Definition threshold_buffer : list float :=
  [0x1.439c02p-7; 0x1.4767d2p-7; 0x1.d27436p-7; 0x1.b33bdcp-20]%float.

(** ** The order of the numbers *)

Module Order64.

(** Above the scaled value of every finite number. *)
Definition huge : Z := 2 ^ 2200.

(** A rank that orders the numbers as [<] does: the scaled value of a
    finite number, with both zeros at 0 and the infinities beyond. *)
Definition rank (x : spec_float) : Z :=
  match x with
  | S754_zero _ => 0
  | S754_infinity s => if s then - huge else huge
  | S754_nan => 0
  | S754_finite s m e => if s then - Binary64.V m e else Binary64.V m e
  end.

End Order64.

(** The last [n] entries of a list (all of it when it is shorter). *)
Definition lastn {A : Type} (n : Z) (l : list A) : list A :=
  skipn (length l - Z.to_nat n) l.

(** ** The element that drives the detector

    [src/components/PitchDetector/PitchDetector.js]: the custom element
    [pitch-detector] (its class is also called [PitchDetector]) owns a
    detector and runs it from an animation-frame loop.  The fields are
    those the loop reads and writes; the audio nodes (stream, context,
    analyser, microphone, gain) are handles of the browser, and what the
    methods do with them is left out.  The clock, the samples and the
    request ids come from the browser and are arguments. *)

Module Element.

Import String.

Record PitchDetectorElement : Type := mkElement {
  isActive : bool;
  isMonitoring : bool;
  currentFrequency : option float;
  errorMessage : option string;
  pitchDetector : option PitchDetector;
  animationFrame : option Z;
  smoothedFrequency : option float;
  smoothingFactor : float
}.

(** The constructor (lines 27-45). *)
Definition new_PitchDetectorElement : PitchDetectorElement :=
  {| isActive := false;
     isMonitoring := false;
     currentFrequency := None;
     errorMessage := None;
     pitchDetector := None;
     animationFrame := None;
     smoothedFrequency := None;
     smoothingFactor := 0.3%float |}.

Definition set_isActive (this : PitchDetectorElement) (b : bool) :=
  {| isActive := b;
     isMonitoring := isMonitoring this;
     currentFrequency := currentFrequency this;
     errorMessage := errorMessage this;
     pitchDetector := pitchDetector this;
     animationFrame := animationFrame this;
     smoothedFrequency := smoothedFrequency this;
     smoothingFactor := smoothingFactor this |}.

Definition set_errorMessage (this : PitchDetectorElement) (m : option string) :=
  {| isActive := isActive this;
     isMonitoring := isMonitoring this;
     currentFrequency := currentFrequency this;
     errorMessage := m;
     pitchDetector := pitchDetector this;
     animationFrame := animationFrame this;
     smoothedFrequency := smoothedFrequency this;
     smoothingFactor := smoothingFactor this |}.

Definition set_pitchDetector (this : PitchDetectorElement) (d : option PitchDetector) :=
  {| isActive := isActive this;
     isMonitoring := isMonitoring this;
     currentFrequency := currentFrequency this;
     errorMessage := errorMessage this;
     pitchDetector := d;
     animationFrame := animationFrame this;
     smoothedFrequency := smoothedFrequency this;
     smoothingFactor := smoothingFactor this |}.

Definition set_animationFrame (this : PitchDetectorElement) (id : option Z) :=
  {| isActive := isActive this;
     isMonitoring := isMonitoring this;
     currentFrequency := currentFrequency this;
     errorMessage := errorMessage this;
     pitchDetector := pitchDetector this;
     animationFrame := id;
     smoothedFrequency := smoothedFrequency this;
     smoothingFactor := smoothingFactor this |}.

(** Both frequencies are written together (lines 163-177, 234-235). *)
Definition set_frequencies (this : PitchDetectorElement) (smoothed current : option float) :=
  {| isActive := isActive this;
     isMonitoring := isMonitoring this;
     currentFrequency := current;
     errorMessage := errorMessage this;
     pitchDetector := pitchDetector this;
     animationFrame := animationFrame this;
     smoothedFrequency := smoothed;
     smoothingFactor := smoothingFactor this |}.

Definition set_isMonitoring (this : PitchDetectorElement) (b : bool) :=
  {| isActive := isActive this;
     isMonitoring := b;
     currentFrequency := currentFrequency this;
     errorMessage := errorMessage this;
     pitchDetector := pitchDetector this;
     animationFrame := animationFrame this;
     smoothedFrequency := smoothedFrequency this;
     smoothingFactor := smoothingFactor this |}.

(** What a method asks of the outside: the events it dispatches and its
    calls of [requestAnimationFrame] (which returned [id]) and
    [cancelAnimationFrame]. *)
Inductive effect : Type :=
| pitch_update (frequency : option float)
| error (message : string)
| requestAnimationFrame (id : Z)
| cancelAnimationFrame (id : Z).

(** One call of the closure [detect] (lines 148-189): the element and the
    closure variable [lastDetectionTime] after it, what it asked of the
    outside, and whether it threw. *)
Record step : Type := mkStep {
  s_this : PitchDetectorElement;
  s_lastDetectionTime : Z;
  s_effects : list effect;
  s_threw : bool
}.

Definition detectionInterval : Z := 100.

(** [if (frequency)] on the value of [detectPitch]: [null], 0 and NaN are
    falsy. *)
Definition truthy (frequency : option float) : bool :=
  match frequency with
  | Some f => JS.truthy f
  | None => false
  end.

(** Lines 163-177: exponential smoothing of a reading, or the reset on an
    absent one. *)
Definition smooth (this : PitchDetectorElement) (frequency : option float)
  : PitchDetectorElement :=
  match frequency with
  | Some f =>
      if JS.truthy f then
        let smoothed :=
          match smoothedFrequency this with
          | None => f
          | Some s => (s * (1 - smoothingFactor this) + f * smoothingFactor this)%float
          end in
        set_frequencies this (Some smoothed) (Some smoothed)
      else set_frequencies this None None
  | None => set_frequencies this None None
  end.

Definition detect (this : PitchDetectorElement) (lastDetectionTime : Z)
  (now : Z) (samples : list float) (id : Z) : step :=
  if negb (isActive this) then mkStep this lastDetectionTime [] false
  else if detectionInterval <=? now - lastDetectionTime then
    match pitchDetector this with
    | None => mkStep this now [] true
    | Some detector =>
        match detectPitch detector samples with
        | (detector, Ok frequency) =>
            let this := smooth (set_pitchDetector this (Some detector)) frequency in
            mkStep (set_animationFrame this (Some id)) now
                   [pitch_update (currentFrequency this); requestAnimationFrame id]
                   false
        | (detector, _) =>
            mkStep (set_pitchDetector this (Some detector)) now [] true
        end
    end
  else mkStep (set_animationFrame this (Some id)) lastDetectionTime
              [requestAnimationFrame id] false.

(** Lines 141-192: a new closure, with [lastDetectionTime = 0], called
    once. *)
Definition detectPitchLoop (this : PitchDetectorElement)
  (now : Z) (samples : list float) (id : Z) : step :=
  detect this 0 now samples id.

Definition microphone_error : string :=
  "Could not access microphone. Please grant permission.".

(** Lines 80-134 of [start]: what it does once the wait for the microphone
    is over.  [granted] is the sample rate of the audio context, or [None]
    when the microphone or the audio graph could not be had (the [catch]
    branch). *)
Definition start_resume (this : PitchDetectorElement) (granted : option float)
  (now : Z) (samples : list float) (id : Z) : PitchDetectorElement * list effect :=
  match granted with
  | None =>
      (set_errorMessage this (Some microphone_error), [error microphone_error])
  | Some sampleRate =>
      let this := set_pitchDetector this (Some (new_PitchDetector sampleRate)) in
      let s := detectPitchLoop this now samples id in
      if s_threw s
      then (set_errorMessage (s_this s) (Some microphone_error),
            s_effects s ++ [error microphone_error])
      else (set_errorMessage (set_isActive (s_this s) true) None, s_effects s)
  end.

(** [start] (lines 77-135) when nothing else touches the element while it
    waits for the microphone: the test of line 78, then the rest. *)
Definition start (this : PitchDetectorElement) (granted : option float)
  (now : Z) (samples : list float) (id : Z) : PitchDetectorElement * list effect :=
  if isActive this then (this, [])
  else start_resume this granted now samples id.

(** [stop] (lines 197-238).  A request id of 0 is falsy. *)
Definition stop (this : PitchDetectorElement) : PitchDetectorElement * list effect :=
  let this := set_isActive this false in
  let '(this, effects) :=
    match animationFrame this with
    | Some id =>
        if id =? 0 then (this, [])
        else (set_animationFrame this None, [cancelAnimationFrame id])
    | None => (this, [])
    end in
  let this := set_frequencies this None None in
  let this := set_isMonitoring this false in
  (set_pitchDetector this None, effects).

(** [toggle] (lines 243-249). *)
Definition toggle (this : PitchDetectorElement) (granted : option float)
  (now : Z) (samples : list float) (id : Z) : PitchDetectorElement * list effect :=
  if isActive this then stop this else start this granted now samples id.

(** What a page does with the element, one call after the other: each
    call is over before the next begins. *)
Inductive call : Type :=
| call_start (granted : option float) (now : Z) (samples : list float) (id : Z)
| call_stop
| call_toggle (granted : option float) (now : Z) (samples : list float) (id : Z).

Definition perform (this : PitchDetectorElement) (c : call)
  : PitchDetectorElement * list effect :=
  match c with
  | call_start granted now samples id => start this granted now samples id
  | call_stop => stop this
  | call_toggle granted now samples id => toggle this granted now samples id
  end.

Fixpoint perform_all (this : PitchDetectorElement) (calls : list call)
  : PitchDetectorElement * list effect :=
  match calls with
  | [] => (this, [])
  | c :: rest =>
      let '(this, effects) := perform this c in
      let '(this, more) := perform_all this rest in
      (this, effects ++ more)
  end.

(** An effect that keeps the loop going or shows a pitch. *)
Definition detecting (e : effect) : bool :=
  match e with
  | pitch_update _ | requestAnimationFrame _ => true
  | error _ | cancelAnimationFrame _ => false
  end.

(** The call asked for the next animation frame. *)
Definition requested (s : step) : bool :=
  existsb (fun e => match e with requestAnimationFrame _ => true | _ => false end)
          (s_effects s).

(** The browser calling [detect] once per animation frame, for as long as
    the closure asks for the next one.  Every frame brings the element as
    it is by then (other methods may have run since the last frame), the
    clock, the samples and the id of the new request; the closure keeps
    its variable [lastDetectionTime] from frame to frame. *)
Fixpoint frames (lastDetectionTime : Z)
  (fs : list (PitchDetectorElement * Z * list float * Z)) : list step :=
  match fs with
  | [] => []
  | (this, now, samples, id) :: rest =>
      let s := detect this lastDetectionTime now samples id in
      s :: (if requested s then frames (s_lastDetectionTime s) rest else [])
  end.

(** The frame dispatched a [pitch-update]. *)
Definition updated (s : step) : bool :=
  existsb (fun e => match e with pitch_update _ => true | _ => false end)
          (s_effects s).


(** *** Note names *)

Definition noteNames : list string :=
  ["C"; "C#"; "D"; "D#"; "E"; "F"; "F#"; "G"; "G#"; "A"; "A#"; "B"]%string.

(** [`${x}`] on a whole number. *)
Definition toString (z : Z) : string :=
  DecimalString.NilZero.string_of_int (Z.to_int z).

(** [`${noteNames[i]}`]. *)
Definition noteName (i : Z) : string :=
  if i <? 0 then "undefined"%string
  else nth (Z.to_nat i) noteNames "undefined"%string.

(** Lines 383-385 of [getNoteFromFrequency], from
    [rounded = Math.round(halfSteps)] on, for a finite number of half
    steps (a whole number far below 2^53, on which [%], [+], [/] and
    [Math.floor] are exact): [%] is the remainder of the truncated
    division, [Math.floor(x / 12)] the floored quotient. *)
Definition getNoteFromRounded (rounded : Z) : string :=
  let noteIndex := Z.rem rounded 12 in
  let octave := (rounded + 9) / 12 + 4 in
  (noteName (Z.rem (noteIndex + 12) 12) ++ toString octave)%string.

End Element.

(** ** Facts on binary64 arithmetic

    The kernel's floats are specified by [FloatAxioms] through [Prim2SF];
    what follows is what the program relies on: NaN is absorbing, a
    comparison with NaN is false, and two numbers are always comparable. *)

Module FloatFacts.

Open Scope float_scope.

Lemma Prim2SF_nan (x : float) : Prim2SF x = S754_nan -> x = nan.
Proof. intro H. apply Prim2SF_inj. rewrite H. reflexivity. Qed.

Lemma not_nan_SF (x : float) : x <> nan -> Prim2SF x <> S754_nan.
Proof. intros H E. apply H, Prim2SF_nan, E. Qed.

Lemma add_nan_l (x : float) : nan + x = nan.
Proof. apply Prim2SF_inj. rewrite add_spec. reflexivity. Qed.

Lemma add_nan_r (x : float) : x + nan = nan.
Proof.
  apply Prim2SF_inj. rewrite add_spec.
  change (Prim2SF nan) with S754_nan.
  destruct (Prim2SF x); reflexivity.
Qed.

Lemma sub_nan_l (x : float) : nan - x = nan.
Proof. apply Prim2SF_inj. rewrite sub_spec. reflexivity. Qed.

Lemma sub_nan_r (x : float) : x - nan = nan.
Proof.
  apply Prim2SF_inj. rewrite sub_spec.
  change (Prim2SF nan) with S754_nan.
  destruct (Prim2SF x); reflexivity.
Qed.

Lemma div_nan_l (x : float) : nan / x = nan.
Proof. apply Prim2SF_inj. rewrite div_spec. reflexivity. Qed.

Lemma abs_nan (x : float) : abs x = nan -> x = nan.
Proof.
  intro H. apply Prim2SF_nan.
  apply (f_equal Prim2SF) in H. rewrite abs_spec in H.
  change (Prim2SF nan) with S754_nan in H.
  destruct (Prim2SF x); simpl in H; try discriminate; reflexivity.
Qed.

Lemma ltb_nan_l (x : float) : (nan <? x) = false.
Proof. rewrite ltb_spec. reflexivity. Qed.

Lemma ltb_nan_r (x : float) : (x <? nan) = false.
Proof.
  rewrite ltb_spec. change (Prim2SF nan) with S754_nan.
  unfold SFltb. destruct (Prim2SF x); reflexivity.
Qed.

Lemma ltb_true_not_nan (x y : float) : (x <? y) = true -> x <> nan /\ y <> nan.
Proof.
  intro H; split; intro E; subst.
  - rewrite ltb_nan_l in H; discriminate.
  - rewrite ltb_nan_r in H; discriminate.
Qed.

Lemma SFcompare_antisym (x y : spec_float) :
  SFcompare y x = option_map CompOpp (SFcompare x y).
Proof.
  destruct x as [sx|sx| |sx mx ex], y as [sy|sy| |sy my ey]; simpl;
    try reflexivity;
    try (destruct sx; reflexivity);
    try (destruct sy; reflexivity);
    try (destruct sx, sy; reflexivity).
  destruct sx, sy; try reflexivity;
    rewrite (Z.compare_antisym ey ex);
    destruct (ey ?= ex)%Z; simpl; try reflexivity;
    rewrite (Pos.compare_cont_antisym mx my Eq); reflexivity.
Qed.

Lemma SFcompare_total (x y : spec_float) :
  x <> S754_nan -> y <> S754_nan -> exists c, SFcompare x y = Some c.
Proof.
  intros Hx Hy.
  destruct x as [sx|sx| |sx mx ex], y as [sy|sy| |sy my ey]; simpl;
    try congruence; eexists; reflexivity.
Qed.

(** Two numbers are comparable: [x < y] false means [y <= x]. *)
Lemma not_ltb_leb (x y : float) :
  x <> nan -> y <> nan -> (x <? y) = false -> (y <=? x) = true.
Proof.
  intros Hx Hy H.
  rewrite ltb_spec in H. rewrite leb_spec.
  unfold SFltb in H. unfold SFleb.
  rewrite SFcompare_antisym.
  destruct (SFcompare_total _ _ (not_nan_SF _ Hx) (not_nan_SF _ Hy)) as [c Hc].
  rewrite Hc in *. destruct c; simpl; try reflexivity; discriminate.
Qed.

Lemma leb_not_ltb (x y : float) : (y <=? x) = true -> (x <? y) = false.
Proof.
  rewrite ltb_spec, leb_spec. unfold SFltb, SFleb.
  rewrite (SFcompare_antisym (Prim2SF x) (Prim2SF y)).
  destruct (SFcompare (Prim2SF x) (Prim2SF y)) as [[]|]; simpl; congruence.
Qed.

Lemma truthy_nan : JS.truthy nan = false.
Proof. reflexivity. Qed.

Lemma SFcompare_refl (x : spec_float) : x <> S754_nan -> SFcompare x x = Some Eq.
Proof.
  intro H. destruct x as [s|s| |s m e]; simpl; try congruence.
  - destruct s; reflexivity.
  - destruct s; rewrite Z.compare_refl, Pos.compare_cont_refl; reflexivity.
Qed.

(** A number that is not NaN equals itself: [is_nan] recognises NaN. *)
Lemma nan_or_number (x : float) : x = nan \/ x <> nan.
Proof.
  destruct (is_nan x) eqn:E.
  - left. unfold is_nan in E. apply negb_true_iff in E.
    rewrite eqb_spec in E. unfold SFeqb in E.
    apply Prim2SF_nan.
    destruct (Prim2SF x) as [s|s| |s m e] eqn:Ex; try reflexivity;
      rewrite SFcompare_refl in E by discriminate; discriminate.
  - right. intro H. subst x. discriminate.
Qed.

End FloatFacts.

(** ** Binary64 rounding between bounds

    The operations of [SpecFloat] round to nearest.  Values are kept as
    integers, scaled by [2^1074] (the smallest exponent of the format is
    -1074), and the one fact the tracker needs is proved from the
    definitions: the rounded result of an addition or a division stays
    within any two bounds that are whole numbers below [2^53]. *)

Module Binary64Facts.

Import Binary64.

Lemma pw_pos (e : Z) : -1074 <= e -> 0 < pw e.
Proof. intro H. unfold pw. apply Z.pow_pos_nonneg; lia. Qed.

Lemma pw_add (e k : Z) : -1074 <= e -> 0 <= k -> pw (e + k) = pw e * 2 ^ k.
Proof.
  intros He Hk. unfold pw.
  replace (e + k + 1074) with ((e + 1074) + k) by lia.
  apply Z.pow_add_r; lia.
Qed.

Lemma U_pw (e : Z) : -1074 <= e <= 0 -> U = pw e * 2 ^ (- e).
Proof.
  intros He. unfold U. rewrite <- pw_add by lia. f_equal. lia.
Qed.

Lemma pow2_pos (k : Z) : 0 <= k -> 0 < 2 ^ k.
Proof. intro. apply Z.pow_pos_nonneg; lia. Qed.

Lemma digits2_bounds (m : positive) :
  2 ^ (Zpos (digits2_pos m) - 1) <= Zpos m < 2 ^ Zpos (digits2_pos m).
Proof.
  induction m as [p IH|p IH|]; simpl digits2_pos.
  - rewrite Pos2Z.inj_succ.
    replace (Z.succ (Zpos (digits2_pos p)) - 1) with (Z.succ (Zpos (digits2_pos p) - 1)) by lia.
    rewrite !Z.pow_succ_r by lia. lia.
  - rewrite Pos2Z.inj_succ.
    replace (Z.succ (Zpos (digits2_pos p)) - 1) with (Z.succ (Zpos (digits2_pos p) - 1)) by lia.
    rewrite !Z.pow_succ_r by lia. lia.
  - simpl. lia.
Qed.

Lemma Zdigits2_bounds (m : Z) :
  0 < m -> 2 ^ (Zdigits2 m - 1) <= m < 2 ^ Zdigits2 m.
Proof.
  destruct m as [|p|p]; try lia. intros _. apply digits2_bounds.
Qed.

Lemma Zdigits2_nonneg (m : Z) : 0 <= Zdigits2 m.
Proof. destruct m; simpl; lia. Qed.

(** A positive integer below [2^k] has at most [k] digits. *)
Lemma Zdigits2_le (m k : Z) : 0 <= k -> 0 <= m < 2 ^ k -> Zdigits2 m <= k.
Proof.
  intros Hk Hm.
  destruct (Z.eq_dec m 0) as [->|Hne]; [simpl; lia|].
  destruct (Zdigits2_bounds m) as [Hlo _]; [lia|].
  destruct (Z.le_gt_cases (Zdigits2 m) k) as [H|H]; [exact H|exfalso].
  assert (2 ^ k <= 2 ^ (Zdigits2 m - 1)) by (apply Z.pow_le_mono_r; lia).
  lia.
Qed.

(** *** Shifting right with a round and a sticky bit *)

Lemma iter_pos_nat {A : Type} (f : A -> A) (p : positive) :
  forall x, iter_pos f p x = Nat.iter (Pos.to_nat p) f x.
Proof.
  induction p as [p IH|p IH|]; intro x; simpl iter_pos.
  - rewrite !IH. rewrite Pos2Nat.inj_xI.
    replace (S (2 * Pos.to_nat p)) with (Pos.to_nat p + (Pos.to_nat p + 1))%nat by lia.
    rewrite !Nat.iter_add. simpl. reflexivity.
  - rewrite !IH. rewrite Pos2Nat.inj_xO.
    replace (2 * Pos.to_nat p)%nat with (Pos.to_nat p + Pos.to_nat p)%nat by lia.
    rewrite Nat.iter_add. reflexivity.
  - reflexivity.
Qed.

Lemma loc_exact (r : shr_record) : loc_of_shr_record r = loc_Exact <-> exact r.
Proof.
  unfold exact. destruct r as [m [] []]; simpl; split; intros H;
    try discriminate; try reflexivity; try (split; reflexivity);
    destruct H; discriminate.
Qed.

Lemma shr_1_spec (r : shr_record) :
  0 <= shr_m r ->
  shr_m (shr_1 r) = shr_m r / 2 /\
  (exact (shr_1 r) <-> exact r /\ shr_m r mod 2 = 0).
Proof.
  unfold exact.
  destruct r as [m rb sb]. simpl shr_m. intro Hm.
  destruct m as [|[p|p|]|p]; try lia; simpl shr_1; simpl shr_m; simpl shr_r; simpl shr_s.
  - split; [reflexivity|]. rewrite orb_false_iff. intuition.
  - split.
    + rewrite Pos2Z.inj_xI. apply Z.div_unique with (r := 1); lia.
    + rewrite Pos2Z.inj_xI.
      replace ((2 * Zpos p + 1) mod 2) with 1
        by (apply Z.mod_unique with (q := Zpos p); lia).
      rewrite orb_false_iff. intuition; discriminate.
  - split.
    + rewrite Pos2Z.inj_xO. apply Z.div_unique with (r := 0); lia.
    + rewrite Pos2Z.inj_xO.
      replace ((2 * Zpos p) mod 2) with 0
        by (apply Z.mod_unique with (q := Zpos p); lia).
      rewrite orb_false_iff. intuition.
  - split; [reflexivity|].
    rewrite orb_false_iff. intuition; discriminate.
Qed.

Lemma shr_nat_spec (k : nat) :
  forall r,
    0 <= shr_m r ->
    shr_m (Nat.iter k shr_1 r) = shr_m r / 2 ^ Z.of_nat k /\
    (exact (Nat.iter k shr_1 r) <-> exact r /\ shr_m r mod 2 ^ Z.of_nat k = 0).
Proof.
  induction k as [|k IH]; intros r Hm.
  - simpl Nat.iter. change (2 ^ Z.of_nat 0) with 1.
    rewrite Z.div_1_r, Z.mod_1_r. intuition.
  - rewrite Nat.iter_succ.
    destruct (IH r Hm) as [IHm IHe].
    assert (Hpos : 0 < 2 ^ Z.of_nat k) by (apply pow2_pos; lia).
    assert (Hq : 0 <= shr_m (Nat.iter k shr_1 r))
      by (rewrite IHm; apply Z.div_pos; lia).
    destruct (shr_1_spec _ Hq) as [Sm Se].
    rewrite Nat2Z.inj_succ, Z.pow_succ_r by lia.
    split.
    + rewrite Sm, IHm. rewrite Z.div_div by lia. f_equal. lia.
    + rewrite Se, IHe, IHm.
      pose proof (Z.div_mod (shr_m r) (2 ^ Z.of_nat k) ltac:(lia)) as D1.
      pose proof (Z.mod_pos_bound (shr_m r) (2 ^ Z.of_nat k) Hpos) as B1.
      set (q := shr_m r / 2 ^ Z.of_nat k) in *.
      pose proof (Z.div_mod q 2 ltac:(lia)) as D2.
      pose proof (Z.mod_pos_bound q 2 ltac:(lia)) as B2.
      split.
      * intros [[He H1] H2]. split; [exact He|].
        symmetry. apply Z.mod_unique with (q := q / 2); nia.
      * intros [He H]. 
        pose proof (Z.div_mod (shr_m r) (2 * 2 ^ Z.of_nat k) ltac:(lia)) as D3.
        rewrite H in D3.
        assert (M1 : shr_m r mod 2 ^ Z.of_nat k = 0).
        { symmetry. apply Z.mod_unique with (q := 2 * (shr_m r / (2 * 2 ^ Z.of_nat k))); nia. }
        split; [split; [exact He|exact M1]|].
        rewrite M1 in D1.
        symmetry. apply Z.mod_unique with (q := shr_m r / (2 * 2 ^ Z.of_nat k)); try lia.
        nia.
Qed.

Lemma shr_record_of_loc_m (m : Z) (l : location) : shr_m (shr_record_of_loc m l) = m.
Proof. destruct l as [|[]]; reflexivity. Qed.

Lemma shr_record_of_loc_exact (m : Z) (l : location) :
  exact (shr_record_of_loc m l) <-> l = loc_Exact.
Proof.
  unfold exact. destruct l as [|[]]; simpl; split; intro H;
    try reflexivity; try discriminate; try (split; reflexivity);
    destruct H; discriminate.
Qed.

Lemma shr_spec (m e n : Z) (l : location) :
  0 <= m ->
  exists r,
    shr (shr_record_of_loc m l) e n = (r, e + Z.max n 0) /\
    shr_m r = m / 2 ^ Z.max n 0 /\
    (loc_of_shr_record r = loc_Exact <-> l = loc_Exact /\ m mod 2 ^ Z.max n 0 = 0).
Proof.
  intro Hm. unfold shr.
  destruct n as [|p|p].
  - exists (shr_record_of_loc m l). rewrite Z.max_r by lia.
    change (2 ^ 0) with 1. rewrite Z.div_1_r, Z.mod_1_r, Z.add_0_r.
    rewrite shr_record_of_loc_m, loc_exact, shr_record_of_loc_exact. intuition.
  - exists (iter_pos shr_1 p (shr_record_of_loc m l)).
    rewrite Z.max_l by lia. split; [reflexivity|].
    rewrite iter_pos_nat.
    destruct (shr_nat_spec (Pos.to_nat p) (shr_record_of_loc m l)) as [H1 H2].
    { rewrite shr_record_of_loc_m. exact Hm. }
    rewrite positive_nat_Z, shr_record_of_loc_m in *.
    split; [exact H1|].
    rewrite loc_exact, H2, shr_record_of_loc_exact. reflexivity.
  - exists (shr_record_of_loc m l). rewrite Z.max_r by lia.
    change (2 ^ 0) with 1. rewrite Z.div_1_r, Z.mod_1_r, Z.add_0_r.
    rewrite shr_record_of_loc_m, loc_exact, shr_record_of_loc_exact. intuition.
Qed.

Lemma round_nearest_even_bounds (m : Z) (l : location) :
  m <= round_nearest_even m l <= m + 1 /\
  (l = loc_Exact -> round_nearest_even m l = m).
Proof.
  unfold round_nearest_even.
  destruct l as [|[]]; try (split; [lia|]; intro; try reflexivity; discriminate).
  destruct (Z.even m); split; try lia; intro; discriminate.
Qed.

(** A number below [2^53] has its digits and exponent add up to at most 53. *)
Lemma mag_le (m e : Z) :
  0 < m -> -1074 <= e -> m * pw e < 2 ^ 53 * U -> Zdigits2 m + e <= 53.
Proof.
  intros Hm He H.
  destruct (Zdigits2_bounds m Hm) as [Hlo _].
  pose proof (Zdigits2_nonneg m) as Hd.
  assert (Hd1 : 1 <= Zdigits2 m) by (destruct m; simpl in *; lia).
  assert (Hlt : 2 ^ (Zdigits2 m - 1) * pw e < 2 ^ 53 * U).
  { eapply Z.le_lt_trans; [|exact H].
    apply Z.mul_le_mono_nonneg_r; [apply Z.lt_le_incl, pw_pos; lia|exact Hlo]. }
  unfold U, pw in Hlt.
  rewrite <- !Z.pow_add_r in Hlt by lia.
  apply Z.pow_lt_mono_r_iff in Hlt; lia.
Qed.

Lemma fexp_le0 (m e : Z) :
  0 < m -> -1074 <= e <= 0 -> m * pw e < 2 ^ 53 * U ->
  -1074 <= fexp prec emax (Zdigits2 m + e) <= 0.
Proof.
  intros Hm He H. pose proof (mag_le m e Hm ltac:(lia) H).
  unfold fexp, SpecFloat.emin, prec, emax. lia.
Qed.

Lemma grid_le (A G q t : Z) : 0 < G -> A = t * G -> A < (q + 1) * G -> A <= q * G.
Proof. intros HG -> H. assert (t < q + 1) by nia. nia. Qed.

Lemma grid_ge (B G q t : Z) : 0 < G -> B = t * G -> q * G < B -> (q + 1) * G <= B.
Proof. intros HG -> H. assert (q < t) by nia. nia. Qed.

(** A multiple of the unit is a multiple of every finer grid. *)
Lemma grid_U (A e : Z) : (U | A) -> -1074 <= e <= 0 -> exists t, A = t * pw e.
Proof.
  intros [a ->] He. exists (a * 2 ^ (- e)).
  rewrite (U_pw e He). ring.
Qed.

Lemma div_floor (m k : Z) :
  0 <= m -> 0 <= k ->
  (m / 2 ^ k) * 2 ^ k <= m < (m / 2 ^ k + 1) * 2 ^ k /\
  (m mod 2 ^ k = 0 -> m = (m / 2 ^ k) * 2 ^ k) /\
  (m mod 2 ^ k <> 0 -> (m / 2 ^ k) * 2 ^ k < m).
Proof.
  intros Hm Hk.
  assert (Hp : 0 < 2 ^ k) by (apply pow2_pos; lia).
  pose proof (Z.div_mod m (2 ^ k) ltac:(lia)) as D.
  pose proof (Z.mod_pos_bound m (2 ^ k) Hp) as Bd.
  repeat split; try nia.
Qed.

Lemma mul_floor_le (q p m G B : Z) :
  0 < G -> q * p <= m -> m * G <= B -> q * (G * p) <= B.
Proof. intros HG H1 H2. replace (q * (G * p)) with ((q * p) * G) by ring. nia. Qed.

Lemma mul_floor_lt (q p m G B : Z) :
  0 < G -> q * p <= m -> m * G < B -> q * (G * p) < B.
Proof. intros HG H1 H2. replace (q * (G * p)) with ((q * p) * G) by ring. nia. Qed.

Lemma mul_floor_lt' (q p m G B : Z) :
  0 < G -> q * p < m -> m * G <= B -> q * (G * p) < B.
Proof. intros HG H1 H2. replace (q * (G * p)) with ((q * p) * G) by ring. nia. Qed.

Lemma mul_ceil_lt (A m q p G : Z) :
  0 < G -> A < (m + 1) * G -> m < (q + 1) * p -> A < (q + 1) * (G * p).
Proof.
  intros HG H1 H2. replace ((q + 1) * (G * p)) with (((q + 1) * p) * G) by ring.
  assert ((m + 1) * G <= (q + 1) * p * G) by nia. lia.
Qed.

Lemma mul_pos_inv (A q G : Z) : 0 < A -> 0 < G -> A <= q * G -> 0 < q.
Proof. intros. nia. Qed.

Lemma mul_mono_le (a b G B : Z) : 0 < G -> a <= b -> b * G <= B -> a * G <= B.
Proof. intros. nia. Qed.

Lemma mul_mono_lt (A a b G : Z) : 0 < G -> a <= b -> A < (a + 1) * G -> A < (b + 1) * G.
Proof. intros. nia. Qed.

(** Rounding to nearest stays within any two bounds that are themselves
    multiples of the unit: the heart of the monotonicity of binary64
    operations.  [mx * 2^ex] is the candidate, [lx] says whether the exact
    value is the candidate or lies strictly between it and the next one. *)
Lemma round_bounds (mx ex : Z) (lx : location) (A B : Z) :
  0 < mx -> -1074 <= ex <= 0 ->
  (U | A) -> (U | B) -> 0 < A -> B < 2 ^ 53 * U ->
  A < (mx + 1) * pw ex ->
  (mx * pw ex < B \/ (lx = loc_Exact /\ mx * pw ex <= B)) ->
  exists m e,
    binary_round_aux prec emax false mx ex lx = S754_finite false m e /\
    A <= V m e <= B /\ -1074 <= e <= 0.
Proof.
  intros Hmx Hex HA HB HA0 HB53 Hlow Hup.
  assert (HP : 0 < pw ex) by (apply pw_pos; lia).
  assert (HmxB : mx * pw ex <= B) by (destruct Hup as [H|[_ H]]; lia).
  unfold binary_round_aux, shr_fexp.
  (* first shift *)
  pose proof (fexp_le0 mx ex Hmx Hex ltac:(lia)) as Hf1.
  set (n1 := fexp prec emax (Zdigits2 mx + ex) - ex) in *.
  destruct (shr_spec mx ex n1 lx ltac:(lia)) as (r1 & E1 & M1 & L1).
  rewrite E1. cbv beta iota.
  set (k1 := Z.max n1 0) in *.
  assert (Hk1 : 0 <= k1) by (unfold k1; lia).
  assert (He1 : -1074 <= ex + k1 <= 0) by (unfold k1, n1; lia).
  assert (HG1 : pw (ex + k1) = pw ex * 2 ^ k1) by (apply pw_add; lia).
  destruct (div_floor mx k1 ltac:(lia) Hk1) as ([F1 F2] & F3 & F4).
  rewrite <- M1 in F1, F2, F3, F4.
  set (q1 := shr_m r1) in *.
  destruct (round_nearest_even_bounds q1 (loc_of_shr_record r1)) as [R1 R2].
  set (m1 := round_nearest_even q1 (loc_of_shr_record r1)) in *.
  assert (HG1pos : 0 < pw (ex + k1)) by (apply pw_pos; lia).
  destruct (grid_U A (ex + k1) HA He1) as (tA1 & HtA1).
  destruct (grid_U B (ex + k1) HB He1) as (tB1 & HtB1).
  assert (Up1 : m1 * pw (ex + k1) <= B).
  { destruct (loc_of_shr_record r1) eqn:El.
    - destruct L1 as [L1 _]. destruct (L1 eq_refl) as [_ Hmod].
      rewrite (R2 eq_refl), HG1.
      apply (mul_floor_le q1 (2 ^ k1) mx (pw ex) B HP); [|exact HmxB].
      pose proof (F3 Hmod). lia.
    - assert (Hlt : q1 * pw (ex + k1) < B).
      { rewrite HG1. destruct Hup as [H|[Hl H]].
        - apply (mul_floor_lt q1 (2 ^ k1) mx (pw ex) B HP F1 H).
        - assert (Hmod : mx mod 2 ^ k1 <> 0).
          { intro Hmod. destruct L1 as [_ L1].
            specialize (L1 (conj Hl Hmod)). discriminate. }
          apply (mul_floor_lt' q1 (2 ^ k1) mx (pw ex) B HP (F4 Hmod) H). }
      pose proof (grid_ge B _ q1 tB1 HG1pos HtB1 Hlt) as Hge.
      apply (mul_mono_le m1 (q1 + 1) _ B HG1pos); [lia|exact Hge]. }
  assert (Low1 : A < (m1 + 1) * pw (ex + k1)).
  { apply (mul_mono_lt A q1 m1 _ HG1pos); [lia|].
    rewrite HG1. apply (mul_ceil_lt A mx q1 (2 ^ k1) (pw ex) HP Hlow F2). }
  assert (Hm1 : 0 < m1).
  { pose proof (grid_le A _ m1 tA1 HG1pos HtA1 Low1) as H.
    apply (mul_pos_inv A m1 _ HA0 HG1pos H). }
  clear F1 F2 F3 F4 L1 R1 R2 HtA1 HtB1 tA1 tB1 Hlow Hup HmxB.
  (* second shift *)
  pose proof (fexp_le0 m1 (ex + k1) Hm1 He1 ltac:(lia)) as Hf2.
  set (n2 := fexp prec emax (Zdigits2 m1 + (ex + k1)) - (ex + k1)) in *.
  destruct (shr_spec m1 (ex + k1) n2 loc_Exact ltac:(lia)) as (r2 & E2 & M2 & _).
  rewrite E2. cbv beta iota.
  set (k2 := Z.max n2 0) in *.
  assert (Hk2 : 0 <= k2) by (unfold k2; lia).
  assert (He2 : -1074 <= ex + k1 + k2 <= 0) by (unfold k2, n2; lia).
  assert (HG2 : pw (ex + k1 + k2) = pw (ex + k1) * 2 ^ k2) by (apply pw_add; lia).
  destruct (div_floor m1 k2 ltac:(lia) Hk2) as ([F5 F6] & _).
  rewrite <- M2 in F5, F6.
  set (q2 := shr_m r2) in *.
  assert (HG2pos : 0 < pw (ex + k1 + k2)) by (apply pw_pos; lia).
  destruct (grid_U A (ex + k1 + k2) HA He2) as (tA2 & HtA2).
  assert (Low2 : A < (q2 + 1) * pw (ex + k1 + k2)).
  { rewrite HG2. apply (mul_ceil_lt A m1 q2 (2 ^ k2) _ HG1pos Low1 F6). }
  assert (LowF : A <= q2 * pw (ex + k1 + k2))
    by (apply (grid_le A _ q2 tA2); assumption).
  assert (UpF : q2 * pw (ex + k1 + k2) <= B).
  { rewrite HG2. apply (mul_floor_le q2 (2 ^ k2) m1 _ B HG1pos F5 Up1). }
  assert (Hq2 : 0 < q2) by (apply (mul_pos_inv A q2 _ HA0 HG2pos LowF)).
  destruct q2 as [|m|m] eqn:Eq2; try lia.
  assert (Hleb : (ex + k1 + k2 <=? emax - prec) = true)
    by (apply Z.leb_le; unfold emax, prec; lia).
  rewrite Hleb.
  exists m, (ex + k1 + k2). split; [reflexivity|]. split; [|exact He2].
  unfold V. lia.
Qed.

(** *** Valid numbers and their order *)

Lemma valid_canonical (s : bool) (m : positive) (e : Z) :
  valid_binary (S754_finite s m e) = true ->
  e = Z.max (Zpos (digits2_pos m) + e - 53) (-1074) /\ e <= 971.
Proof.
  unfold SpecFloat.valid_binary, bounded, canonical_mantissa, fexp, SpecFloat.emin, prec, emax.
  intro H. apply andb_true_iff in H. destruct H as [H1 H2].
  apply Z.eqb_eq in H1. apply Z.leb_le in H2. lia.
Qed.

Lemma pw_mono (e1 e2 : Z) : -1074 <= e1 -> e1 < e2 -> 2 * pw e1 <= pw e2.
Proof.
  intros H1 H2.
  replace e2 with (e1 + (e2 - e1)) by lia.
  rewrite pw_add by lia.
  assert (2 ^ 1 <= 2 ^ (e2 - e1)) by (apply Z.pow_le_mono_r; lia).
  pose proof (pw_pos e1 H1). change (2 ^ 1) with 2 in *. nia.
Qed.

Lemma canonical_lt (m1 m2 : positive) (e1 e2 : Z) :
  valid_binary (S754_finite false m1 e1) = true ->
  valid_binary (S754_finite false m2 e2) = true ->
  e1 < e2 -> V m1 e1 < V m2 e2.
Proof.
  intros H1 H2 Hlt.
  apply valid_canonical in H1, H2.
  destruct (digits2_bounds m1) as [_ Hhi].
  destruct (digits2_bounds m2) as [Hlo _].
  assert (D1 : Zpos (digits2_pos m1) <= 53) by lia.
  assert (D2 : Zpos (digits2_pos m2) = 53) by lia.
  rewrite D2 in Hlo. change (2 ^ (53 - 1)) with 4503599627370496 in Hlo.
  assert (Hm1 : Zpos m1 < 9007199254740992).
  { eapply Z.lt_le_trans; [exact Hhi|].
    change 9007199254740992 with (2 ^ 53). apply Z.pow_le_mono_r; lia. }
  pose proof (pw_mono e1 e2 ltac:(lia) Hlt) as Hp.
  pose proof (pw_pos e1 ltac:(lia)) as Hp1.
  unfold V. nia.
Qed.

Lemma SFcompare_V (m1 m2 : positive) (e1 e2 : Z) :
  valid_binary (S754_finite false m1 e1) = true ->
  valid_binary (S754_finite false m2 e2) = true ->
  SFcompare (S754_finite false m1 e1) (S754_finite false m2 e2)
  = Some (V m1 e1 ?= V m2 e2).
Proof.
  intros H1 H2. simpl. f_equal.
  destruct (Z.compare_spec e1 e2) as [E|L|G].
  - subst e2. unfold V.
    pose proof (pw_pos e1 ltac:(apply valid_canonical in H1; lia)) as Hp.
    change (Pos.compare_cont Eq m1 m2) with (Zpos m1 ?= Zpos m2).
    destruct (Z.compare_spec (Zpos m1) (Zpos m2));
      destruct (Z.compare_spec (Zpos m1 * pw e1) (Zpos m2 * pw e1));
      try reflexivity; exfalso; nia.
  - symmetry. apply Z.compare_lt_iff. apply canonical_lt; assumption.
  - symmetry. apply Z.compare_gt_iff. apply canonical_lt; assumption.
Qed.

Lemma SFleb_V (m1 m2 : positive) (e1 e2 : Z) :
  valid_binary (S754_finite false m1 e1) = true ->
  valid_binary (S754_finite false m2 e2) = true ->
  SFleb (S754_finite false m1 e1) (S754_finite false m2 e2) = true <->
  V m1 e1 <= V m2 e2.
Proof.
  intros H1 H2. unfold SFleb. rewrite (SFcompare_V _ _ _ _ H1 H2).
  destruct (Z.compare_spec (V m1 e1) (V m2 e2)); split; intro; try lia;
    try reflexivity; discriminate.
Qed.

(** A valid number below [2^53] has a non-positive exponent. *)
Lemma valid_exp (s : bool) (m : positive) (e : Z) :
  valid_binary (S754_finite s m e) = true ->
  V m e < 2 ^ 53 * U ->
  -1074 <= e <= 0.
Proof.
  intros Hv Hlt. apply valid_canonical in Hv.
  split; [lia|].
  destruct (Z.le_gt_cases e 0) as [H|H]; [exact H|exfalso].
  destruct (digits2_bounds m) as [Hlo _].
  assert (D : Zpos (digits2_pos m) = 53) by lia.
  rewrite D in Hlo. change (2 ^ (53 - 1)) with 4503599627370496 in Hlo.
  pose proof (pw_mono 0 e ltac:(lia) ltac:(lia)) as Hp.
  fold U in Hp. unfold V in Hlt.
  assert (0 < U) by (apply pw_pos; lia).
  change (2 ^ 53) with 9007199254740992 in Hlt. nia.
Qed.

(** *** Addition *)

Lemma iter_xO (m d : positive) : Zpos (Pos.iter xO m d) = Zpos m * 2 ^ Zpos d.
Proof.
  apply (Pos.iter_ind _ xO m (fun d r => Zpos r = Zpos m * 2 ^ Zpos d)).
  - rewrite Pos2Z.inj_xO. change (2 ^ 1) with 2. lia.
  - intros p a IH. rewrite Pos2Z.inj_xO, IH, Pos2Z.inj_succ, Z.pow_succ_r by lia. ring.
Qed.

Lemma shl_align_spec (m : positive) (e t : Z) :
  exists m',
    shl_align m e t = (m', Z.min e t) /\
    Zpos m' = Zpos m * 2 ^ (e - Z.min e t).
Proof.
  unfold shl_align.
  destruct (t - e) as [|d|d] eqn:E.
  - exists m. rewrite Z.min_l by lia. rewrite Z.sub_diag. split; [reflexivity|]. simpl; lia.
  - exists m. rewrite Z.min_l by lia. rewrite Z.sub_diag. split; [reflexivity|]. simpl; lia.
  - exists (Pos.iter xO m d). rewrite Z.min_r by lia. split; [reflexivity|].
    rewrite iter_xO. f_equal. f_equal. lia.
Qed.

Lemma V_shift (m : positive) (e e' : Z) :
  -1074 <= e' <= e -> Zpos m * 2 ^ (e - e') * pw e' = V m e.
Proof.
  intros H. unfold V.
  replace (pw e) with (pw (e' + (e - e'))) by (f_equal; lia).
  rewrite pw_add by lia. ring.
Qed.

Lemma binary_round_bounds (M : positive) (ez A B : Z) :
  -1074 <= ez <= 0 ->
  (U | A) -> (U | B) -> 0 < A -> B < 2 ^ 53 * U ->
  A <= V M ez <= B ->
  exists m e,
    binary_round prec emax false M ez = S754_finite false m e /\
    A <= V m e <= B.
Proof.
  intros Hez HA HB HA0 HB53 HV.
  unfold binary_round.
  destruct (shl_align_spec M ez (fexp prec emax (Zpos (digits2_pos M) + ez)))
    as (mz & E & Hmz).
  rewrite E.
  set (e' := Z.min ez (fexp prec emax (Zpos (digits2_pos M) + ez))) in *.
  assert (He' : -1074 <= e' <= ez)
    by (unfold e', fexp, SpecFloat.emin, prec, emax; lia).
  assert (HT : Zpos mz * pw e' = V M ez) by (rewrite Hmz; apply V_shift; lia).
  assert (Hp : 0 < pw e') by (apply pw_pos; lia).
  destruct (round_bounds (Zpos mz) e' loc_Exact A B) as (m & e & R & Hb & _);
    try assumption; try lia.
  - right. split; [reflexivity|lia].
  - exists m, e. split; assumption.
Qed.

Lemma SFadd_bounds (mx my : positive) (ex ey A B : Z) :
  -1074 <= ex <= 0 -> -1074 <= ey <= 0 ->
  (U | A) -> (U | B) -> 0 < A -> B < 2 ^ 53 * U ->
  A <= V mx ex + V my ey <= B ->
  exists m e,
    SF64add (S754_finite false mx ex) (S754_finite false my ey)
    = S754_finite false m e /\
    A <= V m e <= B.
Proof.
  intros Hex Hey HA HB HA0 HB53 HV.
  unfold SF64add, SFadd. cbv zeta.
  set (ez := Z.min ex ey).
  destruct (shl_align_spec mx ex ez) as (mx' & Ex & Hmx).
  destruct (shl_align_spec my ey ez) as (my' & Ey & Hmy).
  rewrite Ex, Ey. simpl fst. simpl cond_Zopp.
  change (Zpos mx' + Zpos my') with (Zpos (mx' + my')).
  unfold binary_normalize.
  apply binary_round_bounds; try assumption; try (unfold ez; lia).
  replace (Z.min ex ez) with ez in Hmx by (unfold ez; lia).
  replace (Z.min ey ez) with ez in Hmy by (unfold ez; lia).
  assert (Hx : Zpos mx' * pw ez = V mx ex) by (rewrite Hmx; apply V_shift; unfold ez; lia).
  assert (Hy : Zpos my' * pw ez = V my ey) by (rewrite Hmy; apply V_shift; unfold ez; lia).
  assert (E : V (mx' + my') ez = V mx ex + V my ey)
    by (unfold V at 1; rewrite Pos2Z.inj_add; lia).
  rewrite E. exact HV.
Qed.

(** *** Division *)

Lemma pw_mul (a b : Z) :
  -1074 <= a -> -1074 <= b -> -1074 <= a - b -> pw (a - b) * pw b = pw a * U.
Proof.
  intros Ha Hb Hab. unfold U, pw.
  rewrite <- !Z.pow_add_r by lia. f_equal. lia.
Qed.

Lemma div_cross_lower (A q r my P pe X : Z) :
  0 < my -> 0 < P -> 0 < pe -> 0 <= r < my ->
  X = (my * q + r) * P * pe ->
  A * (my * pe) <= X ->
  A < (q + 1) * P.
Proof.
  intros Hmy HP Hpe Hr -> H.
  assert (H1 : A * my <= (my * q + r) * P) by nia.
  assert (H2 : (my * q + r) * P < my * ((q + 1) * P)) by nia.
  nia.
Qed.

Lemma div_cross_upper (B q r my P pe X : Z) :
  0 < my -> 0 < P -> 0 < pe -> 0 <= r < my ->
  X = (my * q + r) * P * pe ->
  X <= B * (my * pe) ->
  q * P <= B /\ (0 < r -> q * P < B).
Proof.
  intros Hmy HP Hpe Hr -> H.
  assert (H1 : (my * q + r) * P <= B * my) by nia.
  split.
  - assert (my * (q * P) <= my * B) by nia. nia.
  - intro Hr0. assert (my * (q * P) < my * B) by nia. nia.
Qed.

Lemma new_location_0 (n : Z) : new_location n 0 = loc_Exact.
Proof.
  unfold new_location, new_location_even, new_location_odd.
  destruct (Z.even n); reflexivity.
Qed.

Lemma SFdiv_bounds (mx my : positive) (ex ey A B : Z) :
  -1074 <= ex -> -1074 <= ey <= 0 ->
  (U | A) -> (U | B) -> 0 < A -> B < 2 ^ 53 * U ->
  A * V my ey <= V mx ex * U ->
  V mx ex * U <= B * V my ey ->
  exists m e,
    SF64div (S754_finite false mx ex) (S754_finite false my ey)
    = S754_finite false m e /\
    A <= V m e <= B.
Proof.
  intros Hex Hey HA HB HA0 HB53 Hlo Hhi.
  assert (HU : 0 < U) by (apply pw_pos; lia).
  assert (Hpx : 0 < pw ex) by (apply pw_pos; lia).
  assert (Hpy : 0 < pw ey) by (apply pw_pos; lia).
  (* the magnitudes are at most 53 binades apart *)
  assert (Hmag : Zpos (digits2_pos mx) + ex - (Zpos (digits2_pos my) + ey) <= 53).
  { destruct (digits2_bounds mx) as [Lx _]. destruct (digits2_bounds my) as [_ Hy].
    assert (H1 : V mx ex * U < 2 ^ 53 * U * V my ey).
    { eapply Z.le_lt_trans; [exact Hhi|].
      apply Z.mul_lt_mono_pos_r; [unfold V; nia|exact HB53]. }
    assert (H2 : 2 ^ (Zpos (digits2_pos mx) - 1) * pw ex * U
                 < 2 ^ 53 * U * (2 ^ Zpos (digits2_pos my) * pw ey)).
    { eapply Z.le_lt_trans; [|eapply Z.lt_le_trans; [exact H1|]].
      - unfold V. apply Z.mul_le_mono_nonneg_r; [lia|].
        apply Z.mul_le_mono_nonneg_r; lia.
      - unfold V. apply Z.mul_le_mono_nonneg_l; [nia|].
        apply Z.mul_le_mono_nonneg_r; lia. }
    unfold U, pw in H2.
    rewrite <- !Z.pow_add_r in H2 by lia.
    apply Z.pow_lt_mono_r_iff in H2; lia. }
  unfold SF64div, SFdiv, SFdiv_core_binary. cbv zeta.
  simpl Zdigits2. simpl xorb.
  set (e' := Z.min (fexp prec emax (Zpos (digits2_pos mx) + ex - (Zpos (digits2_pos my) + ey)))
                   (ex - ey)).
  assert (He' : -1074 <= e' <= 0 /\ e' <= ex - ey)
    by (unfold e', fexp, SpecFloat.emin, prec, emax; lia).
  remember (ex - ey - e') as s eqn:Es.
  assert (Hs : 0 <= s) by lia.
  remember (match s with
            | 0 => Zpos mx
            | Zpos _ => Z.shiftl (Zpos mx) s
            | Zneg _ => 0
            end) as m' eqn:Em'.
  assert (Hm' : m' = Zpos mx * 2 ^ s).
  { rewrite Em'. clear Em' Es. destruct s as [|p|p]; try lia.
    apply Z.shiftl_mul_pow2. lia. }
  clear Em'.
  pose proof (Z_div_mod m' (Zpos my) ltac:(lia)) as D.
  destruct (Z.div_eucl m' (Zpos my)) as [q r]. destruct D as [D Hr].
  assert (HP : 0 < pw e') by (apply pw_pos; lia).
  assert (HX : V mx ex * U = (Zpos my * q + r) * pw e' * pw ey).
  { rewrite <- D, Hm'. unfold V.
    replace (Zpos mx * 2 ^ s * pw e' * pw ey)
      with (Zpos mx * (pw e' * 2 ^ s * pw ey)) by ring.
    rewrite <- pw_add by lia.
    replace (e' + s) with (ex - ey) by lia.
    rewrite pw_mul by lia. ring. }
  pose proof (div_cross_lower A q r (Zpos my) (pw e') (pw ey) _
                ltac:(lia) HP Hpy Hr HX Hlo) as Low.
  pose proof (div_cross_upper B q r (Zpos my) (pw e') (pw ey) _
                ltac:(lia) HP Hpy Hr HX Hhi) as [Up Up'].
  assert (Hq : 0 < q).
  { destruct (grid_U A e' HA ltac:(lia)) as (t & Ht).
    pose proof (grid_le A (pw e') q t HP Ht Low). nia. }
  destruct (round_bounds q e' (new_location (Zpos my) r) A B) as (m & e & R & Hb & _);
    try assumption; try lia.
  - destruct (Z.eq_dec r 0) as [->|Hne].
    + right. split; [apply new_location_0|exact Up].
    + left. apply Up'. lia.
  - exists m, e. split; assumption.
Qed.

End Binary64Facts.

(** ** Array reads *)

Lemma get_bounds (a : list float) (i : Z) (x : float) :
  JS.get a i = Some x -> 0 <= i < Z.of_nat (length a).
Proof.
  unfold JS.get. destruct (Z.ltb_spec i 0) as [Hi|Hi]; [discriminate|].
  intro H.
  assert (Hn : (Z.to_nat i < length a)%nat)
    by (apply nth_error_Some; congruence).
  lia.
Qed.

Lemma get_outside (a : list float) (i : Z) :
  i < 0 \/ Z.of_nat (length a) <= i -> JS.get a i = None.
Proof.
  intros H. unfold JS.get.
  destruct (Z.ltb_spec i 0) as [Hi|Hi]; [reflexivity|].
  apply nth_error_None. lia.
Qed.

Lemma get_inside (a : list float) (i : Z) :
  0 <= i < Z.of_nat (length a) -> exists x, JS.get a i = Some x.
Proof.
  intros H. unfold JS.get.
  destruct (Z.ltb_spec i 0) as [Hi|Hi]; [lia|].
  destruct (nth_error a (Z.to_nat i)) eqn:E; [eauto|].
  apply nth_error_None in E. lia.
Qed.

(** A comparison [x > a[j]] can only hold when [a[j]] exists. *)
Lemma gt_defined (a : list float) (x : float) (j : Z) :
  JS.gt x (JS.ToNumber (JS.get a j)) = true -> 0 <= j < Z.of_nat (length a).
Proof.
  unfold JS.gt. destruct (JS.get a j) eqn:E; simpl.
  - intros _. eapply get_bounds; eassumption.
  - rewrite FloatFacts.ltb_nan_l. discriminate.
Qed.

(** ** The valley-skipping loop terminates *)

Lemma skip_slope_spec (c : list float) :
  forall (fuel : nat) (d : Z),
    0 <= d ->
    (1 <= fuel)%nat ->
    Z.of_nat (length c) <= d + Z.of_nat fuel ->
    exists d',
      skip_slope fuel c d = Ok d' /\
      d <= d' /\
      (d < d' -> d' < Z.of_nat (length c)) /\
      (forall j, d <= j < d' ->
                 JS.gt (JS.ToNumber (JS.get c j)) (JS.ToNumber (JS.get c (j + 1))) = true) /\
      JS.gt (JS.ToNumber (JS.get c d')) (JS.ToNumber (JS.get c (d' + 1))) = false.
Proof.
  induction fuel as [|fuel IH]; intros d Hd Hfuel Hlen; [lia|].
  simpl.
  destruct (JS.gt (JS.ToNumber (JS.get c d)) (JS.ToNumber (JS.get c (d + 1)))) eqn:E.
  - pose proof (gt_defined _ _ _ E) as Hin.
    destruct (IH (d + 1)) as (d' & Hrun & Hle & Hlt & Hdown & Hstop); try lia.
    exists d'. split; [exact Hrun|]. split; [lia|]. split.
    + intros _. destruct (Z.eq_dec d' (d + 1)) as [->|Hne]; [lia|apply Hlt; lia].
    + split; [|exact Hstop].
      intros j Hj. destruct (Z.eq_dec j d) as [->|Hne]; [exact E|apply Hdown; lia].
  - exists d. split; [reflexivity|]. split; [lia|]. split; [lia|].
    split; [intros j Hj; lia|exact E].
Qed.

(** Past the last index the comparison is false: [c[M]] is [undefined]. *)
Lemma gt_last (c : list float) (x : float) :
  JS.gt x (JS.ToNumber (JS.get c (Z.of_nat (length c)))) = false.
Proof.
  rewrite get_outside by lia. apply FloatFacts.ltb_nan_l.
Qed.

(** The estimator always returns: its only [while] loop has fuel enough. *)
Lemma autoCorrelate_total (buffer : list float) (sampleRate : float) :
  exists frequency, autoCorrelate buffer sampleRate = Ok frequency.
Proof.
  unfold autoCorrelate.
  destruct (rms_of buffer <? 0.01)%float; [eauto|].
  destruct (skip_slope_spec (autocorrelation (trim buffer))
              (S (length (autocorrelation (trim buffer)))) 0)
    as (d & Hrun & _); try lia.
  rewrite Hrun. simpl. eauto.
Qed.

(** C10: on a correlation array of length M >= 1 the loop
    [while (c[d] > c[d + 1]) d++], run with any fuel of at least M, returns
    a [d] with 0 <= d <= M - 1.  Every index before [d] is a strict descent,
    [d] is the first index at which the next value does not decrease, and
    when the array decreases throughout the loop stops at M - 1, where the
    comparison with the missing [c[M]] is false.  The fuel [autoCorrelate]
    gives the loop is therefore enough, and [autoCorrelate] returns on every
    buffer. *)
Theorem skip_slope_terminates (c : list float) (fuel : nat) :
  (1 <= length c)%nat ->
  (length c <= fuel)%nat ->
  (exists d,
      skip_slope fuel c 0 = Ok d /\
      0 <= d <= Z.of_nat (length c) - 1 /\
      (forall j, 0 <= j < d ->
                 JS.gt (JS.ToNumber (JS.get c j)) (JS.ToNumber (JS.get c (j + 1)))
                 = true) /\
      JS.gt (JS.ToNumber (JS.get c d)) (JS.ToNumber (JS.get c (d + 1))) = false /\
      ((forall j, 0 <= j < Z.of_nat (length c) - 1 ->
                  JS.gt (JS.ToNumber (JS.get c j)) (JS.ToNumber (JS.get c (j + 1)))
                  = true) ->
       d = Z.of_nat (length c) - 1))
  /\
  (forall (buffer : list float) (sampleRate : float),
      exists frequency, autoCorrelate buffer sampleRate = Ok frequency).
Proof.
  intros HM Hfuel.
  split; [|exact autoCorrelate_total].
  destruct (skip_slope_spec c fuel 0) as (d & Hrun & Hle & Hlt & Hdown & Hstop);
    try lia.
  exists d. split; [exact Hrun|].
  assert (Hd : 0 <= d <= Z.of_nat (length c) - 1).
  { destruct (Z.eq_dec d 0) as [->|Hne]; [lia|].
    assert (d < Z.of_nat (length c)) by (apply Hlt; lia). lia. }
  split; [exact Hd|]. split; [exact Hdown|]. split; [exact Hstop|].
  intros Hall.
  destruct (Z.eq_dec d (Z.of_nat (length c) - 1)) as [E|Hne]; [exact E|].
  rewrite Hall in Hstop by lia. discriminate.
Qed.

Lemma skip_slope_terminates_witness :
  (1 <= length [4; 2; 1]%float)%nat /\
  exists d, skip_slope 3 [4; 2; 1]%float 0 = Ok d /\ d = 2.
Proof.
  split; [simpl; lia|].
  destruct (skip_slope_terminates [4; 2; 1]%float 3) as [(d & H1 & _ & _ & _ & H5) _].
  - simpl; lia.
  - simpl; lia.
  - exists d. split; [exact H1|].
    apply H5. intros j Hj.
    assert (E : j = 0 \/ j = 1) by (simpl in Hj; lia).
    destruct E as [->| ->]; reflexivity.
Defined.

(** ** The peak at a boundary of the correlation array *)

Lemma autoCorrelate_unfold (buffer : list float) (sampleRate : float) :
  autoCorrelate buffer sampleRate =
  if (rms_of buffer <? 0.01)%float then Ok (-1)%float
  else T0 <- T0_of buffer ;; Ok (refine (correlation buffer) sampleRate T0).
Proof.
  unfold autoCorrelate, T0_of, correlation.
  destruct (rms_of buffer <? 0.01)%float; [reflexivity|].
  destruct (skip_slope _ _ _); reflexivity.
Qed.

(** With [c[T0 - 1]] or [c[T0 + 1]] missing, [a] is NaN and line 94 skips
    the refinement. *)
Lemma refine_boundary (c : list float) (sampleRate : float) (T0 : Z) :
  JS.get c (T0 - 1) = None \/ JS.get c (T0 + 1) = None ->
  refine c sampleRate T0 = (sampleRate / JS.of_Z T0)%float.
Proof.
  intros H. unfold refine.
  assert (Ha : ((JS.ToNumber (JS.get c (T0 - 1)) + JS.ToNumber (JS.get c (T0 + 1))
                 - 2 * JS.ToNumber (JS.get c T0)) / 2)%float = nan).
  { destruct H as [H|H]; rewrite H; simpl.
    - rewrite FloatFacts.add_nan_l, FloatFacts.sub_nan_l, FloatFacts.div_nan_l.
      reflexivity.
    - rewrite FloatFacts.add_nan_r, FloatFacts.sub_nan_l, FloatFacts.div_nan_l.
      reflexivity. }
  rewrite Ha. reflexivity.
Qed.

(** A positive number divided by zero is [Infinity]. *)
Lemma div_pos_zero (x : float) : (0 <? x)%float = true -> (x / 0)%float = infinity.
Proof.
  intro H. apply Prim2SF_inj. rewrite div_spec.
  rewrite ltb_spec in H.
  change (Prim2SF 0%float) with (S754_zero false) in *.
  change (Prim2SF infinity) with (S754_infinity false).
  destruct (Prim2SF x) as [s|s| |s m e]; simpl in *;
    try discriminate; destruct s; try discriminate; reflexivity.
Qed.

(** ** Trimming *)

(** The scan loop finds the least index of its half range that hits. *)
Lemma scan_half_spec (SIZE : Z) (hit : Z -> bool) :
  forall (fuel : nat) (i0 : Z),
    SIZE <= 2 * i0 + 2 * Z.of_nat fuel ->
    match scan_half fuel SIZE hit i0 with
    | Some i =>
        i0 <= i /\ 2 * i < SIZE /\ hit i = true /\
        forall j, i0 <= j < i -> hit j = false
    | None => forall j, i0 <= j -> 2 * j < SIZE -> hit j = false
    end.
Proof.
  induction fuel as [|fuel IH]; intros i0 Hfuel; cbn [scan_half].
  - intros j Hj Hlt. exfalso; lia.
  - destruct (Z.ltb_spec (2 * i0) SIZE) as [Hlt|Hge].
    + destruct (hit i0) eqn:Hhit.
      * repeat split; try lia; try assumption.
      * specialize (IH (i0 + 1)).
        destruct (scan_half fuel SIZE hit (i0 + 1)) as [i|].
        -- destruct IH as (H1 & H2 & H3 & H4); [lia|].
           repeat split; try lia; try assumption.
           intros j Hj. destruct (Z.eq_dec j i0) as [->|Hne]; [exact Hhit|].
           apply H4; lia.
        -- intros j Hj Hj2. destruct (Z.eq_dec j i0) as [->|Hne]; [exact Hhit|].
           apply IH; lia.
    + intros j Hj Hj2. exfalso; lia.
Qed.

(** C2, counterexample: in [0.5, 0.5, 0.5, 0.5] no sample is below 0.2, so
    the specification keeps the whole buffer ([right] = 4), while line 38
    starts [r2] at SIZE - 1 = 3 and the last sample is cut. *)
Lemma trim_counterexample :
  (rms_of [0.5; 0.5; 0.5; 0.5]%float <? 0.01)%float = false /\
  spec_right [0.5; 0.5; 0.5; 0.5]%float = 4 /\
  find_r2 [0.5; 0.5; 0.5; 0.5]%float = 3 /\
  trim [0.5; 0.5; 0.5; 0.5]%float = [0.5; 0.5; 0.5]%float /\
  ~ trims_as_specified.
Proof.
  split; [reflexivity|]. split; [reflexivity|]. split; [reflexivity|].
  split; [reflexivity|].
  intro H.
  destruct (H [0.5; 0.5; 0.5; 0.5]%float) as (_ & H2 & _); [reflexivity|].
  vm_compute in H2. discriminate.
Qed.

(** C2, as the code has it.  Both scans visit only the indices [i] with
    [i < SIZE / 2]: [r1] is the least such [i >= 0] with [|buffer[i]| < 0.2],
    and 0 when there is none; [r2] is [SIZE - i] for the least such [i >= 1]
    with [|buffer[SIZE - i]| < 0.2], and SIZE - 1 when there is none.  What
    follows works on the samples [r1 <= k < r2]. *)
Theorem trim_bounds (buffer : list float) :
  let SIZE := Z.of_nat (length buffer) in
  let r1 := find_r1 buffer in
  let r2 := find_r2 buffer in
  ((0 <= r1 /\ 2 * r1 < SIZE /\ below buffer r1 = true /\
    forall j, 0 <= j < r1 -> below buffer j = false)
   \/
   (r1 = 0 /\ forall j, 0 <= j -> 2 * j < SIZE -> below buffer j = false))
  /\
  ((exists i, r2 = SIZE - i /\ 1 <= i /\ 2 * i < SIZE /\
              below buffer (SIZE - i) = true /\
              forall j, 1 <= j < i -> below buffer (SIZE - j) = false)
   \/
   (r2 = SIZE - 1 /\ forall j, 1 <= j -> 2 * j < SIZE -> below buffer (SIZE - j) = false))
  /\
  trim buffer = firstn (Z.to_nat (r2 - r1)) (skipn (Z.to_nat r1) buffer).
Proof.
  intros SIZE r1 r2.
  assert (H1 := scan_half_spec SIZE (fun i => below buffer i) (length buffer) 0).
  assert (H2 := scan_half_spec SIZE (fun i => below buffer (SIZE - i)) (length buffer) 1).
  assert (E1 : r1 = match scan_half (length buffer) SIZE (fun i => below buffer i) 0 with
                    | Some i => i | None => 0 end) by reflexivity.
  assert (E2 : r2 = match scan_half (length buffer) SIZE
                            (fun i => below buffer (SIZE - i)) 1 with
                    | Some i => SIZE - i | None => SIZE - 1 end) by reflexivity.
  assert (B1 : 0 <= r1 <= SIZE).
  { rewrite E1. destruct (scan_half _ _ _ 0); [destruct H1; lia|lia]. }
  assert (B2 : r2 <= SIZE /\ (r2 < 0 -> SIZE = 0)).
  { rewrite E2. destruct (scan_half _ _ _ 1); [destruct H2; lia|lia]. }
  split; [|split].
  - rewrite E1. destruct (scan_half _ _ _ 0) as [i|].
    + left. destruct H1 as (Ha & Hb & Hc & Hd); [lia|]. auto.
    + right. split; [reflexivity|]. apply H1; lia.
  - rewrite E2. destruct (scan_half _ _ _ 1) as [i|].
    + left. exists i. destruct H2 as (Ha & Hb & Hc & Hd); [lia|]. auto.
    + right. split; [reflexivity|]. apply H2; lia.
  - unfold trim, JS.slice. fold SIZE. fold r1. fold r2.
    destruct (Z.ltb_spec r1 0) as [Hn|_]; [lia|].
    rewrite (Z.min_l r1 SIZE) by lia.
    destruct (Z.ltb_spec r2 0) as [Hn|Hp].
    + assert (SIZE = 0) by (apply B2; exact Hn).
      replace (Z.to_nat (Z.max (SIZE + r2) 0 - r1)) with 0%nat by lia.
      replace (Z.to_nat (r2 - r1)) with 0%nat by lia.
      reflexivity.
    + rewrite (Z.min_l r2 SIZE) by lia. reflexivity.
Qed.

(** ** The tracker *)

Lemma track_rejected (this : PitchDetector) (f : float) :
  gate f = true -> track this f = (set_pitchHistory this [], Ok None).
Proof. unfold track, gate. intros ->. reflexivity. Qed.

Lemma track_accepted (this : PitchDetector) (f : float) :
  gate f = false ->
  track this f =
  let h := push_shift (historySize this) (pitchHistory this) f in
  (set_pitchHistory this h,
   if Z.of_nat (length h) <? historySize this then Ok None
   else match h with
        | [] => TypeError
        | x :: xs =>
            let avgFreq := (fold_left add xs x / JS.of_Z (historySize this))%float in
            Ok (if consistent (pitchTolerance this) avgFreq h then Some avgFreq else None)
        end).
Proof.
  unfold track, gate, push_shift, consistent. intros ->. simpl.
  destruct (historySize this <? Z.of_nat (length (pitchHistory this ++ [f])));
    simpl;
    match goal with |- context [if ?b then _ else _] => destruct b end;
    try reflexivity;
    match goal with |- context [match ?l with [] => _ | _ :: _ => _ end] => destruct l end;
    reflexivity.
Qed.

Lemma track_fields (this : PitchDetector) (f : float) :
  sampleRate (fst (track this f)) = sampleRate this /\
  historySize (fst (track this f)) = historySize this /\
  pitchTolerance (fst (track this f)) = pitchTolerance this.
Proof.
  destruct (gate f) eqn:G.
  - rewrite (track_rejected _ _ G). simpl. auto.
  - rewrite (track_accepted _ _ G). simpl. auto.
Qed.

Lemma detectPitch_track (this : PitchDetector) (dataArray : list float) (f : float) :
  autoCorrelate dataArray (sampleRate this) = Ok f ->
  detectPitch this dataArray = track this f.
Proof. unfold detectPitch. intros ->. reflexivity. Qed.

Lemma track_all_fields (raws : list float) :
  forall this,
    sampleRate (fst (track_all this raws)) = sampleRate this /\
    historySize (fst (track_all this raws)) = historySize this /\
    pitchTolerance (fst (track_all this raws)) = pitchTolerance this.
Proof.
  induction raws as [|f rest IH]; intro this; simpl; [auto|].
  destruct (track this f) as [this' r] eqn:E.
  specialize (IH this').
  destruct (track_all this' rest) as [this'' rs]. simpl in *.
  pose proof (track_fields this f) as F. rewrite E in F. simpl in F.
  destruct IH as (-> & -> & ->). exact F.
Qed.

Lemma detectPitch_all_track_all (inputs : list (list float)) (raws : list float) :
  forall this,
    estimates this inputs raws ->
    detectPitch_all this inputs = track_all this raws.
Proof.
  unfold estimates.
  revert raws.
  induction inputs as [|d inputs IH]; intros raws this H; inversion H; subst; simpl.
  - reflexivity.
  - rewrite (detectPitch_track _ _ _ H2).
    destruct (track this y) as [this' r] eqn:E.
    rewrite (IH l'); [reflexivity|].
    pose proof (track_fields this y) as F. rewrite E in F. simpl in F.
    destruct F as (F & _). rewrite F. assumption.
Qed.

Lemma estimates_exist (this : PitchDetector) (inputs : list (list float)) :
  exists raws, estimates this inputs raws.
Proof.
  induction inputs as [|d inputs (raws & IH)].
  - exists []. constructor.
  - destruct (autoCorrelate_total d (sampleRate this)) as (f & Hf).
    exists (f :: raws). constructor; assumption.
Qed.

Lemma push_shift_nonempty (n : Z) (h : list float) (f : float) :
  push_shift n h f = [] -> h = [] /\ n < 1.
Proof.
  unfold push_shift. rewrite length_app. simpl.
  destruct (Z.ltb_spec n (Z.of_nat (length h + 1))) as [Hn|Hn]; intro H.
  - destruct h as [|x h]; simpl in *; [split; [reflexivity|lia]|].
    destruct h; discriminate.
  - destruct h; discriminate.
Qed.

Lemma push_shift_last (n : Z) (h : list float) (f : float) :
  1 <= n -> exists h', push_shift n h f = h' ++ [f].
Proof.
  intro Hn. unfold push_shift. rewrite length_app. simpl.
  destruct (Z.ltb_spec n (Z.of_nat (length h + 1))) as [Hlt|Hge].
  - destruct h as [|x h]; simpl in *; [lia|]. exists h. reflexivity.
  - exists h. reflexivity.
Qed.

Lemma rejected_gate (f : float) :
  f = (-1)%float \/ (f <? 60)%float = true \/ (1000 <? f)%float = true ->
  gate f = true.
Proof.
  unfold gate. intros [->|[->| ->]]; [reflexivity|reflexivity|apply orb_true_r].
Qed.

(** C5: the range gate of [detectPitch] rejects the raw estimate of a
    buffer, that is clears the whole history and returns [null], exactly
    when the estimate is the "no pitch" value -1, is below 60 or is above
    1000, both strictly; an estimate of exactly 60 or exactly 1000 is pushed
    onto the history. *)
Theorem range_gate
  (this : PitchDetector) (dataArray : list float) (frequency : float) :
  autoCorrelate dataArray (sampleRate this) = Ok frequency ->
  (detectPitch this dataArray = (set_pitchHistory this [], Ok None) <->
   frequency = (-1)%float \/ (frequency <? 60)%float = true
   \/ (1000 <? frequency)%float = true)
  /\
  (1 <= historySize this ->
   frequency = 60%float \/ frequency = 1000%float ->
   exists h, pitchHistory (fst (detectPitch this dataArray)) = h ++ [frequency]).
Proof.
  intro Hf. rewrite (detectPitch_track _ _ _ Hf).
  split.
  - split.
    + intro H. right.
      destruct (gate frequency) eqn:G.
      * unfold gate in G. apply orb_true_iff in G. exact G.
      * exfalso. rewrite (track_accepted _ _ G) in H. cbv zeta in H.
        inversion H as [[Hh Hr]].
        destruct (push_shift_nonempty _ _ _ Hh) as [_ Hn].
        rewrite Hh in Hr. simpl in Hr.
        destruct (Z.ltb_spec 0 (historySize this)); [lia|discriminate].
    + intro H. apply track_rejected, rejected_gate, H.
  - intros Hn H.
    assert (G : gate frequency = false) by (destruct H as [->| ->]; reflexivity).
    rewrite (track_accepted _ _ G). simpl. apply push_shift_last, Hn.
Qed.

Lemma tone_estimate_60 : autoCorrelate tone 240%float = Ok 60%float.
Proof. vm_compute. reflexivity. Qed.

Lemma range_gate_witness :
  autoCorrelate tone (sampleRate (new_PitchDetector 240%float)) = Ok 60%float /\
  1 <= historySize (new_PitchDetector 240%float) /\
  exists h,
    pitchHistory (fst (detectPitch (new_PitchDetector 240%float) tone))
    = h ++ [60%float].
Proof.
  assert (Hn : 1 <= historySize (new_PitchDetector 240%float)) by (simpl; lia).
  split; [exact tone_estimate_60|]. split; [exact Hn|].
  exact (proj2 (range_gate (new_PitchDetector 240%float) tone 60%float
                  tone_estimate_60)
               Hn (or_introl eq_refl)).
Defined.

(** ** What a stabilized output says about the history *)

Lemma float_neq_nan (x : float) : is_nan x = false -> x <> nan.
Proof. intros H E. subst. discriminate. Qed.

Lemma accepted_in_range (f : float) : gate f = false -> f <> nan -> in_range f = true.
Proof.
  unfold gate, in_range. intros G Hf.
  apply orb_false_iff in G. destruct G as [G1 G2].
  rewrite (FloatFacts.not_ltb_leb f 60 Hf (float_neq_nan 60%float eq_refl) G1).
  rewrite (FloatFacts.not_ltb_leb 1000 f (float_neq_nan 1000%float eq_refl) Hf G2).
  reflexivity.
Qed.

Lemma in_range_accepted (f : float) : in_range f = true -> gate f = false.
Proof.
  unfold gate, in_range. intro H. apply andb_true_iff in H. destruct H as [H1 H2].
  rewrite (FloatFacts.leb_not_ltb _ _ H1), (FloatFacts.leb_not_ltb _ _ H2).
  reflexivity.
Qed.

(** An entry that passes the consistency test is a number. *)
Lemma consistent_not_nan (tol avg : float) (h : list float) (e : float) :
  consistent tol avg h = true -> In e h -> e <> nan.
Proof.
  unfold consistent. intros H Hin E. subst e.
  rewrite forallb_forall in H. specialize (H _ Hin).
  rewrite FloatFacts.sub_nan_l in H.
  change (abs nan) with nan in H.
  rewrite FloatFacts.ltb_nan_l in H. discriminate.
Qed.

Lemma push_shift_cases (n : Z) (h : list float) (f : float) :
  (Z.of_nat (length h) < n /\ push_shift n h f = h ++ [f]) \/
  (n <= Z.of_nat (length h) /\ push_shift n h f = tl (h ++ [f])).
Proof.
  unfold push_shift. rewrite length_app. simpl.
  destruct (Z.ltb_spec n (Z.of_nat (length h + 1))); [right|left]; split;
    try reflexivity; lia.
Qed.

Lemma push_shift_suffix (n : Z) (h : list float) (f : float) :
  exists pre, h ++ [f] = pre ++ push_shift n h f.
Proof.
  destruct (push_shift_cases n h f) as [[_ ->]|[_ ->]].
  - exists []. reflexivity.
  - destruct h as [|x h]; simpl.
    + exists [f]. reflexivity.
    + exists [x]. reflexivity.
Qed.

Lemma push_shift_ok (n : Z) (h : list float) (f : float) :
  Z.of_nat (length h) <= Z.max n 0 ->
  Forall (fun f => gate f = false) h ->
  gate f = false ->
  Z.of_nat (length (push_shift n h f)) <= Z.max n 0 /\
  Forall (fun f => gate f = false) (push_shift n h f).
Proof.
  intros Hlen Hall Hf.
  assert (Hall' : Forall (fun f => gate f = false) (h ++ [f]))
    by (apply Forall_app; split; [assumption|constructor; [assumption|constructor]]).
  destruct (push_shift_cases n h f) as [[Hn ->]|[Hn ->]].
  - split; [|assumption]. rewrite length_app. simpl. lia.
  - split.
    + destruct h as [|x h]; simpl in *; [lia|].
      rewrite length_app. simpl. lia.
    + destruct (h ++ [f]) as [|y l]; simpl; [constructor|].
      inversion Hall'; assumption.
Qed.

Lemma track_hist_ok (this : PitchDetector) (f : float) :
  hist_ok this -> hist_ok (fst (track this f)).
Proof.
  intros [Hlen Hall]. unfold hist_ok.
  destruct (gate f) eqn:G.
  - rewrite (track_rejected _ _ G). simpl. split; [lia|constructor].
  - rewrite (track_accepted _ _ G). simpl. apply push_shift_ok; assumption.
Qed.

Lemma track_suffix (this : PitchDetector) (f : float) :
  exists pre, pitchHistory this ++ [f] = pre ++ pitchHistory (fst (track this f)).
Proof.
  destruct (gate f) eqn:G.
  - rewrite (track_rejected _ _ G). simpl.
    exists (pitchHistory this ++ [f]). rewrite app_nil_r. reflexivity.
  - rewrite (track_accepted _ _ G). simpl. apply push_shift_suffix.
Qed.

(** A call that returns a frequency leaves a full history of in-range
    entries, and the frequency is their mean. *)
Lemma track_stable (this : PitchDetector) (f v : float) :
  hist_ok this ->
  snd (track this f) = Ok (Some v) ->
  let h := pitchHistory (fst (track this f)) in
  gate f = false /\
  Z.of_nat (length h) = historySize this /\
  Forall (fun e => in_range e = true) h /\
  consistent (pitchTolerance this) v h = true /\
  v = arithmetic_mean h.
Proof.
  intros Hok Hout.
  pose proof (track_hist_ok this f Hok) as [Hlen Hall].
  destruct (gate f) eqn:G.
  { rewrite (track_rejected _ _ G) in Hout. discriminate. }
  rewrite (track_accepted _ _ G) in *. cbv zeta in *. simpl fst in *. simpl snd in *.
  simpl pitchHistory in *.
  set (h := push_shift (historySize this) (pitchHistory this) f) in *.
  destruct (Z.ltb_spec (Z.of_nat (length h)) (historySize this)) as [Hlt|Hge];
    [discriminate|].
  destruct h as [|x xs] eqn:Eh; [discriminate|].
  cbv zeta in Hout.
  destruct (consistent _ _ (x :: xs)) eqn:Hc; [|discriminate].
  assert (Hv : (fold_left add xs x / JS.of_Z (historySize this))%float = v)
    by congruence.
  clear Hout. subst v.
  unfold set_pitchHistory in Hlen. simpl historySize in Hlen.
  assert (Hn : Z.of_nat (length (x :: xs)) = historySize this)
    by (simpl length in *; lia).
  split; [reflexivity|]. split; [exact Hn|]. split; [|split; [exact Hc|]].
  - apply Forall_forall. intros e He.
    apply accepted_in_range.
    + rewrite Forall_forall in Hall. apply Hall, He.
    + eapply consistent_not_nan; eassumption.
  - unfold arithmetic_mean. rewrite Hn. reflexivity.
Qed.

Lemma track_all_hist_ok (raws : list float) :
  forall this, hist_ok this -> hist_ok (fst (track_all this raws)).
Proof.
  induction raws as [|f rest IH]; intros this Hok; simpl; [assumption|].
  pose proof (track_hist_ok this f Hok) as H1.
  destruct (track this f) as [this' r]. simpl in H1.
  specialize (IH this' H1).
  destruct (track_all this' rest) as [this'' rs]. exact IH.
Qed.

(** The window lemma: when call [k] of a run returns a frequency, the
    history it was computed from is the last [historySize] elements of the
    old history followed by the first [k + 1] raw estimates, and all of
    them are in range. *)
Lemma stable_window (raws : list float) :
  forall (this : PitchDetector) (k : nat) (v : float),
    hist_ok this ->
    nth_error (snd (track_all this raws)) k = Some (Ok (Some v)) ->
    (S k <= length raws)%nat /\
    exists pre w,
      pitchHistory this ++ firstn (S k) raws = pre ++ w /\
      Z.of_nat (length w) = historySize this /\
      Forall (fun e => in_range e = true) w.
Proof.
  induction raws as [|f rest IH]; intros this k v Hok Hout.
  - destruct k; discriminate.
  - simpl in Hout.
    pose proof (track_hist_ok this f Hok) as Hok1.
    pose proof (track_suffix this f) as [pre0 Hpre0].
    pose proof (track_fields this f) as (_ & Hn1 & _).
    pose proof (track_stable this f) as Hst.
    destruct (track this f) as [this1 r1]. simpl fst in *. simpl snd in *.
    specialize (IH this1).
    destruct (track_all this1 rest) as [this2 rs]. simpl snd in *.
    destruct k as [|k]; simpl in Hout.
    + inversion Hout as [Hr]. subst r1.
      destruct (Hst v Hok eq_refl) as (_ & Hlen & Hall & _).
      split; [simpl; lia|].
      exists pre0, (pitchHistory this1). simpl firstn. auto.
    + destruct (IH k v Hok1 Hout) as (Hk & pre1 & w & Hw & Hlen & Hall).
      split; [simpl; lia|].
      exists (pre0 ++ pre1), w. split; [|split; [congruence|assumption]].
      change (firstn (S (S k)) (f :: rest)) with (f :: firstn (S k) rest).
      change (f :: firstn (S k) rest) with ([f] ++ firstn (S k) rest).
      rewrite app_assoc, Hpre0, <- !app_assoc, Hw. reflexivity.
Qed.

(** From an empty history: call [k] can only return a frequency when the
    raw estimates [k + 1 - historySize .. k] exist and are all in range. *)
Lemma stable_run (this : PitchDetector) (raws : list float) (k : nat) (v : float) :
  pitchHistory this = [] ->
  nth_error (snd (track_all this raws)) k = Some (Ok (Some v)) ->
  historySize this <= Z.of_nat (S k) /\
  forall j : nat,
    Z.of_nat (S k) - historySize this <= Z.of_nat j -> (j <= k)%nat ->
    exists f, nth_error raws j = Some f /\ in_range f = true.
Proof.
  intros Hempty Hout.
  assert (Hok : hist_ok this).
  { unfold hist_ok. rewrite Hempty. simpl. split; [lia|constructor]. }
  destruct (stable_window raws this k v Hok Hout) as (Hk & pre & w & Hw & Hlen & Hall).
  rewrite Hempty, app_nil_l in Hw.
  assert (Hsum : (length pre + length w = S k)%nat).
  { rewrite <- length_app, <- Hw. apply firstn_length_le. exact Hk. }
  split; [lia|].
  intros j Hlo Hhi.
  assert (Hj : nth_error raws j = nth_error w (j - length pre)).
  { assert (E : nth_error (firstn (S k) raws) j = nth_error raws j).
    { rewrite nth_error_firstn.
      destruct (Nat.ltb_spec j (S k)); [reflexivity|lia]. }
    rewrite <- E, Hw. apply nth_error_app2. lia. }
  destruct (nth_error w (j - length pre)) as [e|] eqn:E.
  - exists e. split; [exact Hj|].
    rewrite Forall_forall in Hall. apply Hall. eapply nth_error_In, E.
  - apply nth_error_None in E. lia.
Qed.

Lemma track_all_app (a b : list float) :
  forall this,
    track_all this (a ++ b) =
    (fst (track_all (fst (track_all this a)) b),
     snd (track_all this a) ++ snd (track_all (fst (track_all this a)) b)).
Proof.
  induction a as [|f a IH]; intro this; simpl.
  - destruct (track_all this b); reflexivity.
  - destruct (track this f) as [this1 r1].
    rewrite (IH this1).
    destruct (track_all this1 a) as [this2 rs]. simpl. reflexivity.
Qed.

Lemma track_all_length (raws : list float) :
  forall this, length (snd (track_all this raws)) = length raws.
Proof.
  induction raws as [|f rest IH]; intro this; simpl; [reflexivity|].
  destruct (track this f) as [this1 r1].
  specialize (IH this1). destruct (track_all this1 rest). simpl in *. lia.
Qed.

(** C3: on a detector whose history is empty, whatever buffers are fed to
    [detectPitch]: (1) call number k + 1 returns a frequency only if at
    least [historySize] calls were made and the raw estimates of the last
    [historySize] of them were all in range; (2) a call whose raw estimate
    is -1, below 60 or above 1000 leaves the history empty, whatever came
    before it (in particular [historySize - 1] in-range readings); (3) and
    after such a call a frequency is returned only once [historySize] more
    calls were made, again with in-range estimates. *)
Theorem detectPitch_needs_history
  (this : PitchDetector) (inputs : list (list float)) (raws : list float) :
  pitchHistory this = [] ->
  estimates this inputs raws ->
  (forall (k : nat) (v : float),
      nth_error (snd (detectPitch_all this inputs)) k = Some (Ok (Some v)) ->
      historySize this <= Z.of_nat (S k) /\
      forall j : nat,
        Z.of_nat (S k) - historySize this <= Z.of_nat j -> (j <= k)%nat ->
        exists f, nth_error raws j = Some f /\ in_range f = true)
  /\
  (forall (dataArray : list float) (f : float),
      autoCorrelate dataArray (sampleRate this) = Ok f ->
      f = (-1)%float \/ (f <? 60)%float = true \/ (1000 <? f)%float = true ->
      pitchHistory (fst (detectPitch_all this (inputs ++ [dataArray]))) = [] /\
      forall (more : list (list float)) (raws' : list float) (k : nat) (v : float),
        estimates this more raws' ->
        nth_error (snd (detectPitch_all this (inputs ++ dataArray :: more)))
                  (length inputs + 1 + k) = Some (Ok (Some v)) ->
        historySize this <= Z.of_nat (S k) /\
        forall j : nat,
          Z.of_nat (S k) - historySize this <= Z.of_nat j -> (j <= k)%nat ->
          exists f', nth_error raws' j = Some f' /\ in_range f' = true).
Proof.
  intros Hempty Hest.
  split.
  - intros k v. rewrite (detectPitch_all_track_all _ _ _ Hest).
    apply stable_run, Hempty.
  - intros d f Hf Hrej.
    pose proof (rejected_gate f Hrej) as G.
    assert (Hlen : length inputs = length raws)
      by (eapply Forall2_length; exact Hest).
    split.
    + assert (Hest1 : estimates this (inputs ++ [d]) (raws ++ [f])).
      { apply Forall2_app; [exact Hest|]. constructor; [exact Hf|constructor]. }
      rewrite (detectPitch_all_track_all _ _ _ Hest1), track_all_app. simpl.
      rewrite (track_rejected _ _ G). reflexivity.
    + intros more raws' k v Hmore Hout.
      assert (Hest2 : estimates this (inputs ++ d :: more) (raws ++ f :: raws')).
      { apply Forall2_app; [exact Hest|]. constructor; assumption. }
      rewrite (detectPitch_all_track_all _ _ _ Hest2) in Hout.
      destruct (stable_run _ _ _ _ Hempty Hout) as [Hn Hwin].
      assert (Hk : historySize this <= Z.of_nat (S k)).
      { destruct (Z.le_gt_cases (historySize this) (Z.of_nat (S k))) as [H|H];
          [exact H|exfalso].
        destruct (Hwin (length raws)) as (f' & Hf' & Hr); try lia.
        rewrite nth_error_app2 in Hf' by lia.
        rewrite Nat.sub_diag in Hf'. simpl in Hf'. inversion Hf'; subst f'.
        apply in_range_accepted in Hr. congruence. }
      split; [exact Hk|].
      intros j Hlo Hhi.
      destruct (Hwin (length raws + 1 + j)%nat) as (f' & Hf' & Hr); try lia.
      exists f'. split; [|exact Hr].
      rewrite nth_error_app2 in Hf' by lia.
      replace (length raws + 1 + j - length raws)%nat with (S j) in Hf' by lia.
      exact Hf'.
Qed.

Lemma tone_estimate : autoCorrelate tone 880%float = Ok 220%float.
Proof. vm_compute. reflexivity. Qed.

Lemma detectPitch_needs_history_witness :
  nth_error (snd (detectPitch_all (new_PitchDetector 880%float) [tone; tone; tone])) 2
  = Some (Ok (Some 220%float)) /\
  historySize (new_PitchDetector 880%float) <= 3 /\
  exists f, nth_error [220; 220; 220]%float 0 = Some f /\ in_range f = true.
Proof.
  assert (Hout : nth_error (snd (detectPitch_all (new_PitchDetector 880%float)
                                   [tone; tone; tone])) 2
                 = Some (Ok (Some 220%float))) by (vm_compute; reflexivity).
  split; [exact Hout|].
  destruct (detectPitch_needs_history (new_PitchDetector 880%float)
              [tone; tone; tone] [220; 220; 220]%float) as [H _].
  - reflexivity.
  - repeat constructor; exact tone_estimate.
  - destruct (H 2%nat 220%float Hout) as [Hn Hwin].
    split; [exact Hn|]. apply Hwin; simpl; lia.
Defined.

(** C4: a call of [detectPitch] that leaves [historySize] entries in the
    history returns their arithmetic mean when every entry is within
    [pitchTolerance] of the mean, strictly, and [null] otherwise.  With the
    defaults (3 entries, 15 Hz) the raw estimates 220, 221, 219 give 220 on
    the third call and 220, 260, 219 give [null]. *)
Theorem detectPitch_mean (this : PitchDetector) (dataArray : list float) :
  (1 <= historySize this ->
   let h := pitchHistory (fst (detectPitch this dataArray)) in
   Z.of_nat (length h) = historySize this ->
   snd (detectPitch this dataArray) =
   Ok (if consistent (pitchTolerance this) (arithmetic_mean h) h
       then Some (arithmetic_mean h) else None))
  /\
  snd (track_all (new_PitchDetector (sampleRate this)) [220; 221; 219]%float)
  = [Ok None; Ok None; Ok (Some 220%float)]
  /\
  snd (track_all (new_PitchDetector (sampleRate this)) [220; 260; 219]%float)
  = [Ok None; Ok None; Ok None].
Proof.
  split; [|split; reflexivity].
  intros Hn.
  destruct (autoCorrelate_total dataArray (sampleRate this)) as (f & Hf).
  rewrite (detectPitch_track _ _ _ Hf).
  destruct (gate f) eqn:G.
  - rewrite (track_rejected _ _ G). simpl. intro H. lia.
  - rewrite (track_accepted _ _ G). cbv zeta. simpl fst. simpl snd. simpl pitchHistory.
    set (h := push_shift (historySize this) (pitchHistory this) f).
    intro Hlen.
    destruct (Z.ltb_spec (Z.of_nat (length h)) (historySize this)) as [Hlt|_]; [lia|].
    destruct h as [|x xs]; [simpl in Hlen; lia|].
    unfold arithmetic_mean. rewrite Hlen. reflexivity.
Qed.

Lemma detectPitch_mean_witness :
  snd (detectPitch
         (set_pitchHistory (new_PitchDetector 880%float) [219; 221]%float) tone)
  = Ok (Some 220%float).
Proof.
  destruct (detectPitch_mean
              (set_pitchHistory (new_PitchDetector 880%float) [219; 221]%float) tone)
    as [H _].
  rewrite H.
  - vm_compute. reflexivity.
  - simpl. lia.
  - vm_compute. reflexivity.
Defined.

(** C8: [reset] empties the history and changes no other field; 
    [setSensitivity] stores exactly the fields its argument defines, keeps
    the others, and empties the history, so that whatever is fed next, the
    first [historySize - 1] calls return no frequency. *)
Theorem setSensitivity_frame (this : PitchDetector) (s : settings) :
  (pitchHistory (reset this) = [] /\
   sampleRate (reset this) = sampleRate this /\
   historySize (reset this) = historySize this /\
   pitchTolerance (reset this) = pitchTolerance this)
  /\
  (pitchHistory (setSensitivity this s) = [] /\
   sampleRate (setSensitivity this s) = sampleRate this /\
   historySize (setSensitivity this s) =
     match s_historySize s with Some n => n | None => historySize this end /\
   pitchTolerance (setSensitivity this s) =
     match s_pitchTolerance s with Some t => t | None => pitchTolerance this end)
  /\
  (forall (inputs : list (list float)) (k : nat) (v : float),
      nth_error (snd (detectPitch_all (setSensitivity this s) inputs)) k
      = Some (Ok (Some v)) ->
      historySize (setSensitivity this s) <= Z.of_nat (S k)).
Proof.
  split; [|split].
  - repeat split.
  - unfold setSensitivity.
    destruct (s_historySize s), (s_pitchTolerance s); repeat split.
  - intros inputs k v Hout.
    destruct (estimates_exist (setSensitivity this s) inputs) as (raws & Hest).
    rewrite (detectPitch_all_track_all _ _ _ Hest) in Hout.
    assert (Hempty : pitchHistory (setSensitivity this s) = [])
      by (unfold setSensitivity; destruct (s_historySize s), (s_pitchTolerance s);
          reflexivity).
    apply (stable_run _ _ _ _ Hempty) in Hout. apply Hout.
Qed.

(** ** The detectors a program can build *)

(** What holds of the history after every operation: it has at most
    [historySize] entries and none of them is below 60 or above 1000. *)
Lemma reachable_hist_ok (this : PitchDetector) :
  reachable this ->
  1 <= historySize this <= max_array_length /\
  Z.of_nat (length (pitchHistory this)) <= historySize this /\
  Forall (fun f => gate f = false) (pitchHistory this).
Proof.
  induction 1 as [sr|this d _ IH|this _ IH|this s _ IH Hs].
  - simpl. unfold max_array_length. repeat split; try lia. constructor.
  - destruct IH as (Hn & Hlen & Hall).
    destruct (autoCorrelate_total d (sampleRate this)) as (f & Hf).
    rewrite (detectPitch_track _ _ _ Hf).
    pose proof (track_fields this f) as (_ & -> & _).
    destruct (track_hist_ok this f) as [Hlen' Hall'].
    { split; [lia|assumption]. }
    pose proof (track_fields this f) as (_ & E & _). rewrite E in Hlen'.
    repeat split; try lia; assumption.
  - destruct IH as (Hn & Hlen & Hall). simpl. repeat split; try lia. constructor.
  - destruct IH as (Hn & Hlen & Hall).
    unfold setSensitivity, valid_settings in *.
    destruct (s_historySize s), (s_pitchTolerance s); simpl;
      repeat split; try lia; constructor.
Qed.

(** Numbers that no analyser delivers.  Five samples, the first of them
    infinite, have the estimate NaN, which is neither below 60 nor above
    1000, so line 116 pushes it.  Whatever the samples are, the history has
    at most [historySize] entries, none after [reset], [setSensitivity] or
    a rejection, and every entry is NaN or lies in [60, 1000]. *)
Remark detectPitch_infinite_sample :
  autoCorrelate [infinity; -1; 1; -1; 1]%float 48000%float = Ok nan /\
  pitchHistory
    (fst (detectPitch (new_PitchDetector 48000%float) [infinity; -1; 1; -1; 1]%float))
  = [nan] /\
  in_range nan = false /\
  (forall this : PitchDetector,
      reachable this ->
      Z.of_nat (length (pitchHistory this)) <= historySize this /\
      Forall (fun f => f = nan \/ in_range f = true) (pitchHistory this) /\
      pitchHistory (reset this) = [] /\
      forall s dataArray f,
        pitchHistory (setSensitivity this s) = [] /\
        (autoCorrelate dataArray (sampleRate this) = Ok f ->
         (f <? 60)%float = true \/ (1000 <? f)%float = true ->
         pitchHistory (fst (detectPitch this dataArray)) = [])).
Proof.
  split; [vm_compute; reflexivity|]. split; [vm_compute; reflexivity|].
  split; [reflexivity|].
  intros this Hreach.
  destruct (reachable_hist_ok this Hreach) as (_ & Hlen & Hall).
  split; [exact Hlen|]. split; [|split; [reflexivity|]].
  - apply Forall_forall. intros f Hin.
    rewrite Forall_forall in Hall.
    destruct (FloatFacts.nan_or_number f) as [E|E]; [left; exact E|right].
    apply accepted_in_range; [apply Hall, Hin|exact E].
  - intros s dataArray f. split.
    + unfold setSensitivity.
      destruct (s_historySize s), (s_pitchTolerance s); reflexivity.
    + intros Hf Hrej.
      rewrite (detectPitch_track _ _ _ Hf).
      rewrite track_rejected; [reflexivity|].
      apply rejected_gate. right. exact Hrej.
Qed.

(** ** The mean of in-range entries is in range *)

Import Binary64 Binary64Facts.

Lemma V_60 : V 8444249301319680 (-47) = 60 * U.
Proof. vm_compute. reflexivity. Qed.

Lemma V_1000 : V 8796093022208000 (-43) = 1000 * U.
Proof. vm_compute. reflexivity. Qed.

Lemma in_range_between (x : float) : in_range x = true -> between 60 1000 x.
Proof.
  unfold in_range. intro H. apply andb_true_iff in H. destruct H as [H1 H2].
  rewrite leb_spec in H1, H2.
  pose proof (Prim2SF_valid x) as Hv.
  change (Prim2SF 60%float) with (S754_finite false 8444249301319680 (-47)) in H1.
  change (Prim2SF 1000%float) with (S754_finite false 8796093022208000 (-43)) in H2.
  destruct (Prim2SF x) as [s|s| |s m e] eqn:E.
  - destruct s; discriminate.
  - destruct s; discriminate.
  - discriminate.
  - destruct s; [discriminate|].
    exists m, e. split; [exact E|].
    apply SFleb_V in H1; [|reflexivity|exact Hv].
    apply SFleb_V in H2; [|exact Hv|reflexivity].
    rewrite V_60 in H1. rewrite V_1000 in H2. lia.
Qed.

Lemma between_in_range (x : float) : between 60 1000 x -> in_range x = true.
Proof.
  intros (m & e & E & Hb).
  pose proof (Prim2SF_valid x) as Hv. rewrite E in Hv.
  unfold in_range. rewrite !leb_spec, E.
  change (Prim2SF 60%float) with (S754_finite false 8444249301319680 (-47)).
  change (Prim2SF 1000%float) with (S754_finite false 8796093022208000 (-43)).
  apply andb_true_iff. split.
  - apply SFleb_V; [reflexivity|exact Hv|]. rewrite V_60. lia.
  - apply SFleb_V; [exact Hv|reflexivity|]. rewrite V_1000. lia.
Qed.

Lemma U_pos : 0 < U.
Proof. apply pw_pos. lia. Qed.

Lemma between_exp (a b : Z) (x : float) (m : positive) (e : Z) :
  b < 2 ^ 53 ->
  Prim2SF x = S754_finite false m e ->
  V m e <= b * U ->
  -1074 <= e <= 0.
Proof.
  intros Hb E HV.
  pose proof (Prim2SF_valid x) as Hv. rewrite E in Hv.
  apply (valid_exp false m e Hv).
  pose proof U_pos. nia.
Qed.

Lemma add_between (a b c d : Z) (x y : float) :
  0 < a -> 0 < c -> b + d < 2 ^ 53 ->
  between a b x -> between c d y ->
  between (a + c) (b + d) (x + y)%float.
Proof.
  intros Ha Hc Hbd (mx & ex & Ex & Hx) (my & ey & Ey & Hy).
  pose proof U_pos as HU.
  assert (Hb : 0 < b) by nia. assert (Hd : 0 < d) by nia.
  pose proof (between_exp a b x mx ex ltac:(lia) Ex ltac:(lia)) as Hex.
  pose proof (between_exp c d y my ey ltac:(lia) Ey ltac:(lia)) as Hey.
  destruct (SFadd_bounds mx my ex ey ((a + c) * U) ((b + d) * U))
    as (m & e & R & Hb'); try assumption.
  - exists (a + c). ring.
  - exists (b + d). ring.
  - nia.
  - nia.
  - nia.
  - exists m, e. split; [|exact Hb'].
    rewrite add_spec, Ex, Ey. exact R.
Qed.

Lemma sum_between (xs : list float) :
  forall (s : float) (k : Z),
    1 <= k ->
    between (60 * k) (1000 * k) s ->
    Forall (fun e => in_range e = true) xs ->
    1000 * (k + Z.of_nat (length xs)) < 2 ^ 53 ->
    between (60 * (k + Z.of_nat (length xs))) (1000 * (k + Z.of_nat (length xs)))
         (fold_left add xs s).
Proof.
  induction xs as [|x xs IH]; intros s k Hk Hs Hall Hlen.
  - simpl. rewrite Z.add_0_r. exact Hs.
  - inversion Hall as [|? ? Hx Hxs]; subst.
    simpl fold_left. simpl length in *. rewrite Nat2Z.inj_succ in *.
    replace (k + Z.succ (Z.of_nat (length xs))) with ((k + 1) + Z.of_nat (length xs)) in * by lia.
    apply IH; try assumption; try lia.
    replace (60 * (k + 1)) with (60 * k + 60) by ring.
    replace (1000 * (k + 1)) with (1000 * k + 1000) by ring.
    apply add_between; try lia; [exact Hs|apply in_range_between, Hx].
Qed.

Lemma of_Z_between (n : Z) : 1 <= n < 2 ^ 53 -> between n n (JS.of_Z n).
Proof.
  intros Hn. destruct n as [|p|p]; try lia.
  unfold JS.of_Z, between.
  rewrite of_uint63_spec.
  rewrite Uint63.of_Z_spec.
  rewrite Z.mod_small
    by (split; [lia|]; eapply Z.lt_trans; [apply Hn|reflexivity]).
  unfold binary_normalize.
  pose proof U_pos as HU.
  destruct (binary_round_bounds p 0 (Zpos p * U) (Zpos p * U))
    as (m & e & R & Hb); try lia.
  - exists (Zpos p). ring.
  - exists (Zpos p). ring.
  - nia.
  - unfold V. fold U. lia.
  - exists m, e. split; [exact R|exact Hb].
Qed.

Lemma div_between (a b n : Z) (s N : float) :
  1 <= n -> 1 <= a -> b < 2 ^ 53 -> b * n < 2 ^ 53 ->
  between (a * n) (b * n) s -> between n n N ->
  between a b (s / N)%float.
Proof.
  intros Hn Ha Hb Hbn (ms & es & Es & Hs) (mN & eN & EN & HN).
  pose proof U_pos as HU.
  pose proof (between_exp (a * n) (b * n) s ms es Hbn Es ltac:(lia)) as Hes.
  assert (Hn53 : n < 2 ^ 53).
  { assert (0 < b) by nia. nia. }
  pose proof (between_exp n n N mN eN Hn53 EN ltac:(lia)) as HeN.
  destruct (SFdiv_bounds ms mN es eN (a * U) (b * U)) as (m & e & R & Hb');
    try lia.
  - exists a. ring.
  - exists b. ring.
  - apply Z.mul_lt_mono_pos_r; assumption.
  - replace (V mN eN) with (n * U) by lia.
    replace (a * U * (n * U)) with (a * n * U * U) by ring.
    apply Z.mul_le_mono_nonneg_r; lia.
  - replace (V mN eN) with (n * U) by lia.
    replace (b * U * (n * U)) with (b * n * U * U) by ring.
    apply Z.mul_le_mono_nonneg_r; lia.
  - exists m, e. split; [|exact Hb'].
    rewrite div_spec, Es, EN. exact R.
Qed.

(** The mean of at most [max_array_length] numbers of [60, 1000], computed
    in binary64 as line 127 does, is in [60, 1000]. *)
Lemma mean_in_range (h : list float) :
  (1 <= length h)%nat ->
  Z.of_nat (length h) <= max_array_length ->
  Forall (fun e => in_range e = true) h ->
  in_range (arithmetic_mean h) = true.
Proof.
  intros Hlen Hmax Hall.
  destruct h as [|x xs]; [simpl in Hlen; lia|].
  inversion Hall as [|? ? Hx Hxs]; subst.
  unfold arithmetic_mean.
  set (n := Z.of_nat (length (x :: xs))) in *.
  assert (Hn : n = 1 + Z.of_nat (length xs)) by (unfold n; simpl length; lia).
  clearbody n. clear Hlen Hall.
  unfold max_array_length in Hmax.
  assert (H1 : 1 <= n) by (clear - Hn; lia).
  assert (H53 : 1000 * n < 2 ^ 53)
    by (clear - Hmax; change (2 ^ 53) with 9007199254740992; lia).
  assert (Hn53 : 1 <= n < 2 ^ 53)
    by (clear - Hmax H1; change (2 ^ 53) with 9007199254740992; lia).
  apply between_in_range.
  apply (div_between 60 1000 n).
  - exact H1.
  - clear; lia.
  - clear; change (2 ^ 53) with 9007199254740992; lia.
  - exact H53.
  - rewrite Hn. apply sum_between.
    + clear; lia.
    + apply in_range_between, Hx.
    + exact Hxs.
    + rewrite <- Hn. exact H53.
  - apply of_Z_between. exact Hn53.
Qed.

Lemma between_positive (a b : Z) (x : float) :
  between a b x ->
  (0 <? x)%float = true /\ x <> infinity /\ x <> nan /\ x <> (-1)%float.
Proof.
  intros (m & e & E & _). repeat split.
  - rewrite ltb_spec, E. reflexivity.
  - intro H. subst x. discriminate E.
  - intro H. subst x. discriminate E.
  - intro H. subst x. discriminate E.
Qed.

(** C9: on a detector built from the constructor by [detectPitch], [reset]
    and [setSensitivity] (with a [historySize] that is a positive array
    length), every frequency that [detectPitch] returns is the mean of the
    [historySize] entries of the history, each of them in [60, 1000], and
    lies itself in [60, 1000] as a binary64 number: it is positive, finite,
    and never the value -1. *)
Theorem detectPitch_output_in_range
  (this : PitchDetector) (dataArray : list float) (v : float) :
  reachable this ->
  snd (detectPitch this dataArray) = Ok (Some v) ->
  let h := pitchHistory (fst (detectPitch this dataArray)) in
  in_range v = true /\
  v = arithmetic_mean h /\
  Z.of_nat (length h) = historySize this /\
  Forall (fun e => in_range e = true) h /\
  (0 <? v)%float = true /\ v <> infinity /\ v <> nan /\ v <> (-1)%float.
Proof.
  intros Hreach Hout.
  destruct (reachable_hist_ok this Hreach) as (Hn & Hlen & Hall).
  destruct (autoCorrelate_total dataArray (sampleRate this)) as (f & Hf).
  rewrite (detectPitch_track _ _ _ Hf) in *.
  assert (Hok : hist_ok this) by (split; [lia|exact Hall]).
  destruct (track_stable this f v Hok Hout) as (_ & Hlen' & Hall' & _ & Hv).
  cbv zeta.
  set (h := pitchHistory (fst (track this f))) in *.
  assert (Hin : in_range v = true).
  { rewrite Hv. apply mean_in_range; [lia|lia|exact Hall']. }
  split; [exact Hin|]. split; [exact Hv|]. split; [exact Hlen'|].
  split; [exact Hall'|].
  exact (between_positive 60 1000 v (in_range_between v Hin)).
Qed.

Lemma detectPitch_output_in_range_witness :
  snd (detectPitch
         (fst (detectPitch (fst (detectPitch (new_PitchDetector 880%float) tone)) tone))
         tone)
  = Ok (Some 220%float) /\
  in_range 220%float = true.
Proof.
  assert (Hout : snd (detectPitch
                        (fst (detectPitch
                                (fst (detectPitch (new_PitchDetector 880%float) tone))
                                tone))
                        tone)
                 = Ok (Some 220%float)) by (vm_compute; reflexivity).
  split; [exact Hout|].
  refine (proj1 (detectPitch_output_in_range _ tone 220%float _ Hout)).
  apply reach_detectPitch, reach_detectPitch, reach_new.
Defined.

(** ** Rounding, bounded from above

    A result that is at most a bound [B] before it is rounded is at most
    [B] after, when [B] is itself a number of the format: a whole multiple
    of [2^g] below [2^(g+53)].  This holds for either sign, for results
    that round to zero and in the subnormal range. *)

Module Round64.

Import Binary64 Binary64Facts Magnitude.

Lemma fexp_eq (x : Z) : fexp prec emax x = Z.max (x - 53) (-1074).
Proof. reflexivity. Qed.

Lemma pw_le (e g : Z) : -1074 <= e <= g -> pw e <= pw g.
Proof. intro H. unfold pw. apply Z.pow_le_mono_r; lia. Qed.

Lemma pw_split (e g : Z) : -1074 <= e <= g -> pw g = pw e * 2 ^ (g - e).
Proof.
  intro H. rewrite <- pw_add by lia. f_equal. lia.
Qed.

(** A multiple of a grid is a multiple of every finer grid. *)
Lemma grid_fine (B e g : Z) : (pw g | B) -> -1074 <= e <= g -> exists t, B = t * pw e.
Proof.
  intros [b ->] He. exists (b * 2 ^ (g - e)).
  rewrite (pw_split e g He). ring.
Qed.

(** A number below [2^53 * 2^g] has its digits and exponent add up to at
    most [53 + g]. *)
Lemma mag_le_grid (m e g : Z) :
  0 < m -> -1074 <= e -> -1074 <= g -> m * pw e < 2 ^ 53 * pw g ->
  Zdigits2 m + e <= 53 + g.
Proof.
  intros Hm He Hg H.
  destruct (Zdigits2_bounds m Hm) as [Hlo _].
  pose proof (Zdigits2_nonneg m) as Hd.
  assert (Hd1 : 1 <= Zdigits2 m) by (destruct m; simpl in *; lia).
  assert (Hlt : 2 ^ (Zdigits2 m - 1) * pw e < 2 ^ 53 * pw g).
  { eapply Z.le_lt_trans; [|exact H].
    apply Z.mul_le_mono_nonneg_r; [apply Z.lt_le_incl, pw_pos; lia|exact Hlo]. }
  unfold pw in Hlt.
  rewrite <- !Z.pow_add_r in Hlt by lia.
  apply Z.pow_lt_mono_r_iff in Hlt; lia.
Qed.

Lemma fexp_le_grid (m e g : Z) :
  0 <= m -> -1074 <= e <= g -> m * pw e < 2 ^ 53 * pw g ->
  -1074 <= fexp prec emax (Zdigits2 m + e) <= g.
Proof.
  intros Hm He H. rewrite fexp_eq.
  destruct (Z.eq_dec m 0) as [->|Hne].
  - simpl Zdigits2. lia.
  - pose proof (mag_le_grid m e g ltac:(lia) ltac:(lia) ltac:(lia) H). lia.
Qed.

(** Rounding to nearest does not pass a bound that lies on a grid [2^g]
    the result can reach: whatever the sign, the result is a zero or a
    number of magnitude at most the bound. *)
Lemma round_le (s : bool) (mx ex : Z) (lx : location) (g B : Z) :
  0 <= mx -> -1074 <= ex <= g -> g <= 971 ->
  (pw g | B) -> B < 2 ^ 53 * pw g ->
  (mx * pw ex < B \/ (lx = loc_Exact /\ mx * pw ex <= B)) ->
  binary_round_aux prec emax s mx ex lx = S754_zero s \/
  exists m e,
    binary_round_aux prec emax s mx ex lx = S754_finite s m e /\
    V m e <= B /\ -1074 <= e <= g.
Proof.
  intros Hmx Hex Hg HB HB53 Hup.
  assert (HP : 0 < pw ex) by (apply pw_pos; lia).
  assert (HmxB : mx * pw ex <= B) by (destruct Hup as [H|[_ H]]; lia).
  unfold binary_round_aux, shr_fexp.
  (* first shift *)
  pose proof (fexp_le_grid mx ex g Hmx Hex ltac:(lia)) as Hf1.
  set (n1 := fexp prec emax (Zdigits2 mx + ex) - ex) in *.
  destruct (shr_spec mx ex n1 lx Hmx) as (r1 & E1 & M1 & L1).
  rewrite E1. cbv beta iota.
  set (k1 := Z.max n1 0) in *.
  assert (Hk1 : 0 <= k1) by (unfold k1; lia).
  assert (He1 : -1074 <= ex + k1 <= g) by (unfold k1, n1; lia).
  assert (HG1 : pw (ex + k1) = pw ex * 2 ^ k1) by (apply pw_add; lia).
  destruct (div_floor mx k1 Hmx Hk1) as ([F1 F2] & F3 & F4).
  rewrite <- M1 in F1, F2, F3, F4.
  assert (Hq1 : 0 <= shr_m r1).
  { rewrite M1. apply Z.div_pos; [lia|apply pow2_pos; lia]. }
  set (q1 := shr_m r1) in *.
  destruct (round_nearest_even_bounds q1 (loc_of_shr_record r1)) as [R1 R2].
  set (m1 := round_nearest_even q1 (loc_of_shr_record r1)) in *.
  assert (HG1pos : 0 < pw (ex + k1)) by (apply pw_pos; lia).
  destruct (grid_fine B (ex + k1) g HB He1) as (tB1 & HtB1).
  assert (Up1 : m1 * pw (ex + k1) <= B).
  { destruct (loc_of_shr_record r1) eqn:El.
    - destruct L1 as [L1 _]. destruct (L1 eq_refl) as [_ Hmod].
      rewrite (R2 eq_refl), HG1.
      apply (mul_floor_le q1 (2 ^ k1) mx (pw ex) B HP); [|exact HmxB].
      pose proof (F3 Hmod). lia.
    - assert (Hlt : q1 * pw (ex + k1) < B).
      { rewrite HG1. destruct Hup as [H|[Hl H]].
        - apply (mul_floor_lt q1 (2 ^ k1) mx (pw ex) B HP F1 H).
        - assert (Hmod : mx mod 2 ^ k1 <> 0).
          { intro Hmod. destruct L1 as [_ L1].
            specialize (L1 (conj Hl Hmod)). discriminate. }
          apply (mul_floor_lt' q1 (2 ^ k1) mx (pw ex) B HP (F4 Hmod) H). }
      pose proof (grid_ge B _ q1 tB1 HG1pos HtB1 Hlt) as Hge.
      apply (mul_mono_le m1 (q1 + 1) _ B HG1pos); [lia|exact Hge]. }
  assert (Hm1 : 0 <= m1) by lia.
  clear F1 F2 F3 F4 L1 R1 R2 HtB1 tB1 Hup HmxB.
  (* second shift *)
  pose proof (fexp_le_grid m1 (ex + k1) g Hm1 He1 ltac:(lia)) as Hf2.
  set (n2 := fexp prec emax (Zdigits2 m1 + (ex + k1)) - (ex + k1)) in *.
  destruct (shr_spec m1 (ex + k1) n2 loc_Exact Hm1) as (r2 & E2 & M2 & _).
  rewrite E2. cbv beta iota.
  set (k2 := Z.max n2 0) in *.
  assert (Hk2 : 0 <= k2) by (unfold k2; lia).
  assert (He2 : -1074 <= ex + k1 + k2 <= g) by (unfold k2, n2; lia).
  assert (HG2 : pw (ex + k1 + k2) = pw (ex + k1) * 2 ^ k2) by (apply pw_add; lia).
  destruct (div_floor m1 k2 Hm1 Hk2) as ([F5 F6] & _).
  rewrite <- M2 in F5, F6.
  assert (Hq2 : 0 <= shr_m r2).
  { rewrite M2. apply Z.div_pos; [lia|apply pow2_pos; lia]. }
  set (q2 := shr_m r2) in *.
  assert (UpF : q2 * pw (ex + k1 + k2) <= B).
  { rewrite HG2. apply (mul_floor_le q2 (2 ^ k2) m1 _ B HG1pos F5 Up1). }
  destruct q2 as [|m|m] eqn:Eq2; try lia.
  - left. reflexivity.
  - right.
    assert (Hleb : (ex + k1 + k2 <=? emax - prec) = true)
      by (apply Z.leb_le; unfold emax, prec; lia).
    rewrite Hleb.
    exists m, (ex + k1 + k2). split; [reflexivity|]. split; [|exact He2].
    unfold V. lia.
Qed.

Lemma round_small (s : bool) (mx ex : Z) (lx : location) (g B : Z) :
  0 <= mx -> -1074 <= ex <= g -> g <= 971 ->
  (pw g | B) -> B < 2 ^ 53 * pw g ->
  (mx * pw ex < B \/ (lx = loc_Exact /\ mx * pw ex <= B)) ->
  small_SF B (binary_round_aux prec emax s mx ex lx) /\
  sign_SF (binary_round_aux prec emax s mx ex lx) = s.
Proof.
  intros Hmx Hex Hg HB HB53 Hup.
  destruct (round_le s mx ex lx g B Hmx Hex Hg HB HB53 Hup) as [E|(m & e & E & H & _)];
    rewrite E; simpl; auto.
Qed.

Lemma binary_round_small (s : bool) (M : positive) (ez g B : Z) :
  -1074 <= ez <= g -> g <= 971 ->
  (pw g | B) -> B < 2 ^ 53 * pw g ->
  V M ez <= B ->
  small_SF B (binary_round prec emax s M ez) /\
  sign_SF (binary_round prec emax s M ez) = s.
Proof.
  intros Hez Hg HB HB53 HV.
  unfold binary_round.
  destruct (shl_align_spec M ez (fexp prec emax (Zpos (digits2_pos M) + ez)))
    as (mz & E & Hmz).
  rewrite E.
  set (e' := Z.min ez (fexp prec emax (Zpos (digits2_pos M) + ez))) in *.
  assert (He' : -1074 <= e' <= ez) by (unfold e'; rewrite fexp_eq; lia).
  assert (HT : Zpos mz * pw e' = V M ez) by (rewrite Hmz; apply V_shift; lia).
  apply (round_small s (Zpos mz) e' loc_Exact g B); try assumption; try lia.
  right. split; [reflexivity|lia].
Qed.

Lemma binary_normalize_small (M ez g B : Z) (szero : bool) :
  -1074 <= ez <= g -> g <= 971 ->
  (pw g | B) -> 0 <= B < 2 ^ 53 * pw g ->
  Z.abs M * pw ez <= B ->
  small_SF B (binary_normalize prec emax M ez szero) /\
  (0 < M -> sign_SF (binary_normalize prec emax M ez szero) = false).
Proof.
  intros Hez Hg HB HB53 HV.
  unfold binary_normalize. destruct M as [|p|p].
  - simpl. split; [exact I|lia].
  - destruct (binary_round_small false p ez g B) as [H1 H2]; try assumption; try lia.
    split; [exact H1|intros _; exact H2].
  - destruct (binary_round_small true p ez g B) as [H1 H2]; try assumption; try lia.
    split; [exact H1|lia].
Qed.

(** Sums and differences of two numbers. *)
Lemma aligned_sum_small (mx my : positive) (ex ey g B : Z) (sx sy : bool) (op : Z -> Z -> Z) :
  (forall a b, Z.abs (op a b) <= Z.abs a + Z.abs b) ->
  -1074 <= ex <= g -> -1074 <= ey <= g -> g <= 971 ->
  (pw g | B) -> B < 2 ^ 53 * pw g ->
  V mx ex + V my ey <= B ->
  let ez := Z.min ex ey in
  let r := binary_normalize prec emax
             (op (cond_Zopp sx (Zpos (fst (shl_align mx ex ez))))
                 (cond_Zopp sy (Zpos (fst (shl_align my ey ez)))))
             ez false in
  small_SF B r /\
  ((forall a b, op a b = a + b) -> sx = false -> sy = false -> sign_SF r = false).
Proof.
  intros Hop Hex Hey Hg HB HB53 HV ez r. subst r.
  destruct (shl_align_spec mx ex ez) as (mx' & Ex & Hmx).
  destruct (shl_align_spec my ey ez) as (my' & Ey & Hmy).
  rewrite Ex, Ey. cbn [fst].
  replace (Z.min ex ez) with ez in Hmx by (unfold ez; lia).
  replace (Z.min ey ez) with ez in Hmy by (unfold ez; lia).
  assert (Hez : -1074 <= ez <= g) by (unfold ez; lia).
  assert (Hx : Zpos mx' * pw ez = V mx ex) by (rewrite Hmx; apply V_shift; unfold ez; lia).
  assert (Hy : Zpos my' * pw ez = V my ey) by (rewrite Hmy; apply V_shift; unfold ez; lia).
  assert (Hp : 0 < pw ez) by (apply pw_pos; lia).
  assert (HB0 : 0 <= B) by (rewrite <- Hx, <- Hy in HV; nia).
  set (M := op (cond_Zopp sx (Zpos mx')) (cond_Zopp sy (Zpos my'))).
  assert (HM : Z.abs M * pw ez <= B).
  { pose proof (Hop (cond_Zopp sx (Zpos mx')) (cond_Zopp sy (Zpos my'))) as H.
    fold M in H.
    assert (Z.abs (cond_Zopp sx (Zpos mx')) = Zpos mx') by (destruct sx; simpl; lia).
    assert (Z.abs (cond_Zopp sy (Zpos my')) = Zpos my') by (destruct sy; simpl; lia).
    nia. }
  destruct (binary_normalize_small M ez g B false) as [H1 H2]; try assumption; try lia.
  split; [exact H1|].
  intros Hplus -> ->. apply H2. unfold M. simpl cond_Zopp.
  rewrite Hplus. lia.
Qed.

Lemma SFadd_small (sx sy : bool) (mx my : positive) (ex ey g B : Z) :
  -1074 <= ex <= g -> -1074 <= ey <= g -> g <= 971 ->
  (pw g | B) -> B < 2 ^ 53 * pw g ->
  V mx ex + V my ey <= B ->
  small_SF B (SF64add (S754_finite sx mx ex) (S754_finite sy my ey)) /\
  (sx = false -> sy = false ->
   sign_SF (SF64add (S754_finite sx mx ex) (S754_finite sy my ey)) = false).
Proof.
  intros. unfold SF64add, SFadd.
  destruct (aligned_sum_small mx my ex ey g B sx sy Z.add) as [H5 H6];
    try assumption.
  - intros; lia.
  - split; [exact H5|]. apply H6. intros; reflexivity.
Qed.

Lemma SFsub_small (sx sy : bool) (mx my : positive) (ex ey g B : Z) :
  -1074 <= ex <= g -> -1074 <= ey <= g -> g <= 971 ->
  (pw g | B) -> B < 2 ^ 53 * pw g ->
  V mx ex + V my ey <= B ->
  small_SF B (SF64sub (S754_finite sx mx ex) (S754_finite sy my ey)).
Proof.
  intros. unfold SF64sub, SFsub.
  refine (proj1 (aligned_sum_small mx my ex ey g B sx sy Z.sub _ _ _ _ _ _ _));
    try assumption.
  intros; lia.
Qed.

Lemma pw_times (a b : Z) :
  -1074 <= a -> -1074 <= b -> -1074 <= a + b -> pw a * pw b = pw (a + b) * U.
Proof.
  intros Ha Hb Hab.
  pose proof (pw_mul (a + b) b ltac:(lia) Hb ltac:(lia)) as Q.
  replace (a + b - b) with a in Q by lia. exact Q.
Qed.

Lemma SFmul_small (sx sy : bool) (mx my : positive) (ex ey g B : Z) :
  -1074 <= ex -> -1074 <= ey -> -1074 <= ex + ey <= g -> g <= 971 ->
  (pw g | B) -> B < 2 ^ 53 * pw g ->
  V mx ex * V my ey <= B * U ->
  small_SF B (SF64mul (S754_finite sx mx ex) (S754_finite sy my ey)) /\
  sign_SF (SF64mul (S754_finite sx mx ex) (S754_finite sy my ey)) = xorb sx sy.
Proof.
  intros Hex Hey Hs Hg HB HB53 HV.
  unfold SF64mul, SFmul.
  pose proof U_pos as HU.
  assert (P : Zpos (mx * my) * pw (ex + ey) * U = V mx ex * V my ey).
  { unfold V. rewrite Pos2Z.inj_mul.
    replace (Zpos mx * pw ex * (Zpos my * pw ey))
      with (Zpos mx * Zpos my * (pw ex * pw ey)) by ring.
    rewrite pw_times by lia. ring. }
  apply (round_small _ _ _ loc_Exact g B); try assumption; try lia.
  right. split; [reflexivity|].
  apply (Zmult_le_reg_r _ _ U); [lia|]. rewrite P. exact HV.
Qed.

Lemma SFdiv_small (sx sy : bool) (mx my : positive) (ex ey g B : Z) :
  -1074 <= ex -> -1074 <= ey <= 0 -> -1074 <= g <= 971 ->
  (pw g | B) -> 0 <= B < 2 ^ 53 * pw g ->
  V mx ex * U <= B * V my ey ->
  small_SF B (SF64div (S754_finite sx mx ex) (S754_finite sy my ey)) /\
  sign_SF (SF64div (S754_finite sx mx ex) (S754_finite sy my ey)) = xorb sx sy.
Proof.
  intros Hex Hey Hg HB [HB0 HB53] Hhi.
  assert (HU : 0 < U) by (apply pw_pos; lia).
  assert (Hpx : 0 < pw ex) by (apply pw_pos; lia).
  assert (Hpy : 0 < pw ey) by (apply pw_pos; lia).
  assert (Hpg : 0 < pw g) by (apply pw_pos; lia).
  (* the magnitudes are at most [53 + g] binades apart *)
  assert (Hmag : Zpos (digits2_pos mx) + ex - (Zpos (digits2_pos my) + ey) <= 53 + g).
  { destruct (digits2_bounds mx) as [Lx _]. destruct (digits2_bounds my) as [_ Hy].
    assert (H1 : V mx ex * U < 2 ^ 53 * pw g * V my ey).
    { eapply Z.le_lt_trans; [exact Hhi|].
      apply Z.mul_lt_mono_pos_r; [unfold V; nia|exact HB53]. }
    assert (H2 : 2 ^ (Zpos (digits2_pos mx) - 1) * pw ex * U
                 < 2 ^ 53 * pw g * (2 ^ Zpos (digits2_pos my) * pw ey)).
    { eapply Z.le_lt_trans; [|eapply Z.lt_le_trans; [exact H1|]].
      - unfold V. apply Z.mul_le_mono_nonneg_r; [lia|].
        apply Z.mul_le_mono_nonneg_r; lia.
      - unfold V. apply Z.mul_le_mono_nonneg_l; [nia|].
        apply Z.mul_le_mono_nonneg_r; lia. }
    unfold U, pw in H2.
    rewrite <- !Z.pow_add_r in H2 by lia.
    apply Z.pow_lt_mono_r_iff in H2; lia. }
  unfold SF64div, SFdiv, SFdiv_core_binary. cbv zeta.
  simpl Zdigits2.
  set (e' := Z.min (fexp prec emax (Zpos (digits2_pos mx) + ex - (Zpos (digits2_pos my) + ey)))
                   (ex - ey)).
  assert (He' : -1074 <= e' <= g /\ e' <= ex - ey)
    by (unfold e'; rewrite fexp_eq; lia).
  remember (ex - ey - e') as s eqn:Es.
  assert (Hs : 0 <= s) by lia.
  remember (match s with
            | 0 => Zpos mx
            | Zpos _ => Z.shiftl (Zpos mx) s
            | Zneg _ => 0
            end) as m' eqn:Em'.
  assert (Hm' : m' = Zpos mx * 2 ^ s).
  { rewrite Em'. clear Em' Es. destruct s as [|p|p]; try lia.
    apply Z.shiftl_mul_pow2. lia. }
  clear Em'.
  assert (Hm'0 : 0 <= m') by (rewrite Hm'; pose proof (pow2_pos s Hs); nia).
  pose proof (Z_div_mod m' (Zpos my) ltac:(lia)) as D.
  destruct (Z.div_eucl m' (Zpos my)) as [q r]. destruct D as [D Hr].
  assert (HP : 0 < pw e') by (apply pw_pos; lia).
  assert (HX : V mx ex * U = (Zpos my * q + r) * pw e' * pw ey).
  { rewrite <- D, Hm'. unfold V.
    replace (Zpos mx * 2 ^ s * pw e' * pw ey)
      with (Zpos mx * (pw e' * 2 ^ s * pw ey)) by ring.
    rewrite <- pw_add by lia.
    replace (e' + s) with (ex - ey) by lia.
    rewrite pw_mul by lia. ring. }
  pose proof (div_cross_upper B q r (Zpos my) (pw e') (pw ey) _
                ltac:(lia) HP Hpy Hr HX Hhi) as [Up Up'].
  assert (Hq : 0 <= q) by nia.
  apply (round_small _ q e' _ g B); try assumption; try lia.
  destruct (Z.eq_dec r 0) as [->|Hne].
  - right. split; [apply new_location_0|exact Up].
  - left. apply Up'. lia.
Qed.

(** *** Square root *)

Lemma square_le (a b : Z) : 0 <= a -> 0 <= b -> a * a <= b * b -> a <= b.
Proof. intros. nia. Qed.

Lemma square_lt (a b : Z) : 0 <= a -> 0 <= b -> a * a < b * b -> a < b.
Proof. intros. nia. Qed.

Lemma SFsqrt_small (mx : positive) (ex g B : Z) :
  -1074 <= ex -> -1074 <= g <= 971 ->
  (pw g | B) -> 0 <= B < 2 ^ 53 * pw g ->
  V mx ex * U <= B * B ->
  small_SF B (SF64sqrt (S754_finite false mx ex)) /\
  sign_SF (SF64sqrt (S754_finite false mx ex)) = false.
Proof.
  intros Hex Hg HB [HB0 HB53] Hhi.
  assert (HU : 0 < U) by (apply pw_pos; lia).
  assert (Hpx : 0 < pw ex) by (apply pw_pos; lia).
  assert (Hpg : 0 < pw g) by (apply pw_pos; lia).
  unfold SF64sqrt, SFsqrt, SFsqrt_core_binary. cbv zeta.
  simpl Zdigits2.
  rewrite !Z.div2_div.
  set (d := Zpos (digits2_pos mx)).
  (* the root is below [2^(53+g)] *)
  assert (Hmag : (d + ex + 1) / 2 <= 53 + g).
  { destruct (digits2_bounds mx) as [Lx _]. fold d in Lx.
    assert (H1 : 2 ^ (d - 1) * pw ex * U < (2 ^ 53 * pw g) * (2 ^ 53 * pw g)).
    { eapply Z.le_lt_trans; [|eapply Z.le_lt_trans; [exact Hhi|]].
      - unfold V. apply Z.mul_le_mono_nonneg_r; [lia|].
        apply Z.mul_le_mono_nonneg_r; lia.
      - nia. }
    replace (2 ^ 53 * pw g * (2 ^ 53 * pw g))
      with (2 ^ 53 * 2 ^ 53 * (pw g * pw g)) in H1 by ring.
    unfold U, pw in H1.
    assert (Hd : 1 <= d) by (unfold d; lia).
    rewrite <- !Z.pow_add_r in H1 by lia.
    apply Z.pow_lt_mono_r_iff in H1; [|lia|lia].
    assert ((d + ex + 1) / 2 < 54 + g) by (apply Z.div_lt_upper_bound; lia).
    lia. }
  set (e' := Z.min (fexp prec emax ((d + ex + 1) / 2)) (ex / 2)).
  pose proof (Z.div_mod ex 2 ltac:(lia)) as Dx.
  pose proof (Z.mod_pos_bound ex 2 ltac:(lia)) as Mx.
  assert (He' : -1074 <= e' <= g /\ 2 * e' <= ex).
  { unfold e'. rewrite fexp_eq. lia. }
  remember (ex - 2 * e') as s eqn:Es.
  assert (Hs : 0 <= s) by lia.
  remember (match s with
            | 0 => Zpos mx
            | Zpos _ => Z.shiftl (Zpos mx) s
            | Zneg _ => 0
            end) as m' eqn:Em'.
  assert (Hm' : m' = Zpos mx * 2 ^ s).
  { rewrite Em'. clear Em' Es. destruct s as [|p|p]; try lia.
    apply Z.shiftl_mul_pow2. lia. }
  clear Em'.
  assert (Hm'0 : 0 <= m') by (rewrite Hm'; pose proof (pow2_pos s Hs); nia).
  pose proof (Z.sqrtrem_spec m' Hm'0) as R.
  destruct (Z.sqrtrem m') as [q r]. destruct R as [R Hr].
  assert (Hq : 0 <= q) by nia.
  assert (HP : 0 < pw e') by (apply pw_pos; lia).
  (* the square of the candidate *)
  assert (HX : m' * (pw e' * pw e') = V mx ex * U).
  { rewrite Hm'. unfold V, U, pw.
    replace (Zpos mx * 2 ^ s * (2 ^ (e' + 1074) * 2 ^ (e' + 1074)))
      with (Zpos mx * (2 ^ s * 2 ^ (e' + 1074) * 2 ^ (e' + 1074))) by ring.
    rewrite <- !Z.pow_add_r by lia.
    replace (Zpos mx * 2 ^ (ex + 1074) * 2 ^ (0 + 1074))
      with (Zpos mx * (2 ^ (ex + 1074) * 2 ^ (0 + 1074))) by ring.
    rewrite <- Z.pow_add_r by lia.
    do 2 f_equal. lia. }
  assert (Hsq : (q * pw e') * (q * pw e') + r * (pw e' * pw e') = V mx ex * U).
  { rewrite <- HX, R. ring. }
  apply (round_small false q e' _ g B); try assumption; try lia.
  destruct (Z.eqb_spec r 0) as [->|Hne].
  - right. split; [reflexivity|].
    apply square_le; nia.
  - left. apply square_lt; try nia.
Qed.

(** *** A rounded number is not zero *)

Lemma round_nonzero (s : bool) (mx ex : Z) (lx : location) :
  0 < mx -> (ex < -1074 -> 2 ^ (-1074 - ex) <= mx) ->
  forall z, binary_round_aux prec emax s mx ex lx <> S754_zero z.
Proof.
  intros Hmx Hlow z.
  unfold binary_round_aux, shr_fexp.
  (* a shift leaves a positive mantissa *)
  assert (Shift : forall m e l,
             0 < m -> (e < -1074 -> 2 ^ (-1074 - e) <= m) ->
             exists r k,
               shr (shr_record_of_loc m l) e (fexp prec emax (Zdigits2 m + e) - e)
               = (r, e + k) /\ 0 <= k /\ 0 < shr_m r /\ -1074 <= e + k).
  { intros m e l Hm Hl.
    destruct (shr_spec m e (fexp prec emax (Zdigits2 m + e) - e) l ltac:(lia))
      as (r & E & M & _).
    exists r, (Z.max (fexp prec emax (Zdigits2 m + e) - e) 0).
    split; [exact E|]. split; [lia|].
    rewrite fexp_eq in *.
    destruct (Zdigits2_bounds m Hm) as [Lo _].
    set (d := Zdigits2 m) in *.
    split; [|lia].
    rewrite M.
    set (k := Z.max (Z.max (d + e - 53) (-1074) - e) 0).
    assert (Hk : 0 <= k) by (unfold k; lia).
    apply Z.div_str_pos. split; [apply pow2_pos; exact Hk|].
    destruct (Z.le_gt_cases (d + e - 53) (-1074)) as [C|C].
    - (* the smallest exponent *)
      destruct (Z.le_gt_cases (-1074) e) as [C'|C'].
      + replace k with 0 by (unfold k; lia). simpl. lia.
      + replace k with (-1074 - e) by (unfold k; lia). apply Hl. lia.
    - destruct (Z.le_gt_cases d 53) as [C'|C'].
      + replace k with 0 by (unfold k; lia). simpl. lia.
      + replace k with (d - 53) by (unfold k; lia).
        eapply Z.le_trans; [|exact Lo]. apply Z.pow_le_mono_r; lia. }
  destruct (Shift mx ex lx Hmx Hlow) as (r1 & k1 & E1 & Hk1 & Hr1 & He1).
  rewrite E1. cbv beta iota.
  destruct (round_nearest_even_bounds (shr_m r1) (loc_of_shr_record r1)) as [R1 _].
  destruct (Shift (round_nearest_even (shr_m r1) (loc_of_shr_record r1)) (ex + k1) loc_Exact)
    as (r2 & k2 & E2 & Hk2 & Hr2 & He2); [lia|lia|].
  rewrite E2. cbv beta iota.
  destruct (shr_m r2) as [|m|m]; try lia.
  destruct (_ <=? _); discriminate.
Qed.

Lemma valid_exp_grid (s : bool) (m : positive) (e g : Z) :
  valid_binary (S754_finite s m e) = true ->
  -1074 <= g ->
  V m e < 2 ^ 53 * pw g ->
  -1074 <= e <= g.
Proof.
  intros Hv Hg Hlt. apply valid_canonical in Hv.
  split; [lia|].
  destruct (Z.le_gt_cases e g) as [H|H]; [exact H|exfalso].
  destruct (digits2_bounds m) as [Hlo _].
  assert (D : Zpos (digits2_pos m) = 53) by lia.
  rewrite D in Hlo. change (2 ^ (53 - 1)) with 4503599627370496 in Hlo.
  pose proof (pw_mono g e ltac:(lia) ltac:(lia)) as Hp.
  unfold V in Hlt.
  assert (0 < pw g) by (apply pw_pos; lia).
  change (2 ^ 53) with 9007199254740992 in Hlt. nia.
Qed.

End Round64.

(** ** Arithmetic on numbers of bounded magnitude *)

Module SmallFacts.

Import Binary64 Binary64Facts Magnitude Round64.

Lemma small_cases (B : Z) (x : float) :
  small B x ->
  (exists s, Prim2SF x = S754_zero s) \/
  (exists s m e, Prim2SF x = S754_finite s m e /\ V m e <= B).
Proof.
  unfold small. destruct (Prim2SF x) as [s|s| |s m e]; simpl; intro H;
    try contradiction.
  - left. exists s. reflexivity.
  - right. exists s, m, e. split; [reflexivity|exact H].
Qed.

Lemma small_weaken (A B : Z) (x : float) : A <= B -> small A x -> small B x.
Proof.
  unfold small. destruct (Prim2SF x); simpl; try tauto. lia.
Qed.

Lemma small_not_nan (B : Z) (x : float) : small B x -> x <> nan.
Proof. intros H E. subst x. exact H. Qed.

Lemma small_exp (B g : Z) (x : float) (s : bool) (m : positive) (e : Z) :
  -1074 <= g -> B < 2 ^ 53 * pw g ->
  Prim2SF x = S754_finite s m e -> V m e <= B ->
  -1074 <= e <= g.
Proof.
  intros Hg HB E HV.
  pose proof (Prim2SF_valid x) as Hv. rewrite E in Hv.
  apply (valid_exp_grid s m e g Hv Hg). lia.
Qed.

Lemma grid_mul (g t : Z) : (pw g | t * pw g).
Proof. exists t. reflexivity. Qed.

Lemma grid_lt (g t : Z) : -1074 <= g -> t < 2 ^ 53 -> t * pw g < 2 ^ 53 * pw g.
Proof.
  intros Hg Ht. apply Z.mul_lt_mono_pos_r; [apply pw_pos; lia|exact Ht].
Qed.

Lemma add_small (g a b : Z) (x y : float) :
  -1074 <= g <= 971 -> 0 <= a -> 0 <= b -> a + b < 2 ^ 53 ->
  small (a * pw g) x -> small (b * pw g) y ->
  small ((a + b) * pw g) (x + y)%float /\
  (nonneg x -> nonneg y -> nonneg (x + y)%float).
Proof.
  intros Hg Ha Hb Hab Hx Hy.
  assert (Hp : 0 < pw g) by (apply pw_pos; lia).
  unfold small, nonneg in *. rewrite add_spec.
  destruct (Prim2SF x) as [sx|sx| |sx mx ex] eqn:Ex; simpl in Hx; try contradiction;
    destruct (Prim2SF y) as [sy|sy| |sy my ey] eqn:Ey; simpl in Hy; try contradiction.
  - simpl. destruct sx, sy; simpl; split; auto; intros; congruence.
  - simpl. split; [nia|auto].
  - simpl. split; [nia|auto].
  - pose proof (small_exp _ g x sx mx ex ltac:(lia) (grid_lt g a ltac:(lia) ltac:(lia)) Ex Hx).
    pose proof (small_exp _ g y sy my ey ltac:(lia) (grid_lt g b ltac:(lia) ltac:(lia)) Ey Hy).
    apply SFadd_small with (g := g); try lia.
    + apply grid_mul.
    + apply grid_lt; lia.
Qed.

Lemma sub_small (g a b : Z) (x y : float) :
  -1074 <= g <= 971 -> 0 <= a -> 0 <= b -> a + b < 2 ^ 53 ->
  small (a * pw g) x -> small (b * pw g) y ->
  small ((a + b) * pw g) (x - y)%float.
Proof.
  intros Hg Ha Hb Hab Hx Hy.
  assert (Hp : 0 < pw g) by (apply pw_pos; lia).
  unfold small in *. rewrite sub_spec.
  destruct (Prim2SF x) as [sx|sx| |sx mx ex] eqn:Ex; simpl in Hx; try contradiction;
    destruct (Prim2SF y) as [sy|sy| |sy my ey] eqn:Ey; simpl in Hy; try contradiction.
  - simpl. destruct sx, sy; simpl; auto.
  - simpl. nia.
  - simpl. nia.
  - pose proof (small_exp _ g x sx mx ex ltac:(lia) (grid_lt g a ltac:(lia) ltac:(lia)) Ex Hx).
    pose proof (small_exp _ g y sy my ey ltac:(lia) (grid_lt g b ltac:(lia) ltac:(lia)) Ey Hy).
    apply SFsub_small with (g := g); try lia.
    + apply grid_mul.
    + apply grid_lt; lia.
Qed.

(** Halving. *)
Lemma half_small (g a : Z) (x : float) :
  -1074 <= g <= 971 -> 0 <= a < 2 ^ 53 ->
  small (a * pw g) x -> small (a * pw g) (x / 2)%float.
Proof.
  intros Hg Ha Hx.
  assert (Hp : 0 < pw g) by (apply pw_pos; lia).
  unfold small in *. rewrite div_spec.
  change (Prim2SF 2) with (S754_finite false 4503599627370496 (-51)).
  destruct (Prim2SF x) as [sx|sx| |sx mx ex] eqn:Ex; simpl in Hx; try contradiction.
  - exact I.
  - pose proof (small_exp _ g x sx mx ex ltac:(lia) (grid_lt g a ltac:(lia) ltac:(lia)) Ex Hx).
    apply SFdiv_small with (g := g); try lia.
    + apply grid_mul.
    + split; [nia|apply grid_lt; lia].
    + assert (E2 : V 4503599627370496 (-51) = 2 * U) by reflexivity.
      rewrite E2. pose proof U_pos. nia.
Qed.

(** *** The numbers of a [Float32Array] *)

Lemma float32_cases (x : float) :
  float32_range x = true ->
  (exists s, Prim2SF x = S754_zero s) \/
  (exists s m e, Prim2SF x = S754_finite s m e /\ -201 <= e <= 75 /\ V m e <= pw 128).
Proof.
  unfold float32_range. intro H. apply orb_true_iff in H. destruct H as [H|H].
  - left. unfold is_zero in H. rewrite eqb_spec in H.
    change (Prim2SF zero) with (S754_zero false) in H.
    destruct (Prim2SF x) as [s|s| |s m e]; try (exists s; reflexivity);
      try (destruct s; discriminate); discriminate.
  - right. apply andb_true_iff in H. destruct H as [H1 H2].
    rewrite leb_spec, abs_spec in H1, H2.
    change (Prim2SF 0x1p-149) with (S754_finite false 4503599627370496 (-201)) in H1.
    change (Prim2SF 0x1.fffffep+127) with (S754_finite false 9007198717870080 75) in H2.
    pose proof (Prim2SF_valid x) as Hv.
    destruct (Prim2SF x) as [s|s| |s m e] eqn:E; try discriminate.
    exists s, m, e. split; [reflexivity|].
    simpl SFabs in H1, H2.
    assert (Hv' : valid_binary (S754_finite false m e) = true) by exact Hv.
    apply SFleb_V in H1; [|reflexivity|exact Hv'].
    apply SFleb_V in H2; [|exact Hv'|reflexivity].
    assert (Hhi : V 9007198717870080 75 < 2 ^ 53 * pw 75).
    { unfold V. apply Z.mul_lt_mono_pos_r; [apply pw_pos; lia|reflexivity]. }
    pose proof (valid_exp_grid false m e 75 Hv' ltac:(lia) ltac:(lia)) as He.
    assert (H128 : 2 ^ 53 * pw 75 = pw 128).
    { replace 128 with (75 + 53) by lia. rewrite pw_add by lia. ring. }
    split; [|lia].
    split; [|lia].
    destruct (Z.le_gt_cases (-201) e) as [C|C]; [exact C|exfalso].
    destruct (valid_canonical false m e Hv') as [Hc _].
    destruct (digits2_bounds m) as [_ Hm].
    assert (Hm' : Zpos m < 2 ^ 53).
    { eapply Z.lt_le_trans; [exact Hm|]. apply Z.pow_le_mono_r; lia. }
    assert (Hlo : V 4503599627370496 (-201) = 2 ^ 52 * pw (-201)) by reflexivity.
    rewrite Hlo in H1.
    assert (Hpe : pw (-201) = pw e * 2 ^ (-201 - e)).
    { rewrite <- pw_add by lia. f_equal. lia. }
    assert (2 <= 2 ^ (-201 - e)).
    { change 2 with (2 ^ 1) at 1. apply Z.pow_le_mono_r; lia. }
    assert (0 < pw e) by (apply pw_pos; lia).
    unfold V in H1. rewrite Hpe in H1.
    change (2 ^ 52) with 4503599627370496 in H1.
    change (2 ^ 53) with 9007199254740992 in Hm'.
    nia.
Qed.

Lemma float32_mul (x y : float) :
  float32_range x = true -> float32_range y = true -> small (1 * pw 256) (x * y)%float.
Proof.
  intros Hx Hy. unfold small. rewrite mul_spec.
  destruct (float32_cases x Hx) as [(sx & Ex)|(sx & mx & ex & Ex & Hex & Vx)];
    destruct (float32_cases y Hy) as [(sy & Ey)|(sy & my & ey & Ey & Hey & Vy)];
    rewrite Ex, Ey; try exact I.
  apply SFmul_small with (g := 256); try lia.
  - apply grid_mul.
  - apply grid_lt; lia.
  - assert (P : pw 128 * pw 128 = pw 256 * U) by (apply (pw_times 128 128); lia).
    assert (0 < V mx ex) by (unfold V; pose proof (pw_pos ex ltac:(lia)); nia).
    assert (0 < V my ey) by (unfold V; pose proof (pw_pos ey ltac:(lia)); nia).
    rewrite Z.mul_1_l, <- P. nia.
Qed.

End SmallFacts.

(** ** The estimate of audio data is a number *)

Module EstimateFacts.

Import Binary64 Binary64Facts Magnitude Round64 SmallFacts.

Lemma Forall_firstn {A : Type} (P : A -> Prop) (n : nat) (l : list A) :
  Forall P l -> Forall P (firstn n l).
Proof.
  intro H. revert n. induction H as [|x l Hx Hl IH]; intro n.
  - rewrite firstn_nil. constructor.
  - destruct n; simpl; constructor; auto.
Qed.

Lemma Forall_skipn {A : Type} (P : A -> Prop) (n : nat) (l : list A) :
  Forall P l -> Forall P (skipn n l).
Proof.
  intro H. revert n. induction H as [|x l Hx Hl IH]; intro n.
  - rewrite skipn_nil. constructor.
  - destruct n; simpl; [constructor; assumption|apply IH].
Qed.

Lemma trim_float32 (buffer : list float) :
  Forall (fun x => float32_range x = true) buffer ->
  Forall (fun x => float32_range x = true) (trim buffer) /\
  (length (trim buffer) <= length buffer)%nat.
Proof.
  intro H. unfold trim, JS.slice. split.
  - apply Forall_firstn, Forall_skipn, H.
  - rewrite length_firstn, length_skipn. lia.
Qed.

Lemma get_float32 (buffer : list float) (j : Z) :
  Forall (fun x => float32_range x = true) buffer ->
  0 <= j < Z.of_nat (length buffer) ->
  float32_range (JS.ToNumber (JS.get buffer j)) = true.
Proof.
  intros H Hj. destruct (get_inside buffer j Hj) as (x & E). rewrite E.
  unfold JS.get in E. destruct (j <? 0); [discriminate|].
  apply nth_error_In in E. rewrite Forall_forall in H. exact (H x E).
Qed.

(** The sum of [k] products of samples. *)
Lemma products_small (buffer : list float) (i : Z) :
  Forall (fun x => float32_range x = true) buffer ->
  0 <= i ->
  forall (l : list Z) (acc : float) (k : Z),
    0 <= k -> k + Z.of_nat (length l) < 2 ^ 53 ->
    (forall j, In j l -> 0 <= j /\ j + i < Z.of_nat (length buffer)) ->
    small (k * pw 256) acc ->
    small ((k + Z.of_nat (length l)) * pw 256)
          (fold_left
             (fun ci j =>
                (ci + JS.ToNumber (JS.get buffer j)
                      * JS.ToNumber (JS.get buffer (j + i)))%float)
             l acc).
Proof.
  intros Hb Hi l. induction l as [|j l IH]; intros acc k Hk Hlen Hl Hacc.
  - simpl. rewrite Z.add_0_r. exact Hacc.
  - cbn [fold_left length] in *.
    destruct (Hl j (or_introl eq_refl)) as [H1 H2].
    replace (k + Z.of_nat (S (length l))) with ((k + 1) + Z.of_nat (length l)) by lia.
    apply IH; try lia.
    + intros j' Hj'. apply Hl. right. exact Hj'.
    + apply add_small; try lia; [exact Hacc|].
      apply float32_mul; apply get_float32; try assumption; lia.
Qed.

Lemma range_length (lo hi : Z) : length (JS.range lo hi) = Z.to_nat (hi - lo).
Proof. unfold JS.range. rewrite length_map, length_seq. reflexivity. Qed.

Lemma range_In (lo hi j : Z) : In j (JS.range lo hi) -> lo <= j < hi.
Proof.
  unfold JS.range. intro H. apply in_map_iff in H. destruct H as (k & <- & Hk).
  apply in_seq in Hk. lia.
Qed.

Lemma autocorrelation_small (buffer : list float) (i : Z) (x : float) :
  Forall (fun x => float32_range x = true) buffer ->
  Z.of_nat (length buffer) < 2 ^ 53 ->
  JS.get (autocorrelation buffer) i = Some x ->
  small (Z.of_nat (length buffer) * pw 256) x.
Proof.
  intros Hb Hlen E.
  unfold JS.get in E. destruct (i <? 0); [discriminate|].
  unfold autocorrelation in E.
  rewrite nth_error_map in E.
  destruct (nth_error (JS.range 0 (Z.of_nat (length buffer))) (Z.to_nat i)) as [k|] eqn:Ek;
    [|discriminate].
  injection E as <-.
  apply nth_error_In, range_In in Ek.
  set (M := Z.of_nat (length buffer)) in *.
  pose proof (products_small buffer k Hb ltac:(lia) (JS.range 0 (M - k)) 0%float 0) as P.
  rewrite range_length in P.
  assert (Hp : 0 < pw 256) by (apply pw_pos; lia).
  eapply small_weaken; [|apply P].
  - apply Z.mul_le_mono_nonneg_r; lia.
  - lia.
  - lia.
  - intros j Hj. apply range_In in Hj. fold M. lia.
  - exact I.
Qed.

(** *** Operations that never give NaN *)

Lemma round_not_nan (s : bool) (mx ex : Z) (lx : location) :
  0 <= mx -> binary_round_aux prec emax s mx ex lx <> S754_nan.
Proof.
  intro Hmx. unfold binary_round_aux, shr_fexp.
  destruct (shr_spec mx ex (fexp prec emax (Zdigits2 mx + ex) - ex) lx Hmx)
    as (r1 & E1 & M1 & _).
  rewrite E1. cbv beta iota.
  destruct (round_nearest_even_bounds (shr_m r1) (loc_of_shr_record r1)) as [R1 _].
  assert (H1 : 0 <= shr_m r1).
  { rewrite M1. apply Z.div_pos; [lia|]. apply Z.pow_pos_nonneg; lia. }
  set (m1 := round_nearest_even (shr_m r1) (loc_of_shr_record r1)) in *.
  set (e1 := ex + Z.max (fexp prec emax (Zdigits2 mx + ex) - ex) 0) in *.
  destruct (shr_spec m1 e1 (fexp prec emax (Zdigits2 m1 + e1) - e1) loc_Exact ltac:(lia))
    as (r2 & E2 & M2 & _).
  rewrite E2. cbv beta iota.
  assert (H2 : 0 <= shr_m r2).
  { rewrite M2. apply Z.div_pos; [lia|]. apply Z.pow_pos_nonneg; lia. }
  destruct (shr_m r2) as [|m|m]; [discriminate| |lia].
  destruct (_ <=? _); discriminate.
Qed.

Lemma SFdiv_not_nan (sx sy : bool) (mx my : positive) (ex ey : Z) :
  SF64div (S754_finite sx mx ex) (S754_finite sy my ey) <> S754_nan.
Proof.
  unfold SF64div, SFdiv, SFdiv_core_binary. cbv zeta.
  match goal with
  | |- context [Z.div_eucl ?a ?b] =>
      pose proof (Z_div_mod a b ltac:(lia)) as D;
      assert (Ha : 0 <= a);
      [|destruct (Z.div_eucl a b) as [q r]]
  end.
  { match goal with |- 0 <= match ?s with _ => _ end => destruct s end;
      try lia. apply Z.shiftl_nonneg. lia. }
  destruct D as [D Hr].
  apply round_not_nan. nia.
Qed.

Lemma SFsub_not_nan (sx sy : bool) (mx my : positive) (ex ey : Z) :
  SF64sub (S754_finite sx mx ex) (S754_finite sy my ey) <> S754_nan.
Proof.
  unfold SF64sub, SFsub. cbv zeta. unfold binary_normalize.
  destruct (_ - _) as [|p|p]; [discriminate| |];
    unfold binary_round;
    destruct (shl_align _ _ _) as [mz ez]; apply round_not_nan; lia.
Qed.

(** A number, neither NaN nor an infinity. *)
Lemma audio_rate_finite (sampleRate : float) :
  audio_rate sampleRate = true ->
  exists m e, Prim2SF sampleRate = S754_finite false m e.
Proof.
  unfold audio_rate. intro H. apply andb_true_iff in H. destruct H as [H1 H2].
  rewrite ltb_spec in H1, H2.
  change (Prim2SF 0) with (S754_zero false) in H1.
  change (Prim2SF infinity) with (S754_infinity false) in H2.
  destruct (Prim2SF sampleRate) as [s|s| |s m e]; try discriminate;
    destruct s; try discriminate.
  exists m, e. reflexivity.
Qed.

Lemma rate_div_not_nan (sampleRate y : float) :
  audio_rate sampleRate = true -> y <> nan -> (sampleRate / y)%float <> nan.
Proof.
  intros Hr Hy E.
  destruct (audio_rate_finite _ Hr) as (m & e & Es).
  apply (f_equal Prim2SF) in E. rewrite div_spec, Es in E.
  change (Prim2SF nan) with S754_nan in E.
  apply FloatFacts.not_nan_SF in Hy.
  destruct (Prim2SF y) as [s|s| |s my ey]; try discriminate; try congruence.
  exact (SFdiv_not_nan _ _ _ _ _ _ E).
Qed.

Lemma small_sub_not_nan (B : Z) (x y : float) :
  small B x -> y <> nan -> (x - y)%float <> nan.
Proof.
  intros Hx Hy E.
  apply (f_equal Prim2SF) in E. rewrite sub_spec in E.
  change (Prim2SF nan) with S754_nan in E.
  apply FloatFacts.not_nan_SF in Hy. unfold small in Hx.
  destruct (Prim2SF x) as [sx|sx| |sx mx ex]; simpl in Hx; try contradiction;
    destruct (Prim2SF y) as [sy|sy| |sy my ey]; try congruence;
    try discriminate.
  - simpl in E. destruct sx, sy; discriminate.
  - exact (SFsub_not_nan _ _ _ _ _ _ E).
Qed.

(** [b / d] for a small [b] and a [d] that is neither NaN nor a zero. *)
Lemma small_div_not_nan (B : Z) (b d : float) :
  small B b -> d <> nan -> (forall s, Prim2SF d <> S754_zero s) ->
  (b / d)%float <> nan.
Proof.
  intros Hb Hd Hz E.
  apply (f_equal Prim2SF) in E. rewrite div_spec in E.
  change (Prim2SF nan) with S754_nan in E.
  apply FloatFacts.not_nan_SF in Hd. unfold small in Hb.
  destruct (Prim2SF b) as [sx|sx| |sx mx ex]; simpl in Hb; try contradiction;
    destruct (Prim2SF d) as [sy|sy| |sy my ey]; try congruence;
    try discriminate.
  exact (SFdiv_not_nan _ _ _ _ _ _ E).
Qed.

(** Twice a number that passes [if (a)]. *)
Lemma twice_truthy (a : float) :
  JS.truthy a = true ->
  (2 * a)%float <> nan /\ forall s, Prim2SF (2 * a)%float <> S754_zero s.
Proof.
  unfold JS.truthy, is_nan, is_zero. intro H.
  apply negb_true_iff, orb_false_iff in H. destruct H as [H1 H2].
  apply negb_false_iff in H1. rewrite eqb_spec in H1, H2.
  change (Prim2SF zero) with (S754_zero false) in H2.
  pose proof (Prim2SF_valid a) as Hv.
  assert (C : forall r, Prim2SF (2 * a)%float = r -> r <> S754_nan /\ forall s, r <> S754_zero s).
  { intros r <-. rewrite mul_spec.
    change (Prim2SF 2) with (S754_finite false 4503599627370496 (-51)).
    destruct (Prim2SF a) as [s|s| |s m e]; try discriminate.
    - simpl. split; discriminate.
    - unfold SF64mul, SFmul. split.
      + apply round_not_nan. lia.
      + apply round_nonzero; [lia|].
        destruct (valid_canonical s m e Hv) as [Hc _].
        intro Hlt.
        apply Z.le_trans with (2 ^ 51).
        * apply Z.pow_le_mono_r; lia.
        * change (2 ^ 51) with 2251799813685248. lia. }
  destruct (C _ eq_refl) as [C1 C2]. split; [|exact C2].
  intro E. apply C1. rewrite E. reflexivity.
Qed.

Lemma ToNumber_small (B : Z) (c : list float) (i : Z) :
  (forall j x, JS.get c j = Some x -> small B x) ->
  JS.ToNumber (JS.get c i) <> nan ->
  small B (JS.ToNumber (JS.get c i)) /\ 0 <= i < Z.of_nat (length c).
Proof.
  intros Hc Hn. destruct (JS.get c i) as [x|] eqn:E.
  - split; [exact (Hc i x E)|exact (get_bounds c i x E)].
  - exfalso. apply Hn. reflexivity.
Qed.

Lemma of_Z_not_nan (T0 : Z) : -1 <= T0 < 2 ^ 53 -> JS.of_Z T0 <> nan.
Proof.
  intros H E.
  destruct (Z.eq_dec T0 (-1)) as [->|H1]; [vm_compute in E; discriminate|].
  destruct (Z.eq_dec T0 0) as [->|H0]; [vm_compute in E; discriminate|].
  destruct (of_Z_between T0 ltac:(lia)) as (m & e & Em & _).
  rewrite E in Em. discriminate.
Qed.

Lemma of_Z_small (T0 : Z) : 1 <= T0 < 2 ^ 53 -> small (T0 * U) (JS.of_Z T0).
Proof.
  intro H. destruct (of_Z_between T0 H) as (m & e & Em & Hb).
  unfold small. rewrite Em. simpl. lia.
Qed.

(** Lines 88-98 on a correlation array of numbers. *)
Lemma refine_not_nan (c : list float) (sampleRate : float) (T0 n : Z) :
  0 <= n -> 2 * n < 2 ^ 53 ->
  (forall j x, JS.get c j = Some x -> small (n * pw 256) x) ->
  Z.of_nat (length c) < 2 ^ 53 ->
  audio_rate sampleRate = true ->
  -1 <= T0 < 2 ^ 53 ->
  refine c sampleRate T0 <> nan.
Proof.
  intros Hn Hn2 Hc Hlen Hr HT.
  unfold refine. cbv zeta.
  set (x1 := JS.ToNumber (JS.get c (T0 - 1))).
  set (x2 := JS.ToNumber (JS.get c T0)).
  set (x3 := JS.ToNumber (JS.get c (T0 + 1))).
  set (a := ((x1 + x3 - 2 * x2) / 2)%float).
  destruct (JS.truthy a) eqn:Ta.
  - (* the refinement *)
    assert (Ha : a <> nan).
    { intro E. rewrite E, FloatFacts.truthy_nan in Ta. discriminate. }
    assert (H1 : x1 <> nan).
    { intro E. apply Ha. unfold a. rewrite E.
      rewrite FloatFacts.add_nan_l, FloatFacts.sub_nan_l, FloatFacts.div_nan_l.
      reflexivity. }
    assert (H3 : x3 <> nan).
    { intro E. apply Ha. unfold a. rewrite E.
      rewrite FloatFacts.add_nan_r, FloatFacts.sub_nan_l, FloatFacts.div_nan_l.
      reflexivity. }
    destruct (ToNumber_small _ c (T0 - 1) Hc H1) as [S1 B1].
    destruct (ToNumber_small _ c (T0 + 1) Hc H3) as [S3 _].
    fold x1 in S1. fold x3 in S3.
    assert (Sb : small ((n + n) * pw 256) ((x3 - x1) / 2)%float).
    { apply half_small; try lia. apply sub_small; try lia; assumption. }
    destruct (twice_truthy a Ta) as [D1 D2].
    pose proof (small_div_not_nan _ _ _ Sb D1 D2) as Q.
    apply rate_div_not_nan; [exact Hr|].
    apply (small_sub_not_nan (T0 * U)); [|exact Q].
    apply of_Z_small. lia.
  - apply rate_div_not_nan; [exact Hr|]. apply of_Z_not_nan. exact HT.
Qed.

(** Lines 75-82 leave -1 or an index of the array. *)
Lemma peak_range (c : list float) (d : Z) :
  snd (peak c d) = -1 \/ 0 <= snd (peak c d) < Z.of_nat (length c).
Proof.
  unfold peak.
  assert (G : forall l mv mp,
             (mp = -1 \/ 0 <= mp < Z.of_nat (length c)) ->
             let r := fold_left
                        (fun '(maxval, maxpos) i =>
                           if JS.gt (JS.ToNumber (JS.get c i)) maxval
                           then (JS.ToNumber (JS.get c i), i)
                           else (maxval, maxpos)) l (mv, mp) in
             snd r = -1 \/ 0 <= snd r < Z.of_nat (length c)).
  { induction l as [|i l IH]; intros mv mp H; [exact H|].
    cbn [fold_left].
    destruct (JS.gt (JS.ToNumber (JS.get c i)) mv) eqn:E; [|apply IH; exact H].
    apply IH. right.
    unfold JS.gt in E. apply FloatFacts.ltb_true_not_nan in E. destruct E as [_ E].
    destruct (JS.get c i) as [x|] eqn:Eg; [|exfalso; apply E; reflexivity].
    exact (get_bounds c i x Eg). }
  apply G. left. reflexivity.
Qed.

(** The estimate of audio data at the rate of an audio context is a
    number, never NaN. *)
Lemma autoCorrelate_not_nan (dataArray : list float) (sampleRate : float) :
  audio_data dataArray -> audio_rate sampleRate = true ->
  exists frequency,
    autoCorrelate dataArray sampleRate = Ok frequency /\ frequency <> nan.
Proof.
  intros [Hd Hlen] Hr. unfold max_array_length in Hlen.
  rewrite autoCorrelate_unfold.
  destruct (rms_of dataArray <? 0.01)%float.
  { eexists. split; [reflexivity|]. intro E. vm_compute in E. discriminate. }
  unfold T0_of, correlation. cbv zeta.
  destruct (trim_float32 dataArray Hd) as [Ht Hl].
  set (buffer := trim dataArray) in *.
  set (c := autocorrelation buffer).
  assert (Lc : length c = length buffer).
  { unfold c, autocorrelation. rewrite length_map, range_length. lia. }
  destruct (skip_slope_spec c (S (length c)) 0) as (d & E & _); try lia.
  rewrite E. cbn [bind].
  eexists. split; [reflexivity|].
  apply (refine_not_nan c sampleRate _ (Z.of_nat (length buffer))); try lia.
  - intros j x Hx. apply (autocorrelation_small buffer j x Ht); [lia|exact Hx].
  - exact Hr.
  - destruct (peak_range c d) as [->|H]; lia.
Qed.

End EstimateFacts.

(** ** The history of a detector that listens *)

Lemma listening_reachable (this : PitchDetector) : listening this -> reachable this.
Proof.
  induction 1; [apply reach_new|apply reach_detectPitch|apply reach_reset
                |apply reach_setSensitivity]; assumption.
Qed.

Lemma listening_numbers (this : PitchDetector) :
  listening this ->
  audio_rate (sampleRate this) = true /\
  Forall (fun f => f <> nan) (pitchHistory this).
Proof.
  induction 1 as [sr Hr|this d _ [IHr IHh] Hd|this _ [IHr IHh]|this s _ [IHr IHh] Hs].
  - split; [exact Hr|constructor].
  - destruct (EstimateFacts.autoCorrelate_not_nan d (sampleRate this) Hd IHr)
      as (f & Hf & Nf).
    rewrite (detectPitch_track _ _ _ Hf).
    destruct (track_fields this f) as (-> & _).
    split; [exact IHr|].
    destruct (track_suffix this f) as (pre & E).
    assert (A : Forall (fun f => f <> nan) (pitchHistory this ++ [f])).
    { apply Forall_app. split; [exact IHh|]. constructor; [exact Nf|constructor]. }
    rewrite E in A. apply Forall_app in A. exact (proj2 A).
  - split; [exact IHr|constructor].
  - split.
    + unfold setSensitivity.
      destruct (s_historySize s), (s_pitchTolerance s); exact IHr.
    + unfold setSensitivity.
      destruct (s_historySize s), (s_pitchTolerance s); constructor.
Qed.

(** C7: in a program that listens (a detector built for the sample rate of
    an audio context, fed the data of an analyser, which is a
    [Float32Array] of numbers with no infinity and no NaN, reset, and
    re-tuned with valid settings), after every operation the history has
    at most [historySize] entries and every entry lies in [60, 1000].  The
    history is empty right after [reset] and [setSensitivity].  The
    estimate of a frame is a number, never NaN: when it is out of range
    [detectPitch] empties the history, and only when it is in range is it
    appended. *)
Theorem detectPitch_history_in_range (this : PitchDetector) :
  listening this ->
  Z.of_nat (length (pitchHistory this)) <= historySize this /\
  Forall (fun f => in_range f = true) (pitchHistory this) /\
  pitchHistory (reset this) = [] /\
  (forall s, pitchHistory (setSensitivity this s) = []) /\
  (forall dataArray,
      audio_data dataArray ->
      exists frequency,
        autoCorrelate dataArray (sampleRate this) = Ok frequency /\
        frequency <> nan /\
        (in_range frequency = false ->
         pitchHistory (fst (detectPitch this dataArray)) = []) /\
        (in_range frequency = true ->
         exists h, pitchHistory (fst (detectPitch this dataArray)) = h ++ [frequency])).
Proof.
  intro L.
  destruct (reachable_hist_ok this (listening_reachable this L)) as (Hn & Hlen & Hall).
  destruct (listening_numbers this L) as [Hr Hnum].
  split; [exact Hlen|]. split.
  { rewrite Forall_forall in *. intros f Hf.
    apply accepted_in_range; [exact (Hall f Hf)|exact (Hnum f Hf)]. }
  split; [reflexivity|]. split.
  { intro s. unfold setSensitivity.
    destruct (s_historySize s), (s_pitchTolerance s); reflexivity. }
  intros d Hd.
  destruct (EstimateFacts.autoCorrelate_not_nan d (sampleRate this) Hd Hr) as (f & Hf & Nf).
  exists f. split; [exact Hf|]. split; [exact Nf|].
  rewrite (detectPitch_track _ _ _ Hf). split.
  - intro Hout.
    destruct (gate f) eqn:G.
    + rewrite (track_rejected _ _ G). reflexivity.
    + rewrite (accepted_in_range f G Nf) in Hout. discriminate.
  - intro Hin.
    rewrite (track_accepted _ _ (in_range_accepted f Hin)). cbn [fst set_pitchHistory pitchHistory].
    apply push_shift_last. lia.
Qed.

Lemma detectPitch_history_in_range_witness :
  Forall (fun f => in_range f = true)
         (pitchHistory (fst (detectPitch (new_PitchDetector 880%float) tone))) /\
  pitchHistory (fst (detectPitch (new_PitchDetector 880%float) tone)) = [220%float].
Proof.
  split; [|reflexivity].
  refine (proj1 (proj2 (detectPitch_history_in_range _ _))).
  apply listen_detectPitch.
  - apply listen_new. reflexivity.
  - split.
    + repeat constructor.
    + unfold max_array_length. simpl. lia.
Defined.

(** ** Two clicks and silence between them *)

Lemma get_cons (x : float) (l : list float) (i : Z) :
  0 < i -> JS.get (x :: l) i = JS.get l (i - 1).
Proof.
  intro H. unfold JS.get.
  destruct (Z.ltb_spec i 0); [lia|]. destruct (Z.ltb_spec (i - 1) 0); [lia|].
  replace (Z.to_nat i) with (S (Z.to_nat (i - 1))) by lia. reflexivity.
Qed.

Lemma get_repeat (x : float) (n : nat) (l : list float) (i : Z) :
  0 <= i < Z.of_nat n -> JS.get (repeat x n ++ l) i = Some x.
Proof.
  intro H. unfold JS.get. destruct (Z.ltb_spec i 0); [lia|].
  rewrite nth_error_app1 by (rewrite repeat_length; lia).
  apply nth_error_repeat. lia.
Qed.

Lemma get_last (l : list float) (x : float) (i : Z) :
  i = Z.of_nat (length l) -> JS.get (l ++ [x]) i = Some x.
Proof.
  intros ->. unfold JS.get. destruct (Z.ltb_spec (Z.of_nat (length l)) 0); [lia|].
  rewrite Nat2Z.id, nth_error_app2 by lia. rewrite Nat.sub_diag. reflexivity.
Qed.

Lemma clicks_length (n : nat) : length (clicks n) = S (S n).
Proof. unfold clicks. cbn [length]. rewrite length_app, repeat_length. simpl. lia. Qed.

Lemma clicks_r1 (n : nat) : (1 <= n)%nat -> find_r1 (clicks n) = 1.
Proof.
  intro Hn. unfold find_r1. rewrite clicks_length.
  cbn [scan_half].
  destruct (Z.ltb_spec (2 * 0) (Z.of_nat (S (S n)))); [|lia].
  replace (JS.get (clicks n) 0) with (Some 1%float) by reflexivity.
  replace (abs (JS.ToNumber (Some 1)) <? thres)%float with false by reflexivity.
  destruct (Z.ltb_spec (2 * (0 + 1)) (Z.of_nat (S (S n)))); [|lia].
  unfold clicks. rewrite get_cons by lia.
  rewrite get_repeat by lia. reflexivity.
Qed.

Lemma clicks_r2 (n : nat) : (3 <= n)%nat -> find_r2 (clicks n) = Z.of_nat n.
Proof.
  intro Hn. unfold find_r2. rewrite clicks_length.
  cbn [scan_half].
  destruct (Z.ltb_spec (2 * 1) (Z.of_nat (S (S n)))); [|lia].
  assert (L : JS.get (clicks n) (Z.of_nat (S (S n)) - 1) = Some 1%float).
  { unfold clicks. rewrite get_cons by lia.
    apply get_last. rewrite repeat_length. lia. }
  rewrite L.
  replace (abs (JS.ToNumber (Some 1)) <? thres)%float with false by reflexivity.
  destruct (Z.ltb_spec (2 * (1 + 1)) (Z.of_nat (S (S n)))); [|lia].
  assert (L' : JS.get (clicks n) (Z.of_nat (S (S n)) - (1 + 1)) = Some 0%float).
  { unfold clicks. rewrite get_cons by lia. apply get_repeat. lia. }
  rewrite L'.
  replace (abs (JS.ToNumber (Some 0)) <? thres)%float with true by reflexivity.
  lia.
Qed.

Lemma firstn_repeat_le (x : float) (m n : nat) :
  (m <= n)%nat -> firstn m (repeat x n) = repeat x m.
Proof.
  revert n. induction m as [|m IH]; intros n H; [reflexivity|].
  destruct n as [|n]; [lia|]. cbn [repeat firstn]. f_equal. apply IH. lia.
Qed.

Lemma clicks_trim (n : nat) : (3 <= n)%nat -> trim (clicks n) = repeat 0%float (n - 1).
Proof.
  intro Hn. unfold trim. rewrite clicks_r1, clicks_r2 by lia.
  unfold JS.slice. rewrite clicks_length.
  destruct (Z.ltb_spec 1 0); [lia|]. destruct (Z.ltb_spec (Z.of_nat n) 0); [lia|].
  rewrite !Z.min_l by lia.
  replace (Z.to_nat (Z.of_nat n - 1)) with (n - 1)%nat by lia.
  change (Z.to_nat 1) with 1%nat. unfold clicks. cbn [skipn].
  rewrite firstn_app, repeat_length.
  replace (n - 1 - n)%nat with 0%nat by lia. cbn [firstn]. rewrite app_nil_r.
  apply firstn_repeat_le. lia.
Qed.

(** Silence correlates to silence. *)
Lemma autocorrelation_silence (k : nat) :
  autocorrelation (repeat 0%float k) = repeat 0%float k.
Proof.
  unfold autocorrelation. rewrite repeat_length.
  assert (F : forall i l,
             0 <= i ->
             (forall j, In j l -> 0 <= j /\ j + i < Z.of_nat k) ->
             fold_left
               (fun ci j =>
                  (ci + JS.ToNumber (JS.get (repeat 0%float k) j)
                        * JS.ToNumber (JS.get (repeat 0%float k) (j + i)))%float)
               l 0%float = 0%float).
  { intros i l Hi. induction l as [|j l IH]; intro H; [reflexivity|].
    cbn [fold_left].
    destruct (H j (or_introl eq_refl)) as [H1 H2].
    rewrite <- (app_nil_r (repeat 0%float k)).
    rewrite !get_repeat by lia. cbn [JS.ToNumber].
    replace (0 + 0 * 0)%float with 0%float by reflexivity.
    rewrite app_nil_r. apply IH. intros j' Hj'. apply H. right. exact Hj'. }
  unfold JS.range. rewrite Z.sub_0_r, Nat2Z.id.
  rewrite map_map.
  transitivity (map (fun _ : nat => 0%float) (seq 0 k)).
  - apply map_ext_in. intros a Ha. apply in_seq in Ha.
    apply F; [lia|].
    intros j Hj. apply in_map_iff in Hj. destruct Hj as (x & <- & Hx).
    apply in_seq in Hx. lia.
  - clear F. generalize 0%nat. induction k as [|k IH]; intro s; [reflexivity|].
    cbn [seq map repeat]. f_equal. apply IH.
Qed.

Lemma get_silence (k : nat) (i : Z) :
  JS.ToNumber (JS.get (repeat 0%float k) i) = 0%float \/
  JS.ToNumber (JS.get (repeat 0%float k) i) = nan.
Proof.
  unfold JS.get. destruct (i <? 0); [right; reflexivity|].
  destruct (nth_error (repeat 0%float k) (Z.to_nat i)) as [x|] eqn:E;
    [left|right; reflexivity].
  apply nth_error_In, repeat_spec in E. subst. reflexivity.
Qed.

Lemma peak_silence (k : nat) : (1 <= k)%nat -> peak (repeat 0%float k) 0 = (0%float, 0).
Proof.
  intro Hk. unfold peak. rewrite repeat_length.
  unfold JS.range. rewrite Z.sub_0_r, Nat2Z.id.
  destruct k as [|k]; [lia|].
  cbn [seq map fold_left].
  replace (JS.get (repeat 0%float (S k)) (0 + Z.of_nat 0)) with (Some 0%float)
    by reflexivity.
  cbn [JS.ToNumber].
  replace (JS.gt 0 (-1)) with true by reflexivity.
  generalize (seq 1 k). intro l.
  induction l as [|j l IH]; [reflexivity|].
  cbn [map fold_left].
  destruct (get_silence (S k) (0 + Z.of_nat j)) as [E|E]; rewrite E.
  - replace (JS.gt 0 0) with false by reflexivity. exact IH.
  - replace (JS.gt nan 0) with false by reflexivity. exact IH.
Qed.

Lemma skip_slope_silence (k fuel : nat) :
  skip_slope (S fuel) (repeat 0%float k) 0 = Ok 0.
Proof.
  cbn [skip_slope].
  destruct (get_silence k 0) as [E|E]; rewrite E;
    destruct (get_silence k (0 + 1)) as [E'|E']; rewrite E'; reflexivity.
Qed.

(** Squares of silence leave the running sum of lines 27-30 as it is. *)
Lemma rms_sum_silence (n : nat) :
  fold_left (fun rms val => (rms + val * val)%float) (repeat 0%float n) 1%float
  = 1%float.
Proof. induction n as [|n IH]; [reflexivity|exact IH]. Qed.

Lemma clicks_rms (n : nat) :
  rms_of (clicks n) = sqrt (2 / JS.of_Z (Z.of_nat (S (S n)))).
Proof.
  unfold rms_of. cbv zeta. rewrite clicks_length. unfold clicks.
  cbn [fold_left]. rewrite fold_left_app.
  change (0 + 1 * 1)%float with 1%float. rewrite rms_sum_silence.
  reflexivity.
Qed.

Lemma holds_from_spec (test : Z -> bool) (fuel : nat) :
  forall k, holds_from test fuel k = true ->
            forall j, k <= j < k + Z.of_nat fuel -> test j = true.
Proof.
  induction fuel as [|fuel IH]; intros k H j Hj; [lia|].
  cbn [holds_from] in H. apply andb_true_iff in H. destruct H as [H1 H2].
  destruct (Z.eq_dec j k) as [->|Hne]; [exact H1|].
  apply (IH (k + 1) H2). lia.
Qed.

(** Two clicks in up to 20000 samples are not silence for line 34. *)
Lemma clicks_loud (n : nat) :
  3 <= Z.of_nat n <= 19998 -> (rms_of (clicks n) <? 0.01)%float = false.
Proof.
  intro Hn. rewrite clicks_rms.
  assert (A : holds_from (fun k => negb (sqrt (2 / JS.of_Z k) <? 0.01)%float)
                         (Z.to_nat 19996) 5 = true) by (vm_compute; reflexivity).
  apply negb_true_iff.
  apply (holds_from_spec _ _ _ A (Z.of_nat (S (S n)))). lia.
Qed.

(** C1: the guard that the specification demands is not in the code, and
    the documented contract of [autoCorrelate] ("Frequency in Hz, or -1 if
    no pitch detected") is broken.  Two clicks with [n] samples of silence
    between them, for 3 <= n <= 19998, pass the silence gate and trim to
    silence; the correlation is zero everywhere, the peak search leaves
    T0 = 0, [c[T0 - 1]] does not exist, and for every positive sample rate
    [autoCorrelate] returns [sampleRate / 0], which is [Infinity], not
    -1. *)
Theorem autoCorrelate_boundary_unguarded (n : nat) (sampleRate : float) :
  3 <= Z.of_nat n <= 19998 ->
  (0 <? sampleRate)%float = true ->
  (rms_of (clicks n) <? 0.01)%float = false /\
  T0_of (clicks n) = Ok 0 /\
  JS.get (correlation (clicks n)) (0 - 1) = None /\
  autoCorrelate (clicks n) sampleRate = Ok infinity /\
  autoCorrelate (clicks n) sampleRate <> Ok (-1)%float /\
  ~ boundary_guarded.
Proof.
  intros Hn Hsr.
  pose proof (clicks_loud n Hn) as Hrms.
  assert (C : correlation (clicks n) = repeat 0%float (n - 1)).
  { unfold correlation. rewrite clicks_trim by lia.
    apply autocorrelation_silence. }
  assert (T : T0_of (clicks n) = Ok 0).
  { unfold T0_of. cbv zeta. rewrite C, skip_slope_silence. cbn [bind].
    rewrite peak_silence by lia. reflexivity. }
  assert (E : autoCorrelate (clicks n) sampleRate = Ok infinity).
  { rewrite autoCorrelate_unfold, Hrms, T. cbn [bind].
    rewrite refine_boundary by (left; reflexivity).
    change (JS.of_Z 0) with 0%float.
    rewrite (div_pos_zero _ Hsr). reflexivity. }
  assert (N : autoCorrelate (clicks n) sampleRate <> Ok (-1)%float).
  { rewrite E. intro D.
    apply (f_equal (fun r => match r with Ok x => is_infinity x | _ => false end)) in D.
    vm_compute in D. discriminate. }
  split; [exact Hrms|]. split; [exact T|]. split; [reflexivity|].
  split; [exact E|]. split; [exact N|].
  intro H. apply N. apply (H _ _ 0 T). left. lia.
Qed.

Lemma autoCorrelate_boundary_unguarded_witness :
  length (clicks 2046) = 2048%nat /\
  T0_of (clicks 2046) = Ok 0 /\
  autoCorrelate (clicks 2046) 48000%float = Ok infinity.
Proof.
  split; [apply clicks_length|].
  destruct (autoCorrelate_boundary_unguarded 2046 48000%float) as (_ & T & _ & E & _).
  - simpl. lia.
  - reflexivity.
  - split; [exact T|exact E].
Defined.

(** ** The silence gate and the rounding of the root mean square *)

Lemma threshold_check :
  Forall (fun x => float32_range x = true) threshold_buffer /\
  rms_below 1 100 threshold_buffer /\
  rms_of threshold_buffer = 0.01%float /\
  autoCorrelate threshold_buffer 48000%float = Ok 24000%float.
Proof.
  split; [repeat constructor|].
  split; [vm_compute; reflexivity|].
  split; vm_compute; reflexivity.
Qed.

Module QuietFacts.

Import Binary64 Binary64Facts Magnitude Round64 SmallFacts.

(** The sum of the squares stays below 8 and is a whole multiple of
    [2^-50]; the mean stays below [2^-13] and is a whole multiple of
    [2^-66]; the root is a whole multiple of [2^-59], as 0.01 is. *)

Lemma sum_grid_pos : 0 < pw (-50).
Proof. apply pw_pos. lia. Qed.

Lemma sum_grid_U : 2 ^ 53 * pw (-50) = 8 * U.
Proof. reflexivity. Qed.

Lemma V_pos_valid (s : bool) (m : positive) (e : Z) :
  valid_binary (S754_finite s m e) = true -> 0 < V m e /\ -1074 <= e.
Proof.
  intro Hv. destruct (valid_canonical s m e Hv) as [C _].
  assert (He : -1074 <= e) by lia.
  split; [|exact He]. unfold V. pose proof (pw_pos e He). nia.
Qed.

Lemma magnitude_nonneg (x : float) : 0 <= magnitude x.
Proof.
  unfold magnitude. destruct (Prim2SF x) as [s|s| |s m e] eqn:E; try lia.
  pose proof (Prim2SF_valid x) as Hv. rewrite E in Hv.
  destruct (V_pos_valid s m e Hv). lia.
Qed.

Lemma small_magnitude (B : Z) (x : float) :
  0 <= B -> small B x -> small (magnitude x) x /\ magnitude x <= B.
Proof.
  unfold small, magnitude. destruct (Prim2SF x); simpl; intros; try tauto; lia.
Qed.

Lemma floor_succ (a b : Z) : 0 <= a -> 0 < b -> a < (a / b + 1) * b <= a + b.
Proof.
  intros Ha Hb. pose proof (Z.div_mod a b ltac:(lia)).
  pose proof (Z.mod_pos_bound a b Hb). nia.
Qed.

(** The square of a sample, rounded: above the exact square by less than
    one step of the grid. *)
Lemma square_err (x : float) :
  float32_range x = true -> magnitude x <= 2 * U ->
  nonneg (x * x)%float /\ small (magnitude (x * x)%float) (x * x)%float /\
  magnitude (x * x)%float * U <= magnitude x * magnitude x + pw (-50) * U.
Proof.
  intros Hx Hm.
  pose proof U_pos as HU. pose proof sum_grid_pos as HG.
  assert (K : exists B, 0 <= B /\ B * U <= magnitude x * magnitude x + pw (-50) * U /\
                        small_SF B (Prim2SF (x * x)%float) /\
                        sign_SF (Prim2SF (x * x)%float) = false).
  { rewrite mul_spec. unfold magnitude in *.
    destruct (float32_cases x Hx) as [(sx & Ex)|(sx & mx & ex & Ex & Hex & Vx)];
      rewrite Ex in *.
    - exists 0. simpl. destruct sx; repeat split; try lia.
    - set (v := V mx ex) in *.
      assert (Hv : 0 < v) by (unfold v, V; pose proof (pw_pos ex ltac:(lia)); nia).
      assert (Hex' : -1074 <= ex <= -51).
      { apply (small_exp (2 * U) (-51) x sx mx ex); try assumption; try lia.
        all: change (2 ^ 53 * pw (-51)) with (4 * U); lia. }
      destruct (floor_succ (v * v) (U * pw (-50)) ltac:(nia) ltac:(nia)) as [F1 F2].
      set (t := v * v / (U * pw (-50)) + 1) in *.
      assert (Ht : 0 < t) by nia.
      exists (t * pw (-50)). split; [nia|]. split; [nia|].
      destruct (SFmul_small sx sx mx mx ex ex (-50) (t * pw (-50))) as [S1 S2]; try lia;
        try (change (v * v <= t * pw (-50) * U); nia).
      + apply grid_mul.
      + apply grid_lt; [lia|].
        assert (v * v <= 4 * (U * U)) by nia.
        assert (Hq : v * v / (U * pw (-50)) <= 4 * 2 ^ 50).
        { apply Z.div_le_upper_bound; [nia|].
          replace (U * pw (-50) * (4 * 2 ^ 50)) with (4 * (U * (pw (-50) * 2 ^ 50))) by ring.
          change (pw (-50) * 2 ^ 50) with U. lia. }
        unfold t. change (2 ^ 53) with (8 * 2 ^ 50).
        change (2 ^ 50) with 1125899906842624 in *. lia.
      + split; [exact S1|]. rewrite S2. destruct sx; reflexivity. }
  destruct K as (B & HB & HBU & HS & Hsign).
  destruct (small_magnitude B (x * x)%float HB HS) as [H1 H2].
  split; [exact Hsign|]. split; [exact H1|]. nia.
Qed.

(** A sum of two numbers that are not negative, rounded. *)
Lemma add_err (s p : float) :
  nonneg s -> nonneg p ->
  small (magnitude s) s -> small (magnitude p) p ->
  magnitude s + magnitude p <= 7 * U ->
  nonneg (s + p)%float /\ small (magnitude (s + p)%float) (s + p)%float /\
  magnitude (s + p)%float <= magnitude s + magnitude p + pw (-50).
Proof.
  intros Ns Np Fs Fp Hb.
  pose proof U_pos as HU. pose proof sum_grid_pos as HG.
  pose proof (magnitude_nonneg s) as Ms. pose proof (magnitude_nonneg p) as Mp.
  assert (K : exists B, 0 <= B /\ B <= magnitude s + magnitude p + pw (-50) /\
                        small_SF B (Prim2SF (s + p)%float) /\
                        sign_SF (Prim2SF (s + p)%float) = false).
  { rewrite add_spec. unfold magnitude, small, nonneg in *.
    destruct (Prim2SF s) as [ss|ss| |ss ms es] eqn:Es; simpl in Fs; try contradiction;
      destruct (Prim2SF p) as [sp|sp| |sp mp ep] eqn:Ep; simpl in Fp; try contradiction;
      simpl in Ns, Np; subst.
    - exists 0. simpl. repeat split; lia.
    - exists (V mp ep). simpl. repeat split; lia.
    - exists (V ms es). simpl. repeat split; lia.
    - set (v := V ms es + V mp ep) in *.
      destruct (floor_succ v (pw (-50)) ltac:(lia) HG) as [F1 F2].
      set (t := v / pw (-50) + 1) in *.
      assert (Hq : v / pw (-50) <= 7 * 2 ^ 50).
      { apply Z.div_le_upper_bound; [lia|].
        replace (pw (-50) * (7 * 2 ^ 50)) with (7 * (pw (-50) * 2 ^ 50)) by ring.
        change (pw (-50) * 2 ^ 50) with U. lia. }
      assert (Ht : t * pw (-50) < 2 ^ 53 * pw (-50)).
      { apply grid_lt; [lia|]. unfold t. change (2 ^ 53) with (8 * 2 ^ 50).
        change (2 ^ 50) with 1125899906842624 in *. lia. }
      exists (t * pw (-50)). split; [nia|]. split; [lia|].
      pose proof (small_exp (V ms es) (-50) s false ms es ltac:(lia)
                    ltac:(lia) Es (Z.le_refl _)).
      pose proof (small_exp (V mp ep) (-50) p false mp ep ltac:(lia)
                    ltac:(lia) Ep (Z.le_refl _)).
      destruct (SFadd_small false false ms mp es ep (-50) (t * pw (-50))) as [S1 S2]; try lia.
      + apply grid_mul.
      + split; [exact S1|]. apply S2; reflexivity. }
  destruct K as (B & HB & HBU & HS & Hsign).
  destruct (small_magnitude B (s + p)%float HB HS) as [H1 H2].
  split; [exact Hsign|]. split; [exact H1|]. lia.
Qed.

Lemma energy_nonneg (buffer : list float) : 0 <= energy buffer.
Proof.
  induction buffer as [|x rest IH]; simpl; [lia|].
  pose proof (magnitude_nonneg x). nia.
Qed.

(** The loop of lines 27-30: the sum it leaves is above the exact sum of
    the squares by at most two steps of the grid for each sample. *)
Lemma fold_err (buffer : list float) : forall (acc : float) (Eacc k : Z),
  Forall (fun x => float32_range x = true) buffer ->
  nonneg acc -> small (magnitude acc) acc ->
  0 <= Eacc -> 0 <= k ->
  magnitude acc * U <= Eacc + 2 * k * (pw (-50) * U) ->
  Eacc + energy buffer <= 4 * (U * U) ->
  2 * (k + Z.of_nat (length buffer)) * pw (-50) <= 3 * U ->
  let r := fold_left (fun rms val => (rms + val * val)%float) buffer acc in
  nonneg r /\ small (magnitude r) r /\
  magnitude r * U
  <= Eacc + energy buffer + 2 * (k + Z.of_nat (length buffer)) * (pw (-50) * U).
Proof.
  pose proof U_pos as HU. pose proof sum_grid_pos as HG.
  induction buffer as [|x rest IH]; intros acc Eacc k Hf Na Fa HE Hk Ha Hen Hlen.
  - cbv zeta. cbn [fold_left energy fold_right length Z.of_nat] in *.
    repeat split; try assumption. lia.
  - inversion Hf as [|? ? Hx Hrest]; subst.
    cbn [fold_left]. cbn [energy fold_right] in *. fold (energy rest) in *.
    rewrite length_cons, Nat2Z.inj_succ in *.
    pose proof (energy_nonneg rest) as Her.
    pose proof (magnitude_nonneg x) as Mx.
    pose proof (magnitude_nonneg acc) as Ma.
    assert (Hx2 : magnitude x <= 2 * U).
    { apply square_le; nia. }
    destruct (square_err x Hx Hx2) as (Np & Fp & Hp).
    set (p := (x * x)%float) in *.
    pose proof (magnitude_nonneg p) as Mp.
    assert (HGU : 2 * (k + Z.succ (Z.of_nat (length rest))) * (pw (-50) * U) <= 3 * (U * U)).
    { replace (2 * (k + Z.succ (Z.of_nat (length rest))) * (pw (-50) * U))
        with (2 * (k + Z.succ (Z.of_nat (length rest))) * pw (-50) * U) by ring.
      replace (3 * (U * U)) with (3 * U * U) by ring.
      apply Z.mul_le_mono_nonneg_r; lia. }
    assert (HGU0 : 0 < pw (-50) * U) by nia.
    assert (Hsum : magnitude acc + magnitude p <= 7 * U).
    { apply (Z.mul_le_mono_pos_r _ _ U HU).
      replace (7 * U * U) with (4 * (U * U) + 3 * (U * U)) by ring.
      nia. }
    destruct (add_err acc p Na Np Fa Fp Hsum) as (Ns & Fs & Hs).
    assert (Hs' : magnitude (acc + p)%float * U
                  <= (Eacc + magnitude x * magnitude x) + 2 * (k + 1) * (pw (-50) * U)).
    { apply (Z.mul_le_mono_nonneg_r _ _ U ltac:(lia)) in Hs. nia. }
    specialize (IH (acc + p)%float (Eacc + magnitude x * magnitude x) (k + 1)
                   Hrest Ns Fs ltac:(nia) ltac:(lia) Hs' ltac:(lia) ltac:(lia)).
    cbv zeta in IH. destruct IH as (R1 & R2 & R3).
    split; [exact R1|]. split; [exact R2|].
    replace (k + Z.succ (Z.of_nat (length rest)))
      with (k + 1 + Z.of_nat (length rest)) by lia.
    lia.
Qed.

Lemma mean_grid_pos : 0 < pw (-66).
Proof. apply pw_pos. lia. Qed.

Lemma grid_unit : U = 2 ^ 66 * pw (-66).
Proof. reflexivity. Qed.

Lemma grid_sum : pw (-50) = 2 ^ 16 * pw (-66).
Proof. reflexivity. Qed.

Lemma grid_root : pw (-59) = 2 ^ 7 * pw (-66).
Proof. reflexivity. Qed.

Lemma sign_cases (B : Z) (x : float) :
  small B x -> nonneg x ->
  Prim2SF x = S754_zero false \/
  exists m e, Prim2SF x = S754_finite false m e /\ V m e <= B /\
              0 < V m e /\ -1074 <= e.
Proof.
  unfold small, nonneg. intros Hs Hn.
  pose proof (Prim2SF_valid x) as Hv.
  destruct (Prim2SF x) as [s|s| |s m e]; simpl in *; try contradiction; subst.
  - left. reflexivity.
  - right. exists m, e. destruct (V_pos_valid false m e Hv). auto.
Qed.

(** Line 31: the mean of the squares, rounded. *)
Lemma mean_err (S : float) (N : Z) :
  1 <= N < 2 ^ 53 ->
  nonneg S -> small (magnitude S) S ->
  1000000000000 * 1000000000000 * magnitude S
  <= N * ((9999999999 * 9999999999 * 2 ^ 66 + 2 ^ 17 * (1000000000000 * 1000000000000)) * pw (-66)) ->
  nonneg (S / JS.of_Z N)%float /\
  small (magnitude (S / JS.of_Z N)%float) (S / JS.of_Z N)%float /\
  magnitude (S / JS.of_Z N)%float * N <= magnitude S + N * pw (-66).
Proof.
  intros HN Ns Fs HS.
  pose proof mean_grid_pos as HW. pose proof U_pos as HU.
  destruct (of_Z_between N HN) as (mn & en & En & HVn).
  pose proof (between_exp N N (JS.of_Z N) mn en ltac:(lia) En ltac:(lia)) as Hen.
  assert (Vn : V mn en = N * U) by lia.
  assert (K : exists B, 0 <= B /\ B * N <= magnitude S + N * pw (-66) /\
                        small_SF B (Prim2SF (S / JS.of_Z N)%float) /\
                        sign_SF (Prim2SF (S / JS.of_Z N)%float) = false).
  { rewrite div_spec, En.
    destruct (sign_cases _ S Fs Ns) as [ES|(ms & es & ES & _ & Hpos & Hes)];
      unfold magnitude in *; rewrite ES in *.
    - exists 0. simpl. repeat split; nia.
    - set (vs := V ms es) in *.
      destruct (floor_succ vs (N * pw (-66)) ltac:(lia) ltac:(nia)) as [F1 F2].
      assert (Hq : vs / (N * pw (-66)) <= 2 ^ 53 - 2).
      { apply Z.div_le_upper_bound; [nia|].
        assert (0 <= N * pw (-66)) by nia.
        change (2 ^ 53) with 9007199254740992. change (2 ^ 66) with 73786976294838206464 in HS.
        change (2 ^ 17) with 131072 in HS. lia. }
      set (t := vs / (N * pw (-66)) + 1) in *.
      assert (Ht : 0 < t) by nia.
      exists (t * pw (-66)). split; [nia|]. split; [nia|].
      destruct (SFdiv_small false false ms mn es en (-66) (t * pw (-66))) as [S1 S2];
        try lia.
      + apply grid_mul.
      + split; [nia|]. apply grid_lt; lia.
      + change (vs * U <= t * pw (-66) * V mn en). rewrite Vn.
        replace (t * pw (-66) * (N * U)) with (t * (N * pw (-66)) * U) by ring.
        apply Z.mul_le_mono_nonneg_r; lia.
      + split; [exact S1|exact S2]. }
  destruct K as (B' & HB & HBN & HSm & Hsign).
  destruct (small_magnitude B' _ HB HSm) as [H1 H2].
  split; [exact Hsign|]. split; [exact H1|]. nia.
Qed.

(** Line 31: the root of the mean is below the double next under [0.01]. *)
Lemma root_err (D : float) :
  nonneg D -> small (magnitude D) D ->
  1000000000000 * 1000000000000 * magnitude D
  <= (9999999999 * 9999999999 * 2 ^ 66 + 2 ^ 17 * (1000000000000 * 1000000000000)
      + 1000000000000 * 1000000000000) * pw (-66) ->
  (sqrt D <? 0.01)%float = true.
Proof.
  intros Nd Fd HD.
  pose proof mean_grid_pos as HW. pose proof U_pos as HU.
  assert (K : small (5764607523034234 * pw (-59)) (sqrt D) /\ nonneg (sqrt D)).
  { unfold small, nonneg. rewrite sqrt_spec.
    destruct (sign_cases _ D Fd Nd) as [ED|(md & ed & ED & _ & Hpos & Hed)];
      unfold magnitude in *; rewrite ED in *.
    - simpl. split; [|reflexivity]. pose proof (pw_pos (-59) ltac:(lia)). lia.
    - set (vd := V md ed) in *.
      apply (SFsqrt_small md ed (-59)); try lia.
      + apply grid_mul.
      + split; [pose proof (pw_pos (-59) ltac:(lia)); lia|]. apply grid_lt; lia.
      + change (vd * U <= 5764607523034234 * pw (-59) * (5764607523034234 * pw (-59))).
        rewrite grid_unit, grid_root.
        assert (HWW : 0 < pw (-66) * pw (-66)) by nia.
        assert (HDW : 1000000000000 * 1000000000000 * (vd * pw (-66))
                      <= (9999999999 * 9999999999 * 2 ^ 66
                          + 2 ^ 17 * (1000000000000 * 1000000000000)
                          + 1000000000000 * 1000000000000) * (pw (-66) * pw (-66))).
        { apply (Z.mul_le_mono_nonneg_r _ _ (pw (-66)) ltac:(lia)) in HD.
          replace (1000000000000 * 1000000000000 * (vd * pw (-66)))
            with (1000000000000 * 1000000000000 * vd * pw (-66)) by ring.
          etransitivity; [exact HD|]. apply Z.eq_le_incl. ring. }
        change (2 ^ 66) with 73786976294838206464 in *.
        change (2 ^ 17) with 131072 in *. change (2 ^ 7) with 128.
        replace (vd * (73786976294838206464 * pw (-66))) with (73786976294838206464 * (vd * pw (-66))) by ring.
        replace (5764607523034234 * (128 * pw (-66)) * (5764607523034234 * (128 * pw (-66))))
          with (5764607523034234 * 128 * (5764607523034234 * 128) * (pw (-66) * pw (-66))) by ring.
        lia. }
  destruct K as [Ks Kn].
  rewrite ltb_spec.
  destruct (sign_cases _ (sqrt D) Ks Kn) as [ER|(mr & er & ER & HR & Hpos & Her)];
    rewrite ER; [reflexivity|].
  pose proof (Prim2SF_valid (sqrt D)) as Hv. rewrite ER in Hv.
  change (Prim2SF 0.01%float) with (S754_finite false 5764607523034235 (-59)).
  unfold SFltb. rewrite (SFcompare_V mr 5764607523034235 er (-59) Hv eq_refl).
  assert (L : V mr er < V 5764607523034235 (-59)).
  { unfold V at 2. pose proof (pw_pos (-59) ltac:(lia)). lia. }
  apply Z.compare_lt_iff in L. rewrite L. reflexivity.
Qed.

(** Lines 24-31 on a quiet buffer. *)
Lemma rms_quiet (buffer : list float) :
  Forall (fun x => float32_range x = true) buffer ->
  1 <= Z.of_nat (length buffer) <= max_fftSize ->
  rms_at_most 9999999999 1000000000000 buffer ->
  (rms_of buffer <? 0.01)%float = true.
Proof.
  intros Hf [Hn1 Hn2] Hq.
  unfold rms_at_most in Hq. unfold max_fftSize in Hn2.
  pose proof (energy_nonneg buffer) as HE.
  pose proof mean_grid_pos as HW. pose proof U_pos as HU. pose proof sum_grid_pos as HG.
  unfold rms_of. cbv zeta.
  set (N := Z.of_nat (length buffer)) in *.
  assert (HUU : 0 < U * U) by nia.
  assert (HNUU : N * (U * U) <= 32768 * (U * U))
    by (apply Z.mul_le_mono_nonneg_r; lia).
  assert (HNW : N * pw (-66) <= 32768 * pw (-66)) by (apply Z.mul_le_mono_nonneg_r; lia).
  destruct (fold_err buffer 0%float 0 0 Hf) as (Ns & Fs & Hs);
    try reflexivity; try exact I; try lia.
  { fold N. rewrite grid_unit, grid_sum.
    change (2 ^ 66) with 73786976294838206464. change (2 ^ 16) with 65536. lia. }
  fold N in Hs.
  set (S := fold_left (fun rms val => (rms + val * val)%float) buffer 0%float) in *.
  pose proof (magnitude_nonneg S) as MS.
  assert (KS : 1000000000000 * 1000000000000 * magnitude S
               <= N * ((9999999999 * 9999999999 * 2 ^ 66
                        + 2 ^ 17 * (1000000000000 * 1000000000000)) * pw (-66))).
  { apply (Z.mul_le_mono_pos_r _ _ U HU).
    assert (E1 : N * ((9999999999 * 9999999999 * 2 ^ 66
                       + 2 ^ 17 * (1000000000000 * 1000000000000)) * pw (-66)) * U
                 = 9999999999 * 9999999999 * N * (U * U)
                   + 1000000000000 * 1000000000000 * (2 * (0 + N) * (pw (-50) * U))).
    { rewrite grid_sum, grid_unit. ring. }
    rewrite E1. nia. }
  destruct (mean_err S N ltac:(lia) Ns Fs KS) as (Nd & Fd & Hd).
  apply root_err; try assumption.
  set (D := (S / JS.of_Z N)%float) in *.
  pose proof (magnitude_nonneg D) as MD.
  apply (Z.mul_le_mono_pos_r _ _ N ltac:(lia)).
  nia.
Qed.

End QuietFacts.

(** C6, counterexample: four binary32 numbers,
    [0x1.439c02p-7, 0x1.4767d2p-7, 0x1.d27436p-7, 0x1.b33bdcp-20], whose
    root mean square is below 0.01 in exact arithmetic.  The value line 31
    computes rounds to the double 0.01, the test of line 34 fails, and
    the call goes on to trim and correlate: at 48000 Hz it returns 24000,
    not -1. *)
Lemma autoCorrelate_quiet_counterexample :
  Forall (fun x => float32_range x = true) threshold_buffer /\
  rms_below 1 100 threshold_buffer /\
  rms_of threshold_buffer = 0.01%float /\
  (rms_of threshold_buffer <? 0.01)%float = false /\
  autoCorrelate threshold_buffer 48000%float = Ok 24000%float /\
  ~ silence_gated.
Proof.
  destruct threshold_check as (H1 & H2 & H3 & H4).
  split; [exact H1|]. split; [exact H2|]. split; [exact H3|].
  split; [vm_compute; reflexivity|]. split; [exact H4|].
  intro H. specialize (H threshold_buffer 48000%float H1 H2).
  rewrite H4 in H. vm_compute in H. discriminate.
Qed.

(** C6, as the code has it: the root mean square that line 31 computes is
    rounded twice for each sample and twice more, so the gate of line 34
    is sure to close only a little under 0.01.  For a buffer of 1 to
    32768 numbers of a [Float32Array] whose root mean square, in exact
    arithmetic, is at most 0.009999999999, the computed value is below
    0.01 and [autoCorrelate] returns -1 at line 34, whatever the sample
    rate and whatever the samples would give once trimmed and
    correlated. *)
Theorem autoCorrelate_quiet (buffer : list float) (sampleRate : float) :
  Forall (fun x => float32_range x = true) buffer ->
  1 <= Z.of_nat (length buffer) <= max_fftSize ->
  rms_at_most 9999999999 1000000000000 buffer ->
  (rms_of buffer <? 0.01)%float = true /\
  autoCorrelate buffer sampleRate = Ok (-1)%float.
Proof.
  intros Hf Hn Hq.
  pose proof (QuietFacts.rms_quiet buffer Hf Hn Hq) as H.
  split; [exact H|].
  unfold autoCorrelate. rewrite H. reflexivity.
Qed.

Lemma autoCorrelate_quiet_witness :
  rms_at_most 9999999999 1000000000000
    [0.0078125; -0.0078125; 0.0078125; -0.0078125]%float /\
  autoCorrelate [0.0078125; -0.0078125; 0.0078125; -0.0078125]%float 48000%float
  = Ok (-1)%float.
Proof.
  assert (Hq : rms_at_most 9999999999 1000000000000
                 [0.0078125; -0.0078125; 0.0078125; -0.0078125]%float)
    by (vm_compute; discriminate).
  split; [exact Hq|].
  apply (autoCorrelate_quiet
           [0.0078125; -0.0078125; 0.0078125; -0.0078125]%float 48000%float).
  - repeat constructor.
  - unfold max_fftSize. simpl. lia.
  - exact Hq.
Defined.

(** ** The order of the numbers, through their ranks *)

Module Order64Facts.

Import Binary64 Binary64Facts Order64.

Lemma valid_sign (s : bool) (m : positive) (e : Z) :
  valid_binary (S754_finite s m e) = true ->
  valid_binary (S754_finite false m e) = true.
Proof. intro H; exact H. Qed.

Lemma V_huge (s : bool) (m : positive) (e : Z) :
  valid_binary (S754_finite s m e) = true -> 0 < V m e < huge.
Proof.
  intro H. destruct (valid_canonical s m e H) as [E L].
  assert (He : -1074 <= e) by lia.
  assert (Hd : Zpos (digits2_pos m) <= 53) by lia.
  pose proof (digits2_bounds m) as [_ Hm].
  assert (Hm' : Zpos m < 2 ^ 53).
  { eapply Z.lt_le_trans; [exact Hm|]. apply Z.pow_le_mono_r; lia. }
  pose proof (pw_pos e He) as Hp.
  unfold V. split; [lia|].
  assert (Hq : pw e <= 2 ^ 2045).
  { unfold pw. apply Z.pow_le_mono_r; lia. }
  unfold huge.
  replace (2 ^ 2200) with (2 ^ 53 * 2 ^ 2045 * 2 ^ 102)
    by (rewrite <- !Z.pow_add_r by lia; reflexivity).
  assert (0 < 2 ^ 2045) by (apply Z.pow_pos_nonneg; lia).
  assert (1 < 2 ^ 102) by (apply Z.pow_gt_1; lia).
  assert (Zpos m * pw e < 2 ^ 53 * 2 ^ 2045) by nia.
  nia.
Qed.

Lemma SFcompare_rank (x y : spec_float) :
  valid_binary x = true -> valid_binary y = true ->
  x <> S754_nan -> y <> S754_nan ->
  SFcompare x y = Some (rank x ?= rank y).
Proof.
  intros Vx Vy Nx Ny.
  assert (Hh : 0 < huge) by (unfold huge; apply Z.pow_pos_nonneg; lia).
  destruct x as [sx|sx| |sx mx ex], y as [sy|sy| |sy my ey];
    try congruence;
    try pose proof (V_huge _ _ _ Vx) as Bx;
    try pose proof (V_huge _ _ _ Vy) as By.
  9: {
    pose proof (SFcompare_V mx my ex ey (valid_sign _ _ _ Vx) (valid_sign _ _ _ Vy)) as C.
    destruct sx, sy.
    - simpl in C |- *. f_equal.
      rewrite Z.compare_opp.
      injection C as C.
      rewrite (Z.compare_antisym (V mx ex) (V my ey)), <- C.
      destruct (ex ?= ey); reflexivity.
    - simpl. f_equal. symmetry. apply Z.compare_lt_iff. lia.
    - simpl. f_equal. symmetry. apply Z.compare_gt_iff. lia.
    - exact C. }
  all: cbv [rank SFcompare]; try destruct sx; try destruct sy; f_equal; symmetry;
    first [apply Z.compare_eq_iff; lia | apply Z.compare_lt_iff; lia
          | apply Z.compare_gt_iff; lia].
Qed.

Lemma ltb_rank (x y : float) :
  x <> nan -> y <> nan ->
  (x <? y)%float = (rank (Prim2SF x) <? rank (Prim2SF y)).
Proof.
  intros Nx Ny. rewrite ltb_spec. unfold SFltb, Z.ltb.
  rewrite (SFcompare_rank _ _ (Prim2SF_valid x) (Prim2SF_valid y)
             (FloatFacts.not_nan_SF _ Nx) (FloatFacts.not_nan_SF _ Ny)).
  reflexivity.
Qed.

Lemma leb_rank (x y : float) :
  x <> nan -> y <> nan ->
  (x <=? y)%float = (rank (Prim2SF x) <=? rank (Prim2SF y)).
Proof.
  intros Nx Ny. rewrite leb_spec. unfold SFleb, Z.leb.
  rewrite (SFcompare_rank _ _ (Prim2SF_valid x) (Prim2SF_valid y)
             (FloatFacts.not_nan_SF _ Nx) (FloatFacts.not_nan_SF _ Ny)).
  destruct (_ ?= _); reflexivity.
Qed.

Lemma leb_true_not_nan (x y : float) : (x <=? y)%float = true -> x <> nan /\ y <> nan.
Proof.
  intro H; split; intro E; subst; rewrite leb_spec in H.
  - discriminate.
  - change (Prim2SF nan) with S754_nan in H. unfold SFleb in H.
    destruct (Prim2SF x); discriminate.
Qed.

Lemma ltb_trans (x y z : float) :
  (x <? y)%float = true -> (y <? z)%float = true -> (x <? z)%float = true.
Proof.
  intros H1 H2.
  destruct (FloatFacts.ltb_true_not_nan _ _ H1) as [Nx Ny].
  destruct (FloatFacts.ltb_true_not_nan _ _ H2) as [_ Nz].
  rewrite ltb_rank in * by assumption.
  apply Z.ltb_lt in H1, H2. apply Z.ltb_lt. lia.
Qed.

Lemma ltb_leb_trans (x y z : float) :
  (x <? y)%float = true -> (y <=? z)%float = true -> (x <? z)%float = true.
Proof.
  intros H1 H2.
  destruct (FloatFacts.ltb_true_not_nan _ _ H1) as [Nx Ny].
  destruct (leb_true_not_nan _ _ H2) as [_ Nz].
  rewrite ltb_rank in * by assumption. rewrite leb_rank in H2 by assumption.
  apply Z.ltb_lt in H1. apply Z.leb_le in H2. apply Z.ltb_lt. lia.
Qed.

(** [x] is not above [m], and [m] is below [m']: [x] is below [m']. *)
Lemma not_gt_ltb_trans (x m m' : float) :
  x <> nan ->
  (m <? x)%float = false -> (m <? m')%float = true -> (x <? m')%float = true.
Proof.
  intros Nx H1 H2.
  destruct (FloatFacts.ltb_true_not_nan _ _ H2) as [Nm Nm'].
  rewrite ltb_rank in * by assumption.
  apply Z.ltb_ge in H1. apply Z.ltb_lt in H2. apply Z.ltb_lt. lia.
Qed.

(** [x] is not above [m], and [m] is below [m']: [x] is not above [m']. *)
Lemma not_gt_mono (x m m' : float) :
  (m <? x)%float = false -> (m <? m')%float = true -> (m' <? x)%float = false.
Proof.
  intros H1 H2.
  destruct (FloatFacts.nan_or_number x) as [->|Nx].
  - apply FloatFacts.ltb_nan_r.
  - destruct (FloatFacts.ltb_true_not_nan _ _ H2) as [Nm Nm'].
    rewrite ltb_rank in * by assumption.
    apply Z.ltb_ge in H1. apply Z.ltb_lt in H2. apply Z.ltb_ge. lia.
Qed.

End Order64Facts.

(** ** The peak search *)

Lemma range_nil (lo hi : Z) : hi <= lo -> JS.range lo hi = [].
Proof.
  intro H. unfold JS.range.
  replace (Z.to_nat (hi - lo)) with 0%nat by lia. reflexivity.
Qed.

Lemma range_snoc (lo hi : Z) : lo <= hi -> JS.range lo (hi + 1) = JS.range lo hi ++ [hi].
Proof.
  intro H. unfold JS.range.
  replace (Z.to_nat (hi + 1 - lo)) with (S (Z.to_nat (hi - lo))) by lia.
  rewrite seq_S, map_app. simpl. do 2 f_equal. lia.
Qed.

(** What the loop of lines 77-82 has established after the lags [d..i-1]. *)
Lemma peak_prefix (c : list float) (d : Z) (n : nat) :
  let at_ j := JS.ToNumber (JS.get c j) in
  let '(maxval, maxpos) :=
    fold_left
      (fun '(maxval, maxpos) i =>
         if JS.gt (JS.ToNumber (JS.get c i)) maxval
         then (JS.ToNumber (JS.get c i), i) else (maxval, maxpos))
      (JS.range d (d + Z.of_nat n)) ((-1)%float, -1) in
  (maxpos = -1 /\ maxval = (-1)%float /\
   forall j, d <= j < d + Z.of_nat n -> JS.gt (at_ j) (-1)%float = false)
  \/
  (d <= maxpos < d + Z.of_nat n /\ JS.get c maxpos = Some maxval /\
   JS.gt maxval (-1)%float = true /\
   (forall j, d <= j < d + Z.of_nat n -> JS.gt (at_ j) maxval = false) /\
   (forall j, d <= j < maxpos -> JS.gt maxval (at_ j) = true \/ at_ j = nan)).
Proof.
  intro at_.
  induction n as [|n IH].
  - rewrite range_nil by lia. simpl. left. repeat split; try reflexivity. intros; lia.
  - replace (d + Z.of_nat (S n)) with (d + Z.of_nat n + 1) by lia.
    rewrite range_snoc by lia. rewrite fold_left_app.
    destruct (fold_left _ (JS.range d (d + Z.of_nat n)) _) as [maxval maxpos].
    cbn [fold_left].
    set (i := d + Z.of_nat n) in *.
    fold (at_ i).
    destruct (JS.gt (at_ i) maxval) eqn:G.
    + (* a new maximum at [i] *)
      right. unfold JS.gt in G.
      destruct (FloatFacts.ltb_true_not_nan _ _ G) as [Nm Ni].
      assert (Hget : JS.get c i = Some (at_ i)).
      { unfold at_ in *. destruct (JS.get c i); [reflexivity|].
        exfalso. apply Ni. reflexivity. }
      assert (Hrefl : JS.gt (at_ i) (at_ i) = false).
      { unfold JS.gt. destruct (at_ i <? at_ i)%float eqn:R; [|reflexivity].
        pose proof (Order64Facts.ltb_rank _ _ Ni Ni) as K. rewrite R in K.
        symmetry in K. apply Z.ltb_lt in K. lia. }
      destruct IH as [(P & Vm & Hall)|(P & Hg & Hm & Hall & Hfirst)].
      * subst maxval.
        split; [lia|]. split; [exact Hget|]. split; [exact G|]. split.
        -- intros j Hj. destruct (Z.eq_dec j i) as [->|Hne]; [exact Hrefl|].
           unfold JS.gt. apply (Order64Facts.not_gt_mono _ (-1)%float); [|exact G].
           apply Hall. lia.
        -- intros j Hj.
           destruct (FloatFacts.nan_or_number (at_ j)) as [E|Nj]; [right; exact E|].
           left. unfold JS.gt.
           apply (Order64Facts.not_gt_ltb_trans _ (-1)%float); [exact Nj| |exact G].
           apply Hall. lia.
      * split; [lia|]. split; [exact Hget|]. split.
        -- unfold JS.gt in *. exact (Order64Facts.ltb_trans _ _ _ Hm G).
        -- split.
           ++ intros j Hj. destruct (Z.eq_dec j i) as [->|Hne]; [exact Hrefl|].
              unfold JS.gt. apply (Order64Facts.not_gt_mono _ maxval); [|exact G].
              apply Hall. lia.
           ++ intros j Hj.
              destruct (FloatFacts.nan_or_number (at_ j)) as [E|Nj]; [right; exact E|].
              left. unfold JS.gt.
              apply (Order64Facts.not_gt_ltb_trans _ maxval); [exact Nj| |exact G].
              apply Hall. lia.
    + destruct IH as [(P & Vm & Hall)|(P & Hg & Hm & Hall & Hfirst)].
      * left. split; [exact P|]. split; [exact Vm|].
        intros j Hj. destruct (Z.eq_dec j i) as [->|Hne].
        -- subst maxval. exact G.
        -- apply Hall. lia.
      * right. split; [lia|]. split; [exact Hg|]. split; [exact Hm|]. split.
        -- intros j Hj. destruct (Z.eq_dec j i) as [->|Hne]; [exact G|].
           apply Hall. lia.
        -- exact Hfirst.
Qed.

Lemma peak_spec (c : list float) (d : Z) :
  let at_ j := JS.ToNumber (JS.get c j) in
  let M := Z.of_nat (length c) in
  (snd (peak c d) = -1 /\ fst (peak c d) = (-1)%float /\
   forall j, d <= j < M -> JS.gt (at_ j) (-1)%float = false)
  \/
  (d <= snd (peak c d) < M /\ JS.get c (snd (peak c d)) = Some (fst (peak c d)) /\
   JS.gt (fst (peak c d)) (-1)%float = true /\
   (forall j, d <= j < M -> JS.gt (at_ j) (fst (peak c d)) = false) /\
   (forall j, d <= j < snd (peak c d) ->
              JS.gt (fst (peak c d)) (at_ j) = true \/ at_ j = nan)).
Proof.
  intros at_ M.
  destruct (Z_le_gt_dec d M) as [Hd|Hd].
  - pose proof (peak_prefix c d (Z.to_nat (M - d))) as H. cbv zeta in H.
    replace (d + Z.of_nat (Z.to_nat (M - d))) with M in H by lia.
    unfold peak. fold M.
    destruct (fold_left _ (JS.range d M) _) as [maxval maxpos].
    exact H.
  - unfold peak. fold M. rewrite range_nil by lia. simpl.
    left. repeat split; try reflexivity. intros; lia.
Qed.

(** X2: the peak search of lines 75-82 returns the first largest value of
    [c] from index [d] on: no value there is greater than [maxval], every
    value before [maxpos] is smaller (or NaN), and [maxval] is above -1.
    When no value is above -1 it leaves [maxpos] at -1. *)
Theorem peak_first_maximum (c : list float) (d : Z) :
  let M := Z.of_nat (length c) in
  let at_ j := JS.ToNumber (JS.get c j) in
  let maxval := fst (peak c d) in
  let maxpos := snd (peak c d) in
  (maxpos = -1 /\ maxval = (-1)%float /\
   forall j, d <= j < M -> JS.gt (at_ j) (-1)%float = false)
  \/
  (d <= maxpos < M /\ JS.get c maxpos = Some maxval /\
   JS.gt maxval (-1)%float = true /\
   (forall j, d <= j < M -> JS.gt (at_ j) maxval = false) /\
   (forall j, d <= j < maxpos -> JS.gt maxval (at_ j) = true \/ at_ j = nan)).
Proof. exact (peak_spec c d). Qed.

Lemma T0_of_range (buffer : list float) :
  exists T0, T0_of buffer = Ok T0 /\
             (T0 = -1 \/ 0 <= T0 < Z.of_nat (length (correlation buffer))).
Proof.
  unfold T0_of. cbv zeta.
  set (c := correlation buffer).
  destruct (skip_slope_spec c (S (length c)) 0) as (d & E & Hd & _); try lia.
  rewrite E. cbn [bind]. eexists. split; [reflexivity|].
  destruct (peak_spec c d) as [(P & _)|(P & _)]; [left; exact P|right; lia].
Qed.

(** The sign of a rounded result. *)
Lemma binary_round_aux_sign (s : bool) (mx ex : Z) (lx : location) :
  0 <= mx ->
  binary_round_aux prec emax s mx ex lx = S754_zero s \/
  binary_round_aux prec emax s mx ex lx = S754_infinity s \/
  exists m e, binary_round_aux prec emax s mx ex lx = S754_finite s m e.
Proof.
  intro Hmx. unfold binary_round_aux, shr_fexp.
  destruct (Binary64Facts.shr_spec mx ex
              (fexp prec emax (Zdigits2 mx + ex) - ex) lx Hmx) as (r1 & E1 & M1 & _).
  rewrite E1. cbv beta iota.
  destruct (Binary64Facts.round_nearest_even_bounds (shr_m r1) (loc_of_shr_record r1))
    as [R1 _].
  assert (H1 : 0 <= shr_m r1).
  { rewrite M1. apply Z.div_pos; [lia|]. apply Z.pow_pos_nonneg; lia. }
  set (m1 := round_nearest_even (shr_m r1) (loc_of_shr_record r1)) in *.
  set (e1 := ex + Z.max (fexp prec emax (Zdigits2 mx + ex) - ex) 0) in *.
  destruct (Binary64Facts.shr_spec m1 e1
              (fexp prec emax (Zdigits2 m1 + e1) - e1) loc_Exact ltac:(lia))
    as (r2 & E2 & M2 & _).
  rewrite E2. cbv beta iota.
  assert (H2 : 0 <= shr_m r2).
  { rewrite M2. apply Z.div_pos; [lia|]. apply Z.pow_pos_nonneg; lia. }
  destruct (shr_m r2) as [|m|m]; [left; reflexivity| |lia].
  destruct (_ <=? _); [right; right; eexists; eexists; reflexivity|right; left; reflexivity].
Qed.

Lemma SFdiv_sign (sx sy : bool) (mx my : positive) (ex ey : Z) :
  let r := SF64div (S754_finite sx mx ex) (S754_finite sy my ey) in
  r = S754_zero (xorb sx sy) \/ r = S754_infinity (xorb sx sy) \/
  exists m e, r = S754_finite (xorb sx sy) m e.
Proof.
  unfold SF64div, SFdiv, SFdiv_core_binary. cbv zeta.
  match goal with
  | |- context [Z.div_eucl ?a ?b] =>
      pose proof (Z_div_mod a b ltac:(lia)) as D;
      assert (Ha : 0 <= a);
      [|destruct (Z.div_eucl a b) as [q r]]
  end.
  { match goal with |- 0 <= match ?s with _ => _ end => destruct s end;
      try lia. apply Z.shiftl_nonneg. lia. }
  destruct D as [D Hr].
  apply binary_round_aux_sign. nia.
Qed.

(** A positive number over -1 is below 60. *)
Lemma div_minus_one (x : float) :
  (0 <? x)%float = true -> (x / -1 <? 60)%float = true.
Proof.
  intro H. rewrite ltb_spec in H. rewrite ltb_spec, div_spec.
  change (Prim2SF 0) with (S754_zero false) in H.
  change (Prim2SF (-1)) with (S754_finite true 4503599627370496 (-52)).
  change (Prim2SF 60) with (S754_finite false 8444249301319680 (-47)).
  destruct (Prim2SF x) as [s|s| |s m e]; try discriminate.
  - destruct s; [discriminate|reflexivity].
  - destruct s; [discriminate|].
    destruct (SFdiv_sign false true m 4503599627370496 e (-52))
      as [E|[E|(m' & e' & E)]]; cbv zeta in E; rewrite E; reflexivity.
Qed.

Lemma get_negative (a : list float) (i : Z) : i < 0 -> JS.get a i = None.
Proof. intro H. apply get_outside. left. exact H. Qed.

(** X3: when the peak search leaves a lag that is not positive, the number
    [autoCorrelate] returns (-1 for silence, [sampleRate / 0] or
    [sampleRate / -1] otherwise) is outside [60, 1000] for a positive
    sample rate, so [detectPitch] clears the history and answers
    [null]. *)
Theorem detectPitch_degenerate
  (this : PitchDetector) (dataArray : list float) (T0 : Z) :
  (0 <? sampleRate this)%float = true ->
  T0_of dataArray = Ok T0 ->
  T0 <= 0 ->
  detectPitch this dataArray = (reset this, Ok None).
Proof.
  intros Hsr HT0 Hle.
  assert (G : exists f, autoCorrelate dataArray (sampleRate this) = Ok f /\ gate f = true).
  { rewrite autoCorrelate_unfold.
    destruct (rms_of dataArray <? 0.01)%float.
    - eexists. split; [reflexivity|]. apply rejected_gate. left. reflexivity.
    - rewrite HT0. cbn [bind]. eexists. split; [reflexivity|].
      rewrite refine_boundary by (left; apply get_negative; lia).
      destruct (T0_of_range dataArray) as (T & HT & R).
      rewrite HT0 in HT. injection HT as <-.
      assert (C : T0 = -1 \/ T0 = 0) by lia.
      apply rejected_gate. destruct C as [-> | ->].
      + right. left. change (JS.of_Z (-1)) with (-1)%float.
        apply div_minus_one. exact Hsr.
      + right. right. change (JS.of_Z 0) with 0%float.
        rewrite (div_pos_zero _ Hsr). reflexivity. }
  destruct G as (f & Hf & G).
  rewrite (detectPitch_track _ _ _ Hf). apply track_rejected. exact G.
Qed.

Lemma detectPitch_degenerate_witness :
  T0_of [1; 0; 0; 0; 0; 1]%float = Ok 0 /\
  detectPitch (set_pitchHistory (new_PitchDetector 48000%float) [220; 220]%float)
    [1; 0; 0; 0; 0; 1]%float
  = (reset (set_pitchHistory (new_PitchDetector 48000%float) [220; 220]%float), Ok None).
Proof.
  split; [reflexivity|].
  apply (detectPitch_degenerate
           (set_pitchHistory (new_PitchDetector 48000%float) [220; 220]%float)
           [1; 0; 0; 0; 0; 1]%float 0).
  - reflexivity.
  - reflexivity.
  - lia.
Defined.

(** ** What trimming keeps *)

Lemma find_bounds (buffer : list float) :
  let SIZE := Z.of_nat (length buffer) in
  0 <= find_r1 buffer /\ (find_r1 buffer = 0 \/ 2 * find_r1 buffer < SIZE) /\
  find_r2 buffer <= SIZE - 1 /\ SIZE <= 2 * find_r2 buffer + 2 /\
  (2 * find_r2 buffer <= SIZE -> find_r2 buffer = SIZE - 1).
Proof.
  intro SIZE.
  assert (H1 := scan_half_spec SIZE (fun i => below buffer i) (length buffer) 0).
  assert (H2 := scan_half_spec SIZE (fun i => below buffer (SIZE - i)) (length buffer) 1).
  assert (E1 : find_r1 buffer
               = match scan_half (length buffer) SIZE (fun i => below buffer i) 0 with
                 | Some i => i | None => 0 end) by reflexivity.
  assert (E2 : find_r2 buffer
               = match scan_half (length buffer) SIZE
                         (fun i => below buffer (SIZE - i)) 1 with
                 | Some i => SIZE - i | None => SIZE - 1 end) by reflexivity.
  rewrite E1, E2.
  destruct (scan_half _ _ _ 0) as [i|]; destruct (scan_half _ _ _ 1) as [k|];
    try (destruct H1 as (? & ? & _); [lia|]);
    try (destruct H2 as (? & ? & _); [lia|]);
    lia.
Qed.

(** X1: the trimming of lines 38-58 cuts a prefix shorter than half the
    buffer and a suffix of at least one sample and at most half the
    buffer; what it keeps is one block of consecutive samples, never
    empty. *)
Theorem trim_keeps_middle (buffer : list float) :
  (2 <= length buffer)%nat ->
  exists before after : list float,
    buffer = before ++ trim buffer ++ after /\
    Z.of_nat (length before) = find_r1 buffer /\
    Z.of_nat (length after) = Z.of_nat (length buffer) - find_r2 buffer /\
    (2 * length before < length buffer)%nat /\
    (1 <= length after)%nat /\
    (2 * length after <= length buffer)%nat /\
    (1 <= length (trim buffer))%nat.
Proof.
  intro Hsize.
  destruct (find_bounds buffer) as (A1 & A2 & B1 & B2 & B3). cbv zeta in *.
  set (SIZE := Z.of_nat (length buffer)) in *.
  set (r1 := find_r1 buffer) in *. set (r2 := find_r2 buffer) in *.
  assert (Hr : 0 <= r1 /\ r1 < r2 /\ r2 <= SIZE - 1 /\ 2 * r1 < SIZE /\ SIZE <= 2 * r2)
    by lia.
  assert (T : trim buffer = firstn (Z.to_nat (r2 - r1)) (skipn (Z.to_nat r1) buffer)).
  { unfold trim, JS.slice. fold SIZE. fold r1. fold r2.
    destruct (Z.ltb_spec r1 0); [lia|]. destruct (Z.ltb_spec r2 0); [lia|].
    rewrite (Z.min_l r1 SIZE), (Z.min_l r2 SIZE) by lia. reflexivity. }
  exists (firstn (Z.to_nat r1) buffer),
         (skipn (Z.to_nat (r2 - r1)) (skipn (Z.to_nat r1) buffer)).
  assert (L1 : length (firstn (Z.to_nat r1) buffer) = Z.to_nat r1)
    by (rewrite length_firstn; lia).
  assert (L2 : length (skipn (Z.to_nat (r2 - r1)) (skipn (Z.to_nat r1) buffer))
               = (length buffer - Z.to_nat r2)%nat)
    by (rewrite !length_skipn; lia).
  assert (L3 : length (trim buffer) = Z.to_nat (r2 - r1)).
  { rewrite T, length_firstn, length_skipn. lia. }
  rewrite L1, L2, L3.
  split.
  - rewrite T, firstn_skipn, firstn_skipn. reflexivity.
  - repeat split; lia.
Qed.

Lemma trim_keeps_middle_witness :
  exists before after : list float,
    [0.5; 0.1; 0.5; 0.5; 0.1; 0.5]%float
    = before ++ trim [0.5; 0.1; 0.5; 0.5; 0.1; 0.5]%float ++ after /\
    Z.of_nat (length before) = 1 /\ Z.of_nat (length after) = 2.
Proof.
  destruct (trim_keeps_middle [0.5; 0.1; 0.5; 0.5; 0.1; 0.5]%float)
    as (before & after & E & L1 & L2 & _).
  - simpl. lia.
  - exists before, after. split; [exact E|]. split; [exact L1|exact L2].
Defined.

Lemma detectPitch_all_fields (inputs : list (list float)) (this : PitchDetector) :
  sampleRate (fst (detectPitch_all this inputs)) = sampleRate this /\
  historySize (fst (detectPitch_all this inputs)) = historySize this /\
  pitchTolerance (fst (detectPitch_all this inputs)) = pitchTolerance this.
Proof.
  destruct (estimates_exist this inputs) as (raws & E).
  rewrite (detectPitch_all_track_all _ _ _ E). apply track_all_fields.
Qed.

Lemma detectPitch_all_app (a b : list (list float)) :
  forall this,
    detectPitch_all this (a ++ b) =
    (fst (detectPitch_all (fst (detectPitch_all this a)) b),
     snd (detectPitch_all this a) ++ snd (detectPitch_all (fst (detectPitch_all this a)) b)).
Proof.
  induction a as [|d a IH]; intro this; simpl.
  - destruct (detectPitch_all this b); reflexivity.
  - destruct (detectPitch this d) as [this' r].
    rewrite IH.
    destruct (detectPitch_all this' a) as [t1 r1]. simpl.
    reflexivity.
Qed.

Lemma PitchDetector_eq (a b : PitchDetector) :
  sampleRate a = sampleRate b -> pitchHistory a = pitchHistory b ->
  historySize a = historySize b -> pitchTolerance a = pitchTolerance b ->
  a = b.
Proof. destruct a, b; simpl; intros; subst; reflexivity. Qed.

(** X6: a frame whose estimate is below 60 or above 1000 makes the tracker
    forget: [detectPitch] answers [null] for it, and what follows is what
    a detector just reset would do, whatever came before. *)
Theorem detectPitch_forgets
  (this : PitchDetector) (before after : list (list float))
  (dataArray : list float) (frequency : float) :
  autoCorrelate dataArray (sampleRate this) = Ok frequency ->
  gate frequency = true ->
  fst (detectPitch_all this (before ++ dataArray :: after))
  = fst (detectPitch_all (reset this) after) /\
  snd (detectPitch_all this (before ++ dataArray :: after))
  = snd (detectPitch_all this before) ++ Ok None
      :: snd (detectPitch_all (reset this) after).
Proof.
  intros Hf G.
  rewrite detectPitch_all_app.
  destruct (detectPitch_all_fields before this) as (F1 & F2 & F3).
  set (t1 := fst (detectPitch_all this before)) in *.
  cbn [fst snd].
  assert (E : detectPitch t1 dataArray = (reset this, Ok None)).
  { rewrite (detectPitch_track t1 dataArray frequency) by (rewrite F1; exact Hf).
    rewrite (track_rejected _ _ G). f_equal.
    apply PitchDetector_eq; simpl; auto. }
  cbn [detectPitch_all]. rewrite E.
  destruct (detectPitch_all (reset this) after) as [t2 r2].
  split; reflexivity.
Qed.

Lemma detectPitch_forgets_witness :
  snd (detectPitch_all (new_PitchDetector 880%float)
         ([tone; tone] ++ [0%float; 0%float] :: [tone; tone; tone]))
  = snd (detectPitch_all (new_PitchDetector 880%float) [tone; tone]) ++ Ok None
      :: snd (detectPitch_all (reset (new_PitchDetector 880%float)) [tone; tone; tone]).
Proof.
  apply (detectPitch_forgets (new_PitchDetector 880%float) [tone; tone]
           [tone; tone; tone] [0%float; 0%float] (-1)%float);
    vm_compute; reflexivity.
Defined.

(** X4: [detectPitch] throws in one case only: the estimate passes the
    filter of line 110, the history is empty and [historySize] is not
    positive, so the push is undone by the shift and [reduce] of line 127
    meets an empty array with no initial value.  With a positive
    [historySize] it always returns. *)
Theorem detectPitch_throws (this : PitchDetector) (dataArray : list float) :
  (snd (detectPitch this dataArray) = TypeError <->
   exists frequency,
     autoCorrelate dataArray (sampleRate this) = Ok frequency /\
     gate frequency = false /\
     pitchHistory this = [] /\ historySize this <= 0)
  /\
  (snd (detectPitch this dataArray) = TypeError \/
   exists r, snd (detectPitch this dataArray) = Ok r)
  /\
  (1 <= historySize this -> exists r, snd (detectPitch this dataArray) = Ok r).
Proof.
  destruct (autoCorrelate_total dataArray (sampleRate this)) as (f & Hf).
  rewrite (detectPitch_track _ _ _ Hf).
  assert (Main :
    (snd (track this f) = TypeError /\ gate f = false /\
     pitchHistory this = [] /\ historySize this <= 0) \/
    ((exists r, snd (track this f) = Ok r) /\
     (gate f = true \/ pitchHistory this <> [] \/ 1 <= historySize this))).
  { destruct (gate f) eqn:G.
    - right. rewrite (track_rejected _ _ G). split; [eexists; reflexivity|auto].
    - rewrite (track_accepted _ _ G). cbn [snd].
      destruct (push_shift (historySize this) (pitchHistory this) f) as [|x xs] eqn:P.
      + apply push_shift_nonempty in P. destruct P as [P1 P2].
        left. cbn [length]. 
        destruct (Z.ltb_spec (Z.of_nat 0) (historySize this)); [lia|].
        repeat split; try assumption; lia.
      + right. split.
        * destruct (_ <? _); eexists; reflexivity.
        * right.
          destruct (pitchHistory this) as [|y ys] eqn:Hh; [|left; discriminate].
          right. destruct (Z_lt_le_dec (historySize this) 1) as [Hn|Hn]; [|exact Hn].
          exfalso. unfold push_shift in P. simpl in P.
          destruct (Z.ltb_spec (historySize this) 1); [discriminate|lia]. }
  split; [|split].
  - split.
    + intro T. destruct Main as [(_ & G & H & N)|((r & R) & _)].
      * exists f. auto.
      * rewrite R in T. discriminate.
    + intros (f' & Hf' & G & H & N).
      rewrite Hf in Hf'. injection Hf' as <-.
      destruct Main as [(T & _)|(_ & [G'|[H'|N']])]; [exact T|congruence|congruence|lia].
  - destruct Main as [(T & _)|(R & _)]; [left|right]; assumption.
  - intro N. destruct Main as [(_ & _ & _ & N')|(R & _)]; [lia|exact R].
Qed.

(** Sliding window *)

Lemma lastn_all {A : Type} (n : Z) (l : list A) :
  Z.of_nat (length l) <= n -> lastn n l = l.
Proof.
  intro H. unfold lastn.
  replace (length l - Z.to_nat n)%nat with 0%nat by lia. reflexivity.
Qed.

Lemma lastn_cons {A : Type} (n : Z) (a : A) (l : list A) :
  n <= Z.of_nat (length l) -> lastn n (a :: l) = lastn n l.
Proof.
  intro H. unfold lastn. cbn [length].
  replace (S (length l) - Z.to_nat n)%nat with (S (length l - Z.to_nat n)) by lia.
  reflexivity.
Qed.

Lemma lastn_push_shift (n : Z) (h : list float) (f : float) (rest : list float) :
  1 <= n -> Z.of_nat (length h) <= n ->
  lastn n (push_shift n h f ++ rest) = lastn n (h ++ f :: rest) /\
  Z.of_nat (length (push_shift n h f)) <= n.
Proof.
  intros Hn Hlen.
  replace (h ++ f :: rest) with ((h ++ [f]) ++ rest)
    by (rewrite <- app_assoc; reflexivity).
  destruct (push_shift_cases n h f) as [[Hlt ->]|[Hge ->]].
  - split; [reflexivity|]. rewrite length_app. simpl. lia.
  - destruct (h ++ [f]) as [|a l] eqn:E.
    + destruct h; discriminate.
    + assert (L : length l = length h).
      { apply (f_equal (@length float)) in E. rewrite length_app in E.
        simpl in E. lia. }
      cbn [tl]. split; [|lia].
      cbn [app]. symmetry. apply lastn_cons. rewrite length_app. lia.
Qed.

Lemma track_all_window (raws : list float) :
  forall this,
    1 <= historySize this ->
    Z.of_nat (length (pitchHistory this)) <= historySize this ->
    Forall (fun f => gate f = false) raws ->
    pitchHistory (fst (track_all this raws))
    = lastn (historySize this) (pitchHistory this ++ raws).
Proof.
  induction raws as [|f raws IH]; intros this Hn Hlen Hall.
  - simpl. rewrite app_nil_r. symmetry. apply lastn_all. exact Hlen.
  - inversion Hall as [|? ? G Hall']; subst.
    cbn [track_all].
    pose proof (track_accepted this f G) as T. cbv zeta in T.
    destruct (track this f) as [this' r] eqn:E.
    destruct (track_all this' raws) as [this'' rs] eqn:E'.
    cbn [fst].
    injection T as T1 T2. subst this'.
    destruct (lastn_push_shift (historySize this) (pitchHistory this) f raws Hn Hlen)
      as [W L].
    specialize (IH (set_pitchHistory this
                      (push_shift (historySize this) (pitchHistory this) f))).
    cbn [set_pitchHistory historySize pitchHistory] in IH.
    rewrite E' in IH. cbn [fst] in IH.
    rewrite IH by assumption. exact W.
Qed.

(** X5: while every estimate passes the filter of line 110, the history is
    a sliding window: after the frames it holds the last [historySize]
    numbers of the old history followed by the estimates, in order. *)
Theorem detectPitch_window
  (this : PitchDetector) (inputs : list (list float)) (raws : list float) :
  1 <= historySize this ->
  Z.of_nat (length (pitchHistory this)) <= historySize this ->
  estimates this inputs raws ->
  Forall (fun frequency => gate frequency = false) raws ->
  pitchHistory (fst (detectPitch_all this inputs))
  = lastn (historySize this) (pitchHistory this ++ raws).
Proof.
  intros Hn Hlen E Hall.
  rewrite (detectPitch_all_track_all _ _ _ E).
  apply track_all_window; assumption.
Qed.

Lemma detectPitch_window_witness :
  pitchHistory (fst (detectPitch_all (new_PitchDetector 240%float)
                       [tone; tone; tone; tone]))
  = lastn 3 ([] ++ [60; 60; 60; 60]%float).
Proof.
  apply (detectPitch_window (new_PitchDetector 240%float) [tone; tone; tone; tone]
           [60; 60; 60; 60]%float).
  - simpl. lia.
  - simpl. lia.
  - repeat constructor; vm_compute; reflexivity.
  - repeat constructor.
Defined.

(** Tolerance *)

Lemma abs_ltb_pos (z t : float) :
  (abs z <? t)%float = true -> (0 <? t)%float = true.
Proof.
  rewrite !ltb_spec, abs_spec.
  change (Prim2SF 0) with (S754_zero false).
  destruct (Prim2SF z) as [s|s| |s m e], (Prim2SF t) as [s'|s'| |s' m' e'];
    simpl; try discriminate; try reflexivity;
    try (destruct s'; try discriminate; reflexivity).
Qed.

Lemma consistent_pos (tol avg : float) (x : float) (xs : list float) :
  consistent tol avg (x :: xs) = true -> (0 <? tol)%float = true.
Proof.
  unfold consistent. cbn [forallb]. intro H.
  apply andb_true_iff in H. destruct H as [H _].
  exact (abs_ltb_pos _ _ H).
Qed.

(** X7: with a [pitchTolerance] that is not positive (zero, negative or
    NaN) no frame has a pitch: [|freq - avgFreq|] is never below it. *)
Theorem detectPitch_tolerance_zero (this : PitchDetector) (dataArray : list float) :
  (0 <? pitchTolerance this)%float = false ->
  snd (detectPitch this dataArray) = Ok None \/
  snd (detectPitch this dataArray) = TypeError.
Proof.
  intro Ht.
  destruct (autoCorrelate_total dataArray (sampleRate this)) as (f & Hf).
  rewrite (detectPitch_track _ _ _ Hf).
  destruct (gate f) eqn:G.
  - rewrite (track_rejected _ _ G). left. reflexivity.
  - rewrite (track_accepted _ _ G). cbn [snd].
    destruct (_ <? _); [left; reflexivity|].
    destruct (push_shift _ _ _) as [|x xs]; [right; reflexivity|].
    left. cbv zeta.
    destruct (consistent _ _ _) eqn:C; [|reflexivity].
    apply consistent_pos in C. congruence.
Qed.

Lemma detectPitch_tolerance_zero_witness :
  snd (detectPitch
         (set_pitchHistory
            (setSensitivity (new_PitchDetector 880%float)
               {| s_historySize := None; s_pitchTolerance := Some 0%float |})
            [220; 220]%float)
         tone) = Ok None \/
  snd (detectPitch
         (set_pitchHistory
            (setSensitivity (new_PitchDetector 880%float)
               {| s_historySize := None; s_pitchTolerance := Some 0%float |})
            [220; 220]%float)
         tone) = TypeError.
Proof.
  apply (detectPitch_tolerance_zero
           (set_pitchHistory
              (setSensitivity (new_PitchDetector 880%float)
                 {| s_historySize := None; s_pitchTolerance := Some 0%float |})
              [220; 220]%float) tone).
  reflexivity.
Defined.

Lemma consistent_mono (t1 t2 avg : float) (h : list float) :
  (t1 <=? t2)%float = true ->
  consistent t1 avg h = true -> consistent t2 avg h = true.
Proof.
  intros Ht. unfold consistent. rewrite !forallb_forall.
  intros H e He. specialize (H e He).
  exact (Order64Facts.ltb_leb_trans _ _ _ H Ht).
Qed.

(** X8: [pitchTolerance] is monotone: a detector in the same state but with
    a tolerance at least as large returns every pitch the first one
    returns, and the same number. *)
Theorem detectPitch_tolerance_mono
  (this that : PitchDetector) (dataArray : list float) (v : float) :
  sampleRate that = sampleRate this ->
  pitchHistory that = pitchHistory this ->
  historySize that = historySize this ->
  (pitchTolerance this <=? pitchTolerance that)%float = true ->
  snd (detectPitch this dataArray) = Ok (Some v) ->
  snd (detectPitch that dataArray) = Ok (Some v).
Proof.
  intros Hs Hh Hn Ht.
  destruct (autoCorrelate_total dataArray (sampleRate this)) as (f & Hf).
  rewrite (detectPitch_track this _ _ Hf).
  rewrite (detectPitch_track that _ f) by (rewrite Hs; exact Hf).
  destruct (gate f) eqn:G.
  - rewrite !(track_rejected _ _ G). simpl. discriminate.
  - rewrite !(track_accepted _ _ G). cbn [snd]. rewrite Hh, Hn.
    destruct (_ <? _); [discriminate|].
    destruct (push_shift _ _ _) as [|x xs]; [discriminate|].
    cbv zeta.
    destruct (consistent (pitchTolerance this) _ _) eqn:C; [|discriminate].
    rewrite (consistent_mono _ _ _ _ Ht C). trivial.
Qed.

Lemma detectPitch_tolerance_mono_witness :
  snd (detectPitch
         (set_pitchHistory
            (setSensitivity (new_PitchDetector 880%float)
               {| s_historySize := None; s_pitchTolerance := Some 50%float |})
            [219; 221]%float)
         tone)
  = Ok (Some 220%float).
Proof.
  apply (detectPitch_tolerance_mono
           (set_pitchHistory (new_PitchDetector 880%float) [219; 221]%float));
    reflexivity.
Defined.

(** X9: a NaN in the history silences the tracker: the mean of line 127 is
    NaN and the test of line 129 fails, so the frame has no pitch. *)
Theorem detectPitch_nan_blocks (this : PitchDetector) (dataArray : list float) :
  In nan (pitchHistory (fst (detectPitch this dataArray))) ->
  snd (detectPitch this dataArray) = Ok None.
Proof.
  destruct (autoCorrelate_total dataArray (sampleRate this)) as (f & Hf).
  rewrite (detectPitch_track _ _ _ Hf).
  destruct (gate f) eqn:G.
  - rewrite (track_rejected _ _ G). reflexivity.
  - rewrite (track_accepted _ _ G). cbn [fst snd set_pitchHistory pitchHistory].
    intro Hin.
    destruct (_ <? _); [reflexivity|].
    destruct (push_shift _ _ _) as [|x xs]; [destruct Hin|].
    cbv zeta.
    destruct (consistent _ _ _) eqn:C; [|reflexivity].
    exfalso. exact (consistent_not_nan _ _ _ _ C Hin eq_refl).
Qed.

Lemma detectPitch_nan_blocks_witness :
  snd (detectPitch
         (set_pitchHistory (new_PitchDetector 48000%float) [220; 220]%float)
         [infinity; -1; 1; -1; 1]%float)
  = Ok None.
Proof.
  apply (detectPitch_nan_blocks
           (set_pitchHistory (new_PitchDetector 48000%float) [220; 220]%float)
           [infinity; -1; 1; -1; 1]%float).
  vm_compute. right. right. left. reflexivity.
Defined.

(** X10: [reset] and [setSensitivity] erase what earlier frames left:
    after them the detector is the one it would be had no frame been
    seen, and [setSensitivity] makes a [reset] before or after it
    redundant. *)
Theorem setSensitivity_absorbs
  (this : PitchDetector) (inputs : list (list float)) (s : settings) :
  reset (fst (detectPitch_all this inputs)) = reset this /\
  setSensitivity (fst (detectPitch_all this inputs)) s = setSensitivity this s /\
  setSensitivity (reset this) s = setSensitivity this s /\
  reset (setSensitivity this s) = setSensitivity this s.
Proof.
  destruct (detectPitch_all_fields inputs this) as (F1 & F2 & F3).
  split; [|split; [|split]].
  - apply PitchDetector_eq; simpl; auto.
  - unfold setSensitivity.
    destruct (s_historySize s), (s_pitchTolerance s);
      apply PitchDetector_eq; simpl; auto.
  - unfold setSensitivity.
    destruct (s_historySize s), (s_pitchTolerance s); reflexivity.
  - unfold setSensitivity.
    destruct (s_historySize s), (s_pitchTolerance s); reflexivity.
Qed.

Module ElementFacts.

Import Element Binary64 Binary64Facts.

(** What holds of an element on which the loop has never run. *)
Lemma perform_idle (this : PitchDetectorElement) (c : call) :
  animationFrame this = None ->
  currentFrequency this = None ->
  (forall d, pitchDetector this = Some d -> exists sampleRate, d = new_PitchDetector sampleRate) ->
  let this' := fst (perform this c) in
  forallb (fun e => negb (detecting e)) (snd (perform this c)) = true /\
  animationFrame this' = None /\
  currentFrequency this' = None /\
  (forall d, pitchDetector this' = Some d -> exists sampleRate, d = new_PitchDetector sampleRate).
Proof.
  intros Ha Hc Hd.
  assert (Hstop : let this' := fst (stop this) in
                  forallb (fun e => negb (detecting e)) (snd (stop this)) = true /\
                  animationFrame this' = None /\
                  currentFrequency this' = None /\
                  (forall d, pitchDetector this' = Some d ->
                             exists sampleRate, d = new_PitchDetector sampleRate)).
  { unfold stop. cbn [set_isActive animationFrame]. rewrite Ha. cbn.
    split; [reflexivity|]. split; [assumption|]. split; [reflexivity|].
    intros d H. discriminate. }
  assert (Hstart : forall granted now samples id,
             let this' := fst (start this granted now samples id) in
             forallb (fun e => negb (detecting e))
                     (snd (start this granted now samples id)) = true /\
             animationFrame this' = None /\
             currentFrequency this' = None /\
             (forall d, pitchDetector this' = Some d ->
                        exists sampleRate, d = new_PitchDetector sampleRate)).
  { intros granted now samples id. unfold start, start_resume.
    destruct (isActive this) eqn:A.
    - cbn. auto.
    - destruct granted as [sampleRate|].
      + unfold detectPitchLoop, detect. cbn [set_pitchDetector isActive].
        rewrite A. cbn.
        split; [reflexivity|]. split; [assumption|]. split; [assumption|].
        intros d H. injection H as <-. exists sampleRate. reflexivity.
      + cbn. auto. }
  destruct c as [granted now samples id| |granted now samples id]; cbn [perform].
  - apply Hstart.
  - exact Hstop.
  - unfold toggle. destruct (isActive this); [exact Hstop|apply Hstart].
Qed.

(** A [start] that resumes on an element that is active by then (another
    [start] went through while it waited) does run the loop. *)
Lemma start_resume_active
  (this : PitchDetectorElement) (sampleRate : float)
  (now : Z) (samples : list float) (id : Z) :
  isActive this = true ->
  requested (detectPitchLoop
               (set_pitchDetector this (Some (new_PitchDetector sampleRate)))
               now samples id) = true.
Proof.
  intro A. unfold detectPitchLoop, detect.
  cbn [set_pitchDetector isActive pitchDetector]. rewrite A. cbn [negb].
  destruct (detectionInterval <=? now - 0); [|reflexivity].
  destruct (autoCorrelate_total samples sampleRate) as [f Hf].
  rewrite (detectPitch_track (new_PitchDetector sampleRate) samples f Hf).
  destruct (gate f) eqn:G.
  - rewrite (track_rejected _ _ G). reflexivity.
  - rewrite (track_accepted _ _ G). reflexivity.
Qed.

(** X11: the loop never runs.  [start] calls [detectPitchLoop] (line 122)
    before it sets [isActive] (line 124), so the first call of [detect]
    returns at line 149 without asking for a frame.  Whatever [start],
    [stop] and [toggle] a page calls, one after the other, on a new
    element: no [pitch-update] is dispatched, no animation frame is
    requested, [currentFrequency] stays [null] and the detector, when
    there is one, has seen no data.  Only a [start] that resumes on an
    element another [start] has made active meanwhile gets the loop
    going. *)
Theorem element_never_detects (calls : list call) :
  let this := fst (perform_all new_PitchDetectorElement calls) in
  let effects := snd (perform_all new_PitchDetectorElement calls) in
  forallb (fun e => negb (detecting e)) effects = true /\
  animationFrame this = None /\
  currentFrequency this = None /\
  (forall d, pitchDetector this = Some d ->
             exists sampleRate, d = new_PitchDetector sampleRate) /\
  (forall that sampleRate now samples id,
      isActive that = true ->
      requested (detectPitchLoop
                   (set_pitchDetector that (Some (new_PitchDetector sampleRate)))
                   now samples id) = true).
Proof.
  cbv zeta.
  assert (G : forall this,
             animationFrame this = None ->
             currentFrequency this = None ->
             (forall d, pitchDetector this = Some d ->
                        exists sampleRate, d = new_PitchDetector sampleRate) ->
             forallb (fun e => negb (detecting e)) (snd (perform_all this calls)) = true /\
             animationFrame (fst (perform_all this calls)) = None /\
             currentFrequency (fst (perform_all this calls)) = None /\
             (forall d, pitchDetector (fst (perform_all this calls)) = Some d ->
                        exists sampleRate, d = new_PitchDetector sampleRate)).
  { induction calls as [|c calls IH]; intros this Ha Hc Hd.
    - cbn. auto.
    - cbn [perform_all].
      destruct (perform_idle this c Ha Hc Hd) as (E & Ha' & Hc' & Hd').
      destruct (perform this c) as [this' effects]. cbn [fst snd] in *.
      specialize (IH this' Ha' Hc' Hd').
      destruct (perform_all this' calls) as [this'' more]. cbn [fst snd] in *.
      destruct IH as (E' & IH). split; [|exact IH].
      rewrite forallb_app, E, E'. reflexivity. }
  destruct (G new_PitchDetectorElement) as (G1 & G2 & G3 & G4);
    try reflexivity.
  { intros d H. discriminate. }
  split; [exact G1|]. split; [exact G2|]. split; [exact G3|]. split; [exact G4|].
  intros that sampleRate now samples id A.
  apply start_resume_active. exact A.
Qed.

(** In a run of frames, a frame that dispatches comes at least an
    interval after the closure variable it started from. *)
Lemma frames_after (fs : list (PitchDetectorElement * Z * list float * Z)) :
  forall lastDetectionTime j s this now samples id,
    nth_error (frames lastDetectionTime fs) j = Some s ->
    nth_error fs j = Some (this, now, samples, id) ->
    updated s = true ->
    lastDetectionTime + detectionInterval <= now /\ s_lastDetectionTime s = now.
Proof.
  induction fs as [|[[[this0 now0] samples0] id0] fs IH];
    intros last j s this now samples id Hs Hf Hu.
  - destruct j; discriminate.
  - cbn [frames] in Hs.
    assert (D : let s0 := detect this0 last now0 samples0 id0 in
                (updated s0 = true ->
                 last + detectionInterval <= now0 /\ s_lastDetectionTime s0 = now0) /\
                last <= s_lastDetectionTime s0 \/ requested s0 = false).
    { unfold detect.
      destruct (negb (isActive this0)); [right; reflexivity|].
      destruct (Z.leb_spec detectionInterval (now0 - last)) as [Hi|Hi].
      - destruct (pitchDetector this0) as [d|]; [|right; reflexivity].
        destruct (detectPitch d samples0) as [d' [frequency| |]];
          try (right; reflexivity).
        left. cbn. unfold detectionInterval in *. split; [intros _; split|]; lia.
      - left. cbn. split; [discriminate|lia]. }
    cbv zeta in D.
    destruct j as [|j].
    + cbn in Hs, Hf. injection Hs as <-. injection Hf as <- <- <- <-.
      destruct D as [[D _]|D].
      * apply D. exact Hu.
      * unfold updated in Hu. unfold requested in D.
        revert Hu D. unfold detect.
        destruct (negb (isActive this0)); [discriminate|].
        destruct (_ <=? _); [|discriminate].
        destruct (pitchDetector this0) as [d|]; [|discriminate].
        destruct (detectPitch d samples0) as [d' [frequency| |]]; discriminate.
    + cbn [nth_error] in Hs, Hf.
      destruct (requested (detect this0 last now0 samples0 id0)) eqn:R.
      * destruct D as [[_ D]|D]; [|congruence].
        destruct (IH _ _ _ _ _ _ _ Hs Hf Hu) as [H1 H2].
        split; [lia|exact H2].
      * destruct j; discriminate.
Qed.

(** X12: two detections of one loop are at least 100 ms apart.  In a run
    of animation frames served to one closure [detect], whatever the
    element has become between the frames, two frames that dispatch a
    [pitch-update] have clock readings at least [detectionInterval]
    apart. *)
Theorem detect_cadence
  (lastDetectionTime : Z)
  (fs : list (PitchDetectorElement * Z * list float * Z)) (i j : nat) (si sj : step)
  (this_i this_j : PitchDetectorElement)
  (now_i now_j : Z) (samples_i samples_j : list float) (id_i id_j : Z) :
  (i < j)%nat ->
  nth_error (frames lastDetectionTime fs) i = Some si ->
  nth_error (frames lastDetectionTime fs) j = Some sj ->
  nth_error fs i = Some (this_i, now_i, samples_i, id_i) ->
  nth_error fs j = Some (this_j, now_j, samples_j, id_j) ->
  updated si = true ->
  updated sj = true ->
  now_i + detectionInterval <= now_j.
Proof.
  revert lastDetectionTime i j si sj this_i this_j now_i now_j
         samples_i samples_j id_i id_j.
  induction fs as [|[[[this0 now0] samples0] id0] fs IH];
    intros last i j si sj this_i this_j now_i now_j samples_i samples_j id_i id_j
           Hij Hsi Hsj Hfi Hfj Hui Huj.
  - destruct i; discriminate.
  - destruct j as [|j]; [lia|].
    cbn [frames nth_error] in Hsi, Hsj. cbn [nth_error] in Hfj.
    destruct (requested (detect this0 last now0 samples0 id0)) eqn:R;
      [|destruct j; discriminate].
    destruct i as [|i].
    + cbn in Hsi, Hfi. injection Hsi as <-. injection Hfi as <- <- <- <-.
      destruct (frames_after ((this0, now0, samples0, id0) :: fs) last 0
                  (detect this0 last now0 samples0 id0) this0 now0 samples0 id0)
        as [_ E]; [cbn [frames nth_error]; reflexivity|reflexivity|exact Hui|].
      rewrite E in Hsj.
      destruct (frames_after fs _ _ _ _ _ _ _ Hsj Hfj Huj) as [H _]. exact H.
    + cbn [nth_error] in Hsi, Hfi.
      eapply (IH _ i j si sj this_i this_j now_i now_j samples_i samples_j id_i id_j);
        try eassumption. lia.
Qed.

(** *** What the element shows *)









Lemma detect_cadence_witness :
  map updated
    (frames 0
       [(set_isActive
           (set_pitchDetector new_PitchDetectorElement
              (Some (new_PitchDetector 880%float)))
           true, 100, tone, 1);
        (set_isActive
           (set_pitchDetector new_PitchDetectorElement
              (Some (new_PitchDetector 880%float)))
           true, 150, tone, 2);
        (set_isActive
           (set_pitchDetector new_PitchDetectorElement
              (Some (new_PitchDetector 880%float)))
           true, 200, tone, 3)])
  = [true; false; true] /\
  100 + detectionInterval <= 200.
Proof.
  split; [vm_compute; reflexivity|].
  eapply (detect_cadence 0
            [(set_isActive
                (set_pitchDetector new_PitchDetectorElement
                   (Some (new_PitchDetector 880%float)))
                true, 100, tone, 1);
             (set_isActive
                (set_pitchDetector new_PitchDetectorElement
                   (Some (new_PitchDetector 880%float)))
                true, 150, tone, 2);
             (set_isActive
                (set_pitchDetector new_PitchDetectorElement
                   (Some (new_PitchDetector 880%float)))
                true, 200, tone, 3)] 0 2).
  - lia.
  - vm_compute; reflexivity.
  - vm_compute; reflexivity.
  - vm_compute; reflexivity.
  - vm_compute; reflexivity.
  - vm_compute; reflexivity.
  - vm_compute; reflexivity.
Defined.

End ElementFacts.

(** ** Note names *)

Module NoteFacts.

Import String Element.

Lemma rem_rem_mod (r : Z) : Z.rem (Z.rem r 12 + 12) 12 = r mod 12.
Proof.
  pose proof (Z.rem_bound_abs r 12 ltac:(lia)) as B.
  pose proof (Z.quot_rem' r 12) as Q.
  rewrite Z.rem_mod_nonneg by lia.
  apply (Z.mod_unique r 12 (Z.quot r 12 - 1 + (Z.rem r 12 + 12) / 12)).
  - left. apply Z.mod_pos_bound. lia.
  - pose proof (Z.div_mod (Z.rem r 12 + 12) 12 ltac:(lia)). lia.
Qed.

(** X14: lines 383-385 of [getNoteFromFrequency].  The name is the entry
    of [noteNames] at the number of half steps from A4 modulo 12 (also
    for negative numbers), followed by the octave
    [4 + floor((rounded + 9) / 12)]; the half steps count from A but the
    table starts at C, so A4 itself (0 half steps, 440 Hz) and every
    octave of it is called C. *)
Theorem getNoteFromRounded_names (rounded octaves : Z) :
  (exists name,
      nth_error noteNames (Z.to_nat (rounded mod 12)) = Some name /\
      getNoteFromRounded rounded
      = (name ++ toString (4 + (rounded + 9) / 12))%string) /\
  getNoteFromRounded (12 * octaves) = ("C" ++ toString (4 + octaves))%string.
Proof.
  split.
  - unfold getNoteFromRounded. cbv zeta. rewrite rem_rem_mod.
    pose proof (Z.mod_pos_bound rounded 12 ltac:(lia)) as B.
    unfold noteName. destruct (Z.ltb_spec (rounded mod 12) 0) as [H|_]; [lia|].
    replace ((rounded + 9) / 12 + 4) with (4 + (rounded + 9) / 12) by lia.
    set (k := rounded mod 12) in *.
    assert (C : k = 0 \/ k = 1 \/ k = 2 \/ k = 3 \/ k = 4 \/ k = 5 \/ k = 6 \/
                k = 7 \/ k = 8 \/ k = 9 \/ k = 10 \/ k = 11) by lia.
    clearbody k.
    repeat (destruct C as [-> | C]; [eexists; split; reflexivity|]).
    subst k. eexists; split; reflexivity.
  - unfold getNoteFromRounded. cbv zeta. rewrite rem_rem_mod.
    replace (12 * octaves) with (octaves * 12) by lia.
    rewrite Z.mod_mul by lia.
    replace ((octaves * 12 + 9) / 12 + 4) with (4 + octaves).
    + reflexivity.
    + rewrite Z.add_comm with (n := octaves * 12).
      rewrite Z.div_add by lia. change (9 / 12) with 0. lia.
Qed.

End NoteFacts.
